(** * his: strided 2-d views, element-wise and pair-wise iteration, window filter

    A shallow embedding of the ImageProcessing part of the [his] template
    library (MatrixWrapper.hpp, Matrix.hpp, Foreach.hpp, ForeachPair.hpp,
    Filter.hpp) together with the properties of its traversals.

    Conventions of the embedding.
    - [size_t] is a 64-bit unsigned integer and [int] a 32-bit signed one;
      both are carried as [Z] and every conversion and wrap-around the C++
      code performs is written out ([to_size], [to_int], [size_add], ...).
    - A [T*] is a byte address in a flat 64-bit address space; adding [n] to
      it moves it by [n * sizeof(T)] bytes, modulo [2^64].  [sizeof(T)] is
      the parameter [sz] of [MatrixWrapper].
    - [int] arithmetic wraps as the compiled code does.
    - A functor is a state transformer over the state its captures live in;
      it receives the addresses of the elements it is handed by reference.
    - [assert] depends on the build: with [NDEBUG] it is compiled out,
      without it a false condition stops the program. *)

From Stdlib Require Import ZArith List Lia Bool.
From stdpp Require Import base tactics option list gmap.

Local Open Scope Z_scope.

Module his.

(** ** Machine integers and pointers *)

Definition SIZE_MOD : Z := 2 ^ 64.
Definition INT_MOD : Z := 2 ^ 32.
Definition INT_MAX : Z := 2 ^ 31 - 1.

(** Conversion of an integer value to [size_t]. *)
Definition to_size (z : Z) : Z := z mod SIZE_MOD.

(** Conversion of an integer value to [int] (two's complement). *)
Definition to_int (z : Z) : Z := (z + 2 ^ 31) mod INT_MOD - 2 ^ 31.

Definition size_add (a b : Z) : Z := (a + b) mod SIZE_MOD.
Definition size_sub (a b : Z) : Z := (a - b) mod SIZE_MOD.
Definition size_mul (a b : Z) : Z := (a * b) mod SIZE_MOD.

(** [p + n] on a [T*] with [sizeof(T) = sz]. *)
Definition ptr_add (sz p n : Z) : Z := (p + sz * n) mod SIZE_MOD.

(** ** Outcomes of a call *)

Inductive failure : Type :=
| AssertionFailed   (* a false [assert]: the program is aborted *)
| BadAlloc.         (* [new T[n]] found no storage *)

Inductive run (A : Type) : Type :=
| Returned (a : A)
| Failed (f : failure).
Arguments Returned {A} a.
Arguments Failed {A} f.

Definition bind {A B : Type} (r : run A) (k : A -> run B) : run B :=
  match r with
  | Returned a => k a
  | Failed f => Failed f
  end.

Notation "'let*' x ':=' r 'in' k" := (bind r (fun x => k))
  (at level 10, x name, r at level 100, k at level 200, only parsing).

(** [assert(c)] under the build flag [NDEBUG]. *)
Definition assert_ (NDEBUG : bool) (c : bool) : run unit :=
  if NDEBUG || c then Returned tt else Failed AssertionFailed.

(** ** Loops *)

(** [for (i = lo; i < hi; ++i) body], [n] iterations left. *)
Fixpoint for_loop {S : Type} (n : nat) (i : Z) (body : Z -> S -> S) (s : S) : S :=
  match n with
  | O => s
  | Datatypes.S n' => for_loop n' (i + 1) body (body i s)
  end.

Definition for_ {S : Type} (lo hi : Z) (body : Z -> S -> S) (s : S) : S :=
  for_loop (Z.to_nat (hi - lo)) lo body s.

(** The same loop when the body may stop the program. *)
Fixpoint for_loop_run {S : Type} (n : nat) (i : Z) (body : Z -> S -> run S) (s : S)
  : run S :=
  match n with
  | O => Returned s
  | Datatypes.S n' => let* s' := body i s in for_loop_run n' (i + 1) body s'
  end.

Definition for_run {S : Type} (lo hi : Z) (body : Z -> S -> run S) (s : S) : run S :=
  for_loop_run (Z.to_nat (hi - lo)) lo body s.

(** ** MatrixWrapper.hpp *)

Record MatrixWrapper (sz : Z) : Type := mkMatrixWrapper {
  m_start : Z;
  m_rows : Z;
  m_cols : Z;
  m_step : Z
}.
Arguments mkMatrixWrapper {sz} _ _ _ _.
Arguments m_start {sz} _.
Arguments m_rows {sz} _.
Arguments m_cols {sz} _.
Arguments m_step {sz} _.

(** [MatrixWrapper(void *start, size_t rows, size_t cols)]: step is cols. *)
Definition wrap {sz : Z} (start rows cols : Z) : MatrixWrapper sz :=
  mkMatrixWrapper start rows cols cols.

(** [T *operator [](int y) { return m_start + m_step * y; }] *)
Definition index {sz : Z} (m : MatrixWrapper sz) (y : Z) : Z :=
  ptr_add sz (m_start m) (size_mul (m_step m) (to_size y)).

(** [T &operator ()(int y, int x) { return this[y][x]; }]: the address of the
    element the reference designates. *)
Definition at_ {sz : Z} (m : MatrixWrapper sz) (y x : Z) : Z :=
  ptr_add sz (index m y) x.

(** [MatrixWrapper crop(int top, int left, size_t rows, size_t cols) const] *)
Definition crop (NDEBUG : bool) {sz : Z} (m : MatrixWrapper sz)
    (top left rows cols : Z) : run (MatrixWrapper sz) :=
  let* _ := assert_ NDEBUG ((size_add (to_size top) rows <=? m_rows m)
                            && (size_add (to_size left) cols <=? m_cols m)) in
  Returned (mkMatrixWrapper
              (ptr_add sz (ptr_add sz (m_start m)
                                      (size_mul (m_step m) (to_size top))) left)
              rows cols (m_step m)).

(** ** Storage

    The elements live in a store: a finite map from the address of an element
    to its value, and the frontier [brk] of a bump allocator standing for
    [operator new[]]: everything it hands out lies at or above the frontier of
    the moment, so a new array is disjoint from every array handed out
    before.  A cell that was never written has no entry. *)

Record store (V : Type) : Type := mkStore {
  mem : gmap Z V;
  brk : Z
}.
Arguments mkStore {V} _ _.
Arguments mem {V} _.
Arguments brk {V} _.

Definition write {V : Type} (a : Z) (v : V) (st : store V) : store V :=
  mkStore (<[a := v]> (mem st)) (brk st).

Definition read {V : Type} (a : Z) (st : store V) : option V := mem st !! a.

(** [new T[n]] with [n] already converted to [size_t]. *)
Definition new_array {V : Type} (sz n : Z) (st : store V) : run (Z * store V) :=
  if brk st + sz * n <=? SIZE_MOD
  then Returned (brk st, mkStore (mem st) (brk st + sz * n))
  else Failed BadAlloc.


(** [void set(const T &init_val)] *)
Definition set {sz : Z} {V : Type} (m : MatrixWrapper sz) (init_val : V)
    (st : store V) : store V :=
  for_ 0 (m_rows m)
       (fun y st =>
          for_ 0 (m_rows m)
               (fun x st => write (ptr_add sz (index m (to_int y)) x) init_val st)
               st)
       st.


(** ** Matrix.hpp *)

(** A [Matrix<T>] is a [MatrixWrapper<T>] that also holds the array it owns. *)
Record Matrix (sz : Z) : Type := mkMatrix {
  view : MatrixWrapper sz;
  m_data : Z
}.
Arguments mkMatrix {sz} _ _.
Arguments view {sz} _.
Arguments m_data {sz} _.

(** [void create(int rows, int cols)], as run by [Matrix(int rows, int cols)]. *)
Definition create {sz : Z} {V : Type} (rows cols : Z) (st : store V)
  : run (Matrix sz * store V) :=
  let* r := new_array sz (to_size (to_int (rows * cols))) st in
  let '(p, st') := r in
  Returned (mkMatrix (mkMatrixWrapper p (to_size rows) (to_size cols) (to_size cols)) p,
            st').


(** ** Foreach.hpp *)

Section Foreach.
Context {S : Type}.

(** One matrix. *)
Definition for_each {sz : Z} (mat : MatrixWrapper sz) (func : Z -> S -> S)
    (s : S) : S :=
  for_ 0 (m_rows mat)
       (fun y s =>
          let p := index mat (to_int y) in
          snd (for_ 0 (m_cols mat)
                    (fun _ '(p, s) => (ptr_add sz p 1, func p s))
                    (p, s)))
       s.

(** Two matrices. *)
Definition for_each_2 (NDEBUG : bool) {sz1 sz2 : Z}
    (mat1 : MatrixWrapper sz1) (mat2 : MatrixWrapper sz2)
    (func : Z -> Z -> S -> S) (s : S) : run S :=
  let* _ := assert_ NDEBUG ((m_rows mat1 =? m_rows mat2)
                            && (m_cols mat1 =? m_cols mat2)) in
  Returned
    (for_ 0 (m_rows mat1)
          (fun y s =>
             let p1 := index mat1 (to_int y) in
             let p2 := index mat2 (to_int y) in
             snd (for_ 0 (m_cols mat1)
                       (fun _ '(p1, p2, s) =>
                          (ptr_add sz1 p1 1, ptr_add sz2 p2 1, func p1 p2 s))
                       (p1, p2, s)))
          s).

(** Three matrices. *)
Definition for_each_3 (NDEBUG : bool) {sz1 sz2 sz3 : Z}
    (mat1 : MatrixWrapper sz1) (mat2 : MatrixWrapper sz2)
    (mat3 : MatrixWrapper sz3)
    (func : Z -> Z -> Z -> S -> S) (s : S) : run S :=
  let* _ := assert_ NDEBUG ((m_rows mat1 =? m_rows mat2)
                            && (m_cols mat1 =? m_cols mat2)) in
  let* _ := assert_ NDEBUG ((m_rows mat1 =? m_rows mat3)
                            && (m_cols mat1 =? m_cols mat3)) in
  Returned
    (for_ 0 (m_rows mat1)
          (fun y s =>
             let p1 := index mat1 (to_int y) in
             let p2 := index mat2 (to_int y) in
             let p3 := index mat3 (to_int y) in
             snd (for_ 0 (m_cols mat1)
                       (fun _ '(p1, p2, p3, s) =>
                          (ptr_add sz1 p1 1, ptr_add sz2 p2 1, ptr_add sz3 p3 1,
                           func p1 p2 p3 s))
                       (p1, p2, p3, s)))
          s).

(** Four matrices. *)
Definition for_each_4 (NDEBUG : bool) {sz1 sz2 sz3 sz4 : Z}
    (mat1 : MatrixWrapper sz1) (mat2 : MatrixWrapper sz2)
    (mat3 : MatrixWrapper sz3) (mat4 : MatrixWrapper sz4)
    (func : Z -> Z -> Z -> Z -> S -> S) (s : S) : run S :=
  let* _ := assert_ NDEBUG ((m_rows mat1 =? m_rows mat2)
                            && (m_cols mat1 =? m_cols mat2)) in
  let* _ := assert_ NDEBUG ((m_rows mat1 =? m_rows mat3)
                            && (m_cols mat1 =? m_cols mat3)) in
  let* _ := assert_ NDEBUG ((m_rows mat1 =? m_rows mat4)
                            && (m_cols mat1 =? m_cols mat4)) in
  Returned
    (for_ 0 (m_rows mat1)
          (fun y s =>
             let p1 := index mat1 (to_int y) in
             let p2 := index mat2 (to_int y) in
             let p3 := index mat3 (to_int y) in
             let p4 := index mat4 (to_int y) in
             snd (for_ 0 (m_cols mat1)
                       (fun _ '(p1, p2, p3, p4, s) =>
                          (ptr_add sz1 p1 1, ptr_add sz2 p2 1, ptr_add sz3 p3 1,
                           ptr_add sz4 p4 1, func p1 p2 p3 p4 s))
                       (p1, p2, p3, p4, s)))
          s).
End Foreach.

(** ** ForeachPair.hpp *)

Section ForeachPair.
Context {S : Type}.

(** One matrix: [func] gets the two neighbours. *)
Definition for_each_pair {sz : Z} (mat : MatrixWrapper sz)
    (func : Z -> Z -> S -> S) (s : S) : S :=
  (* first column *)
  let up := index mat 0 in
  let down := index mat 1 in
  let s :=
    snd (for_ 1 (m_rows mat)
              (fun _ '(up, down, s) =>
                 (ptr_add sz up (m_step mat), ptr_add sz down (m_step mat),
                  func up down s))
              (up, down, s)) in
  (* first row *)
  let left := index mat 0 in
  let right := ptr_add sz (index mat 0) 1 in
  let s :=
    snd (for_ 1 (m_cols mat)
              (fun _ '(left, right, s) =>
                 (ptr_add sz left 1, ptr_add sz right 1, func left right s))
              (left, right, s)) in
  (* the rest *)
  for_ 1 (m_rows mat)
       (fun y s =>
          let up := ptr_add sz (index mat (to_int (size_sub y 1))) 1 in
          let left := index mat (to_int y) in
          let center := ptr_add sz (index mat (to_int y)) 1 in
          snd (for_ 1 (m_cols mat)
                    (fun _ '(up, left, center, s) =>
                       (ptr_add sz up 1, ptr_add sz left 1, ptr_add sz center 1,
                        func left center (func up center s)))
                    (up, left, center, s)))
       s.

End ForeachPair.

(** ** Filter.hpp *)

(** [for (int i = lo; i < hi; ++i)] where [hi] is a [size_t]: the comparison
    converts [i] to [size_t], and a negative [int] converts to a value above
    every row or column count, so a negative start never enters the body.
    (The counter stays within [int]: the bounds are row and column counts.)

    [filter] is a template over three matrix types; they are taken to be
    [MatrixWrapper]s here.  [Matrix::crop] computes the same view. *)
Definition for_int {S : Type} (lo hi : Z) (body : Z -> S -> run S) (s : S) : run S :=
  if 0 <=? lo then for_run lo hi body s else Returned s.

Section Filter.
Context {S : Type} {sz1 sz2 sz3 : Z}.
Variable NDEBUG : bool.
Variable input : MatrixWrapper sz1.
Variable output : MatrixWrapper sz2.
Variable kernel : MatrixWrapper sz3.
Variable accm : Z -> Z -> S -> S.
Variable eval : Z -> S -> S.

(** The lambda [parse_with_check] of [filter]. *)
Definition parse_with_check (x y : Z) (s : S) : run S :=
  let x0 := Z.max (to_int (size_sub (to_size x) (m_cols kernel / 2))) 0 in
  let x1 := Z.min (to_int (size_add (size_add (to_size x) (m_cols kernel / 2)) 1))
                  (to_int (m_cols input)) in
  let y0 := Z.max (to_int (size_sub (to_size y) (m_rows kernel / 2))) 0 in
  let y1 := Z.min (to_int (size_add (size_add (to_size y) (m_rows kernel / 2)) 1))
                  (to_int (m_rows input)) in
  let* win := crop NDEBUG input y0 x0
                   (to_size (to_int (y1 - y0))) (to_size (to_int (x1 - x0))) in
  let* ker := crop NDEBUG kernel
                   (to_int (size_add (to_size (to_int (y0 - y))) (m_rows kernel / 2)))
                   (to_int (size_add (to_size (to_int (x0 - x))) (m_cols kernel / 2)))
                   (to_size (to_int (y1 - y0))) (to_size (to_int (x1 - x0))) in
  let* s := for_each_2 NDEBUG win ker accm s in
  Returned (eval (at_ output y x) s).

(** The body of the central loop: the whole kernel, no clipping. *)
Definition central (x y : Z) (s : S) : run S :=
  let* win := crop NDEBUG input
                   (to_int (size_sub (to_size y) (m_rows kernel / 2)))
                   (to_int (size_sub (to_size x) (m_cols kernel / 2)))
                   (m_rows kernel) (m_cols kernel) in
  let* s := for_each_2 NDEBUG win kernel accm s in
  Returned (eval (at_ output y x) s).

Definition filter (s : S) : run S :=
  let* _ := assert_ NDEBUG ((m_rows kernel mod 2 =? 1)
                            && (m_cols kernel mod 2 =? 1)) in
  let* _ := assert_ NDEBUG
              ((size_add (size_mul (m_rows kernel) 2) 1 <? m_rows input)
               && (size_add (size_mul (m_cols kernel) 2) 1 <? m_cols input)) in
  let* _ := assert_ NDEBUG ((m_rows input =? m_rows output)
                            && (m_cols input =? m_cols output)) in
  (* top *)
  let* s :=
    for_int 0 (m_rows kernel / 2)
      (fun y s => for_int 0 (m_cols input) (fun x s => parse_with_check x y s) s)
      s in
  (* bottom *)
  let* s :=
    for_int (to_int (size_sub (m_rows input) (m_rows kernel / 2))) (m_rows input)
      (fun y s => for_int 0 (m_cols input) (fun x s => parse_with_check x y s) s)
      s in
  (* left *)
  let* s :=
    for_int (to_int (m_rows kernel / 2))
            (size_sub (m_rows input) (m_rows kernel / 2))
      (fun y s =>
         for_int 0 (m_rows kernel / 2) (fun x s => parse_with_check x y s) s)
      s in
  (* right *)
  let* s :=
    for_int (to_int (m_rows kernel / 2))
            (size_sub (m_rows input) (m_rows kernel / 2))
      (fun y s =>
         for_int (to_int (size_sub (m_cols input) (m_rows kernel / 2)))
                 (m_cols input)
                 (fun x s => parse_with_check x y s) s)
      s in
  (* central part, no boundary checks *)
  for_int (to_int (m_rows kernel / 2))
          (size_sub (m_rows input) (m_rows kernel / 2))
    (fun y s =>
       for_int (to_int (m_cols kernel / 2))
               (size_sub (m_cols input) (m_cols kernel / 2))
               (fun x s => central x y s) s)
    s.
End Filter.

(** [his::Matrix<T> gaussian_kernel(int rows, int cols, double sigma)].
    Doubles are not modelled: [gauss n] stands for the stored value
    [T(exp(-factor * n))] with [factor = 0.5 / (sigma * sigma)], as a function
    of the integer [n = dx*dx + dy*dy]. *)
Definition gaussian_kernel {sz : Z} {V : Type} (gauss : Z -> V) (rows cols : Z)
    (st : store V) : run (Matrix sz * store V) :=
  let* r := create rows cols st in
  let '(kernel, st) := r in
  Returned
    (kernel,
     for_ 0 (Z.quot rows 2 + 1)
          (fun dy st =>
             for_ 0 (Z.quot cols 2 + 1)
                  (fun dx st =>
                     let w := gauss (to_int (to_int (dx * dx) + to_int (dy * dy))) in
                     let st := write (at_ (view kernel) (to_int (Z.quot rows 2 - dy))
                                          (to_int (Z.quot rows 2 - dx))) w st in
                     let st := write (at_ (view kernel) (to_int (Z.quot rows 2 - dy))
                                          (to_int (Z.quot rows 2 + dx))) w st in
                     let st := write (at_ (view kernel) (to_int (Z.quot rows 2 + dy))
                                          (to_int (Z.quot rows 2 + dx))) w st in
                     write (at_ (view kernel) (to_int (Z.quot rows 2 + dy))
                                (to_int (Z.quot rows 2 - dx))) w st)
                  st)
          st).

(** ** Observing the calls of a functor

    The functors below only record what they are called with. *)

(** The element addresses handed to the functor of [for_each], in call order. *)
Definition for_each_log {sz : Z} (mat : MatrixWrapper sz) : list Z :=
  for_each mat (fun p l => l ++ [p]) [].

(** The pairs handed to the functor of [for_each_pair], in call order. *)
Definition for_each_pair_log {sz : Z} (mat : MatrixWrapper sz) : list (Z * Z) :=
  for_each_pair mat (fun a b l => l ++ [(a, b)]) [].

(** For [filter]: the captured state is the list of finished output positions,
    each with the (input, kernel) pairs accumulated for it, and the pairs
    accumulated since the last evaluation. *)
Definition windows : Type := list (Z * list (Z * Z)) * list (Z * Z).

Definition log_accm (p q : Z) (w : windows) : windows :=
  (fst w, snd w ++ [(p, q)]).

Definition log_eval (o : Z) (w : windows) : windows :=
  (fst w ++ [(o, snd w)], []).

Definition filter_log (NDEBUG : bool) {sz1 sz2 sz3 : Z}
    (input : MatrixWrapper sz1) (output : MatrixWrapper sz2)
    (kernel : MatrixWrapper sz3) : run windows :=
  filter NDEBUG input output kernel log_accm log_eval ([], []).

(** How often the evaluate functor was handed the element at address [o]. *)
Definition eval_count (o : Z) (w : windows) : nat :=
  length (base.filter (fun e => fst e = o) (fst w)).

(** ** The traversals as the specification words them *)

(** The element of [mat] at position [a = (y, x)] as the loops address it:
    the row pointer [mat[y]] moved [x] elements on. *)
Definition cell {sz : Z} (mat : MatrixWrapper sz) (a : Z * Z) : Z :=
  ptr_add sz (index mat (to_int (fst a))) (snd a).

(** Row-major positions [(y, x)], [y = 0..R-1] outer, [x = 0..C-1] inner. *)
Definition row_major (R C : Z) : list (Z * Z) :=
  seqZ 0 R ≫= (λ y, (λ x, (y, x)) <$> seqZ 0 C).

(** Vertical edges of column 0, top to bottom. *)
Definition first_column_pairs (R : Z) : list ((Z * Z) * (Z * Z)) :=
  (λ y, ((y - 1, 0), (y, 0))) <$> seqZ 1 (R - 1).

(** Horizontal edges of row 0, left to right. *)
Definition first_row_pairs (C : Z) : list ((Z * Z) * (Z * Z)) :=
  (λ x, ((0, x - 1), (0, x))) <$> seqZ 1 (C - 1).

(** For each row [y = 1..R-1] and column [x = 1..C-1]: the vertical pair, then
    the horizontal pair. *)
Definition rest_pairs (R C : Z) : list ((Z * Z) * (Z * Z)) :=
  seqZ 1 (R - 1) ≫=
    (λ y, seqZ 1 (C - 1) ≫=
            (λ x, [((y - 1, x), (y, x)); ((y, x - 1), (y, x))])).

Definition pair_order (R C : Z) : list ((Z * Z) * (Z * Z)) :=
  first_column_pairs R ++ first_row_pairs C ++ rest_pairs R C.

(** Two positions are 4-adjacent, the first one up of or left of the second. *)
Definition adjacent (a b : Z * Z) : Prop :=
  (fst b = fst a + 1 ∧ snd b = snd a) ∨ (fst b = fst a ∧ snd b = snd a + 1).

Definition in_grid (R C : Z) (a : Z * Z) : Prop :=
  0 ≤ fst a < R ∧ 0 ≤ snd a < C.

(** ** filter as the specification words it *)

(** The window of [filter] at the output position [(y, x)]: the kernel-sized
    neighbourhood of [(y, x)] clipped to the input, every input element paired
    with the kernel element at the same offset from the centre. *)
Definition window_pairs {sz1 sz3 : Z} (input : MatrixWrapper sz1)
    (kernel : MatrixWrapper sz3) (y x : Z) : list (Z * Z) :=
  let kr := m_rows kernel / 2 in
  let kc := m_cols kernel / 2 in
  let y0 := Z.max (y - kr) 0 in
  let y1 := Z.min (y + kr + 1) (m_rows input) in
  let x0 := Z.max (x - kc) 0 in
  let x1 := Z.min (x + kc + 1) (m_cols input) in
  (λ a, (at_ input (y0 + a.1) (x0 + a.2),
         at_ kernel (y0 + a.1 - y + kr) (x0 + a.2 - x + kc)))
    <$> row_major (y1 - y0) (x1 - x0).

(** The positions [ylo <= y < yhi], [xlo <= x < xhi], row by row. *)
Definition band (ylo yhi xlo xhi : Z) : list (Z * Z) :=
  seqZ ylo (yhi - ylo) ≫= (λ y, (λ x, (y, x)) <$> seqZ xlo (xhi - xlo)).

(** The output positions in the order [filter] goes through them: top band,
    bottom band, left and right bands (both [kr] wide), central part (with a
    margin of [kc] columns). *)
Definition filter_positions (R C kr kc : Z) : list (Z * Z) :=
  band 0 kr 0 C ++ band (R - kr) R 0 C ++ band kr (R - kr) 0 kr
  ++ band kr (R - kr) (C - kr) C ++ band kr (R - kr) kc (C - kc).

(** What [filter] does for one output position: accumulate over the clipped
    window, then evaluate. *)
Definition at_position {S : Type} {sz1 sz2 sz3 : Z} (input : MatrixWrapper sz1)
    (output : MatrixWrapper sz2) (kernel : MatrixWrapper sz3)
    (accm : Z → Z → S → S) (eval : Z → S → S) (s : S) (a : Z * Z) : S :=
  eval (at_ output a.1 a.2)
       (fold_left (λ s pq, accm pq.1 pq.2 s) (window_pairs input kernel a.1 a.2) s).

(** ** Sample grids *)

(** A 2 x 2 and a 1 x 1 grid of one-byte elements in separate storage. *)
Definition grid_2x2 : MatrixWrapper 1 := mkMatrixWrapper 0 2 2 2.

(** A 3 x 4 grid, and a 1 x 2 grid. *)
Definition grid_3x4 : MatrixWrapper 1 := mkMatrixWrapper 100 3 4 4.
Definition grid_1x2 : MatrixWrapper 1 := mkMatrixWrapper 0 1 2 2.

(** A 4 x 8 image, its output, and a kernel of 1 row and 3 columns; an
    8 x 4 image, its output, and a kernel of 3 rows and 1 column. *)
Definition input_4x8 : MatrixWrapper 1 := mkMatrixWrapper 0 4 8 8.
Definition output_4x8 : MatrixWrapper 1 := mkMatrixWrapper 1000 4 8 8.
Definition kernel_1x3 : MatrixWrapper 4 := mkMatrixWrapper 2000 1 3 3.
Definition input_8x4 : MatrixWrapper 1 := mkMatrixWrapper 0 8 4 4.
Definition output_8x4 : MatrixWrapper 1 := mkMatrixWrapper 1000 8 4 4.
Definition kernel_3x1 : MatrixWrapper 4 := mkMatrixWrapper 2000 3 1 1.

(** How often a run of [filter] evaluates the output position [(y, x)]. *)
Definition filter_eval_count (NDEBUG : bool) {sz1 sz2 sz3 : Z}
    (input : MatrixWrapper sz1) (output : MatrixWrapper sz2)
    (kernel : MatrixWrapper sz3) (y x : Z) : run nat :=
  let* w := filter_log NDEBUG input output kernel in
  Returned (eval_count (at_ output y x) w).


(** A 28 x 4 image, its output, and a kernel of 13 rows and 1 column: odd
    sizes, [13 * 2 + 1 < 28] and [1 * 2 + 1 < 4]. *)
Definition input_28x4 : MatrixWrapper 1 := mkMatrixWrapper 0 28 4 4.
Definition output_28x4 : MatrixWrapper 1 := mkMatrixWrapper 1000 28 4 4.
Definition kernel_13x1 : MatrixWrapper 4 := mkMatrixWrapper 2000 13 1 1.

(** The log [w'] holds every finished output position of the log [w]. *)
Definition keeps (w w' : windows) : Prop := ∀ e, e ∈ fst w → e ∈ fst w'.

(** ** Grids over real storage *)

(** A view describes storage that lies inside the address space without
    wrapping round it: the elements are [sz > 0] bytes wide, a row holds at
    most [m_step] elements, and the last element ends below the top of the
    address space. *)
Definition valid {sz : Z} (m : MatrixWrapper sz) : Prop :=
  0 < sz ∧ 0 ≤ m_start m ∧ 0 ≤ m_rows m ∧ 0 ≤ m_cols m ≤ m_step m
  ∧ (0 < m_rows m →
     m_start m + sz * (m_step m * (m_rows m - 1) + m_cols m) < SIZE_MOD).

(** A 3 x 4 grid of four-byte elements with a step of 6, at address 64, and a
    packed 3 x 4 grid of the same element size at address 1024. *)
Definition grid_padded : MatrixWrapper 4 := mkMatrixWrapper 64 3 4 6.
Definition grid_packed : MatrixWrapper 4 := mkMatrixWrapper 1024 3 4 4.

(** A store that holds the twelve elements of [grid_padded], row [y] column
    [x] holding [10*y + x], and has handed out the first 2048 bytes. *)
Definition store_padded : store Z :=
  mkStore (list_to_map
             [(64, 0); (68, 1); (72, 2); (76, 3);
              (88, 10); (92, 11); (96, 12); (100, 13);
              (112, 20); (116, 21); (120, 22); (124, 23)]) 2048.

(** ** ForeachPair.hpp, three and four matrices *)

Section ForeachPairMore.
Context {S : Type}.


End ForeachPairMore.

(** ** The for_each templates over any FOR_EACH_ABLE type *)

(** [for_each] and [for_each_pair] are templates over the matrix type.  What
    they use of it: [rows()], [cols()], [mat[y]] with an [int] argument, and
    on the value [mat[y]] returns: [p += 1], [p + 1] and [p += mat.step()];
    [*p] is what the functor receives, here [p] itself. *)
Class ForEachAble (M : Type) := {
  fe_ptr : Type;
  fe_rows : M -> Z;
  fe_cols : M -> Z;
  fe_row : M -> Z -> fe_ptr;
  fe_next : fe_ptr -> fe_ptr;
  fe_plus_1 : fe_ptr -> fe_ptr;
  fe_next_row : M -> fe_ptr -> fe_ptr
}.

Section ForeachTemplates.
Context {M : Type} `{ForEachAble M} {S : Type}.

(** [template<class Mat1, class Func> void for_each(Mat1 mat, Func func)] *)
Definition for_each_able (mat : M) (func : fe_ptr -> S -> S) (s : S) : S :=
  for_ 0 (fe_rows mat)
       (fun y s =>
          let p := fe_row mat (to_int y) in
          snd (for_ 0 (fe_cols mat)
                    (fun _ '(p, s) => (fe_next p, func p s))
                    (p, s)))
       s.

(** [template<typename Mat1, class Func> void for_each_pair(Mat1 &mat, Func func)] *)
Definition for_each_pair_able (mat : M) (func : fe_ptr -> fe_ptr -> S -> S)
    (s : S) : S :=
  (* first column *)
  let up := fe_row mat 0 in
  let down := fe_row mat 1 in
  let s :=
    snd (for_ 1 (fe_rows mat)
              (fun _ '(up, down, s) =>
                 (fe_next_row mat up, fe_next_row mat down, func up down s))
              (up, down, s)) in
  (* first row *)
  let lf := fe_row mat 0 in
  let rt := fe_plus_1 (fe_row mat 0) in
  let s :=
    snd (for_ 1 (fe_cols mat)
              (fun _ '(lf, rt, s) => (fe_next lf, fe_next rt, func lf rt s))
              (lf, rt, s)) in
  (* the rest *)
  for_ 1 (fe_rows mat)
       (fun y s =>
          let up := fe_plus_1 (fe_row mat (to_int (size_sub y 1))) in
          let lf := fe_row mat (to_int y) in
          let center := fe_plus_1 (fe_row mat (to_int y)) in
          snd (for_ 1 (fe_cols mat)
                    (fun _ '(up, lf, center, s) =>
                       (fe_next up, fe_next lf, fe_next center,
                        func lf center (func up center s)))
                    (up, lf, center, s)))
       s.
End ForeachTemplates.

(** [MatrixWrapper<T>] as a FOR_EACH_ABLE type: the pointers are [T*]. *)
#[export] Instance MatrixWrapper_ForEachAble (sz : Z) : ForEachAble (MatrixWrapper sz) := {|
  fe_ptr := Z;
  fe_rows := m_rows;
  fe_cols := m_cols;
  fe_row := index;
  fe_next := fun p => ptr_add sz p 1;
  fe_plus_1 := fun p => ptr_add sz p 1;
  fe_next_row := fun m p => ptr_add sz p (m_step m)
|}.

(** ** IdxMap.hpp *)

(** [struct Idx { size_t x, y; ... }] *)
Record Idx : Type := mkIdx { idx_x : Z; idx_y : Z }.

(** [void operator+=(size_t _x) { x += _x; }] *)
Definition Idx_add_assign (idx : Idx) (_x : Z) : Idx :=
  mkIdx (size_add (idx_x idx) _x) (idx_y idx).

(** [void operator+=(Step step) { ++y; }] *)
Definition Idx_add_assign_step (idx : Idx) : Idx :=
  mkIdx (idx_x idx) (size_add (idx_y idx) 1).

(** [Idx operator+(size_t _x) { return Idx(x+_x, y); }] *)
Definition Idx_add (idx : Idx) (_x : Z) : Idx :=
  mkIdx (size_add (idx_x idx) _x) (idx_y idx).

(** [class IdxMap { size_t m_rows, m_cols; ... }]; the fields are named
    [idx_rows], [idx_cols] here, next to those of [MatrixWrapper]. *)
Record IdxMap : Type := mkIdxMap { idx_rows : Z; idx_cols : Z }.

(** [IdxMap(const MatrixWrapper<T> mat)] *)
Definition IdxMap_of {sz : Z} (mat : MatrixWrapper sz) : IdxMap :=
  mkIdxMap (m_rows mat) (m_cols mat).

(** [Idx operator[](int y) { return Idx(0, y); }]: the [int] becomes a
    [size_t]. *)
Definition IdxMap_index (m : IdxMap) (y : Z) : Idx := mkIdx 0 (to_size y).

(** [IdxMap] as a FOR_EACH_ABLE type: the pointers are [Idx] values, and
    [step()] is of the type [Idx::Step], which selects the [+=] that moves to
    the next row. *)
#[export] Instance IdxMap_ForEachAble : ForEachAble IdxMap := {|
  fe_ptr := Idx;
  fe_rows := idx_rows;
  fe_cols := idx_cols;
  fe_row := IdxMap_index;
  fe_next := fun p => Idx_add_assign p 1;
  fe_plus_1 := fun p => Idx_add p 1;
  fe_next_row := fun _ p => Idx_add_assign_step p
|}.

(** [T &operator ()(his::Idx idx) { return this[idx.y][idx.x]; }] of
    [MatrixWrapper]: [idx.y] becomes the [int] that [operator[]] takes. *)
Definition at_idx {sz : Z} (m : MatrixWrapper sz) (idx : Idx) : Z :=
  ptr_add sz (index m (to_int (idx_y idx))) (idx_x idx).

(** The index of a position. *)
Definition idx_of (a : Z * Z) : Idx := mkIdx (snd a) (fst a).

(** The indices handed to the functor of [for_each] and of [for_each_pair]
    over an [IdxMap], in call order. *)
Definition for_each_IdxMap_log (m : IdxMap) : list Idx :=
  for_each_able (S := list Idx) m (fun idx l => l ++ [idx]) [].

Definition for_each_pair_IdxMap_log (m : IdxMap) : list (Idx * Idx) :=
  for_each_pair_able (S := list (Idx * Idx)) m
                     (fun idx1 idx2 l => l ++ [(idx1, idx2)]) [].

(** ** SegmentTree.hpp *)

(** [m_tree[i]] of a [std::vector]: there is no defined result outside the
    vector. *)
Definition vec_get {V : Type} (t : list V) (i : Z) : option V :=
  if 0 <=? i then t !! Z.to_nat i else None.

Definition vec_set {V : Type} (t : list V) (i : Z) (v : V) : option (list V) :=
  if (0 <=? i) && (i <? Z.of_nat (length t))
  then Some (<[Z.to_nat i := v]> t) else None.

(** [while (leaves < size) leaves *= 2;] on [int]s.  After 32 doublings an
    [int] that started as 1 has wrapped round to 0, so a loop that has not
    ended within the fuel given by [SegmentTree_build] never ends. *)
Fixpoint grow_leaves (fuel : nat) (leaves size : Z) : option Z :=
  match fuel with
  | O => None
  | Datatypes.S fuel =>
      if leaves <? size then grow_leaves fuel (to_int (leaves * 2)) size
      else Some leaves
  end.

(** [for (int i = n - 1; i >= 0; --i) body], the body possibly without a
    defined result. *)
Fixpoint for_down {S : Type} (n : nat) (body : Z -> S -> option S) (s : S)
  : option S :=
  match n with
  | O => Some s
  | Datatypes.S k => body (Z.of_nat k) s ≫= for_down k body
  end.

Section SegmentTree.
Context {V : Type} `{EqDecision V}.
(** [m_identity], [m_operation], and the value of a value-initialised
    [ValueType], which [resize] fills the vector with. *)
Variable m_identity : V.
Variable m_operation : V -> V -> V.
Variable value_init : V.

Definition get_left_child (id : Z) : Z := size_add (size_mul id 2) 1.
Definition get_right_child (id : Z) : Z := size_add (size_mul id 2) 2.
Definition get_parent (id : Z) : Z := size_sub id 1 / 2.

(** The body of the constructor after its assertion: the vector [m_tree]. *)
Definition SegmentTree_build (values : list V) : option (list V) :=
  (* count the element number *)
  let size := fold_left (fun size _ => to_int (size + 1)) values 0 in
  (* expand to full binary tree *)
  leaves ← grow_leaves 33 1 size;
  let m_tree :=
    replicate (Z.to_nat (to_size (to_int (to_int (leaves * 2) - 1)))) value_init in
  (* put leaves to the end *)
  r ← fold_left (fun acc v =>
                   acc ≫= fun '(pos, m_tree) =>
                     m_tree ← vec_set m_tree pos v;
                     Some (size_add pos 1, m_tree))
                values (Some (to_size (to_int (leaves - 1)), m_tree));
  (* fill with identities *)
  let m_tree :=
    for_ (fst r) (Z.of_nat (length (snd r)))
         (fun pos m_tree => <[Z.to_nat pos := m_identity]> m_tree) (snd r) in
  (* initialize internal nodes *)
  for_down (Z.to_nat (to_int (leaves - 2) + 1))
           (fun i m_tree =>
              l ← vec_get m_tree (get_left_child (to_size i));
              r ← vec_get m_tree (get_right_child (to_size i));
              vec_set m_tree (to_size i) (m_operation l r))
           m_tree.

(** [SegmentTree(begin, end, identity, operation)] *)
Definition SegmentTree_new (NDEBUG : bool) (values : list V)
  : run (option (list V)) :=
  let* _ := assert_ NDEBUG
              (bool_decide (m_operation m_identity m_identity = m_identity)) in
  Returned (SegmentTree_build values).

(** The private [query(start, end, node_start, node_end, node_id)].  The
    depth of the recursion is bounded by [fuel]. *)
Fixpoint query_node (fuel : nat) (m_tree : list V)
    (start end_ node_start node_end node_id : Z) : option V :=
  match fuel with
  | O => None
  | Datatypes.S fuel =>
      (* node range is inside query *)
      if (start <=? node_start) && (node_end <=? end_)
      then vec_get m_tree node_id
      (* node range is outside query *)
      else if (end_ <=? node_start) || (node_end <=? start)
      then Some m_identity
      else
        (* query children with higher resolution *)
        let mid := to_int (size_add node_start node_end / 2) in
        l ← query_node fuel m_tree start end_ node_start (to_size mid)
                       (get_left_child node_id);
        r ← query_node fuel m_tree start end_ (to_size mid) node_end
                       (get_right_child node_id);
        Some (m_operation l r)
  end.

(** [ValueType query(size_t start, size_t end)] *)
Definition query (fuel : nat) (m_tree : list V) (start end_ : Z) : option V :=
  query_node fuel m_tree start end_ 0
             (size_add (Z.of_nat (length m_tree)) 1 / 2) 0.
End SegmentTree.

(** The elements [a <= i < b] of a list. *)
Definition slice {V : Type} (a b : Z) (l : list V) : list V :=
  take (Z.to_nat (b - a)) (drop (Z.to_nat a) l).

(** A complete tree over [Ln] leaves in the array layout: [2 * Ln - 1]
    nodes, the leaves last, every inner node the combination of its two
    children. *)
Definition tree_of {V} (op : V -> V -> V) (Ln : nat) (leaves t : list V) : Prop :=
  length t = (2 * Ln - 1)%nat
  /\ length leaves = Ln
  /\ (forall i, (i < Ln)%nat -> t !! (Ln - 1 + i)%nat = leaves !! i)
  /\ (forall j, (j < Ln - 1)%nat ->
          exists l r, t !! (2 * j + 1)%nat = Some l /\ t !! (2 * j + 2)%nat = Some r
                 /\ t !! j = Some (op l r)).

(** ** BinaryIndexedTree (in UFSet.hpp) *)

(** [Key last_bit(Key key) { return key & (-key); }], for [Key = int]. *)
Definition last_bit (key : Z) : Z := Z.land key (to_int (- key)).

Section BinaryIndexedTree.
(** [Value] with its [0], [+=] and [-]; [Key] is [int]. *)
Context {Value : Type}.
Variable zero : Value.
Variable plus : Value -> Value -> Value.
Variable minus : Value -> Value -> Value.

(** [BinaryIndexedTree(int size) : m_tree(size, 0)] *)
Definition BinaryIndexedTree_new (size : Z) : list Value :=
  replicate (Z.to_nat (to_size size)) zero.

(** The loop of [Add]; [fuel] bounds its rounds. *)
Fixpoint BIT_Add_loop (fuel : nat) (m_tree : list Value) (key : Z) (val : Value)
  : option (list Value) :=
  match fuel with
  | O => None
  | Datatypes.S fuel =>
      if to_size key <? Z.of_nat (length m_tree)
      then v ← vec_get m_tree (to_size key);
           m_tree ← vec_set m_tree (to_size key) (plus v val);
           BIT_Add_loop fuel m_tree (to_int (key + last_bit key)) val
      else Some m_tree
  end.

(** [void Add(Key key, Value val)] *)
Definition BIT_Add (NDEBUG : bool) (fuel : nat) (m_tree : list Value)
    (key : Z) (val : Value) : run (option (list Value)) :=
  let* _ := assert_ NDEBUG (0 <? key) in
  Returned (BIT_Add_loop fuel m_tree key val).

(** The loop of [Accumulate]. *)
Fixpoint BIT_Accumulate_loop (fuel : nat) (m_tree : list Value) (key : Z)
    (acc : Value) : option Value :=
  match fuel with
  | O => None
  | Datatypes.S fuel =>
      if 0 <? key
      then v ← vec_get m_tree (to_size key);
           BIT_Accumulate_loop fuel m_tree (to_int (key - last_bit key))
                               (plus acc v)
      else Some acc
  end.

(** [Value Accumulate(Key key)] *)
Definition BIT_Accumulate (fuel : nat) (m_tree : list Value) (key : Z)
  : option Value :=
  BIT_Accumulate_loop fuel m_tree key zero.

(** [Value Get(Key key)] *)
Definition BIT_Get (NDEBUG : bool) (fuel : nat) (m_tree : list Value) (key : Z)
  : run (option Value) :=
  let* _ := assert_ NDEBUG (0 <? key) in
  Returned (a ← BIT_Accumulate fuel m_tree key;
            b ← BIT_Accumulate fuel m_tree (to_int (key - 1));
            Some (minus a b)).

(** [void Set(Key key, Value val)] *)
Definition BIT_Set (NDEBUG : bool) (fuel : nat) (m_tree : list Value) (key : Z)
    (val : Value) : run (option (list Value)) :=
  let* _ := assert_ NDEBUG (0 <? key) in
  let* old := BIT_Get NDEBUG fuel m_tree key in
  match old with
  | Some old => BIT_Add NDEBUG fuel m_tree key (minus val old)
  | None => Returned None
  end.

(** The sum of the values number [lo + 1, ..., hi]. *)
Definition sum_range (a : Z -> Value) (lo hi : Z) : Value :=
  fold_left (fun acc i => plus acc (a i)) (seqZ (lo + 1) (hi - lo)) zero.

(** The values [a] with [val] added to the value number [key]. *)
Definition added (a : Z -> Value) (key : Z) (val : Value) : Z -> Value :=
  fun i => if decide (i = key) then plus (a i) val else a i.

(** The tree represents the values [a]: node [j] holds the sum of the
    [last_bit j] values that end with number [j]. *)
Definition bit_of (a : Z -> Value) (m_tree : list Value) : Prop :=
  forall j, 1 <= j < Z.of_nat (length m_tree) ->
    m_tree !! Z.to_nat j = Some (sum_range a (j - last_bit j) j).
End BinaryIndexedTree.

(** ** UFSet.hpp *)

(** [UFSet(size_t size) : m_parent(size)] and its loop
    [for (int i = 0; i < size; ++i) m_parent[i] = i;]. *)
Definition UFSet_new (size : Z) : list Z :=
  for_ 0 size
       (fun i m_parent => <[Z.to_nat (to_size (to_int i)) := to_int i]> m_parent)
       (replicate (Z.to_nat size) 0).

(** [int Root(int id)]: the root and the vector after the path was
    shortened.  [fuel] bounds the rounds of the loop. *)
Fixpoint UFSet_Root (fuel : nat) (m_parent : list Z) (id : Z)
  : option (Z * list Z) :=
  match fuel with
  | O => None
  | Datatypes.S fuel =>
      parent ← vec_get m_parent (to_size id);
      if id =? parent then Some (id, m_parent)
      else
        (* id = m_parent[id]; *)
        let id := parent in
        (* int p = m_parent[id]; *)
        p ← vec_get m_parent (to_size id);
        (* m_parent[id] = m_parent[p]; *)
        pp ← vec_get m_parent (to_size p);
        m_parent ← vec_set m_parent (to_size id) pp;
        (* id = p; *)
        UFSet_Root fuel m_parent p
  end.

(** [bool Merge(size_t id1, size_t id2)] *)
Definition UFSet_Merge (fuel : nat) (m_parent : list Z) (id1 id2 : Z)
  : option (bool * list Z) :=
  r1 ← UFSet_Root fuel m_parent (to_int id1);
  r2 ← UFSet_Root fuel (snd r1) (to_int id2);
  let root1 := fst r1 in
  let root2 := fst r2 in
  (* m_parent[id1] = m_parent[root2] = root1; *)
  m_parent ← vec_set (snd r2) (to_size root2) root1;
  m_parent ← vec_set m_parent id1 root1;
  Some (negb (root1 =? root2), m_parent).

(** [int Query(size_t id)] *)
Definition UFSet_Query (m_parent : list Z) (id : Z) : option Z :=
  vec_get m_parent id.

(** The element [r] is the root of the element [i]: following the parents
    from [i] ends in [r], which is its own parent. *)
Inductive root_of (m_parent : list Z) : Z -> Z -> Prop :=
| root_of_self i :
    0 <= i -> m_parent !! Z.to_nat i = Some i -> root_of m_parent i i
| root_of_step i j r :
    0 <= i -> m_parent !! Z.to_nat i = Some j -> j <> i ->
    root_of m_parent j r -> root_of m_parent i r.

(** The parents form a forest: every parent is an element, and a parent
    other than the element itself has a higher rank; ranks are at most
    [B]. *)
Definition ranked (m_parent : list Z) (rank : Z -> Z) (B : Z) : Prop :=
  forall i, 0 <= i < Z.of_nat (length m_parent) ->
    exists j, m_parent !! Z.to_nat i = Some j
              /\ 0 <= j < Z.of_nat (length m_parent)
              /\ 0 <= rank i <= B
              /\ (j = i \/ rank i < rank j).

(** A counting loop whose body may have no defined result. *)
Fixpoint for_opt_loop {S : Type} (n : nat) (i : Z) (body : Z -> S -> option S)
    (s : S) : option S :=
  match n with
  | O => Some s
  | Datatypes.S n => body i s ≫= for_opt_loop n (i + 1) body
  end.

Definition for_opt {S : Type} (lo hi : Z) (body : Z -> S -> option S) (s : S)
  : option S :=
  for_opt_loop (Z.to_nat (hi - lo)) lo body s.

(** [int Reduce()]: the number of sets and the vector, which then holds the
    number of its set for every element.  [root_to_rid] is the
    [unordered_map]; [insert] leaves a key that is present as it is, and
    [operator[]] adds a missing key with the value 0. *)
Definition UFSet_Reduce (fuel : nat) (m_parent : list Z) : option (Z * list Z) :=
  let n := Z.of_nat (length m_parent) in
  r ← for_opt 0 n
        (fun i (st : list Z * gmap Z Z) =>
           let m_parent := fst st in
           let root_to_rid := snd st in
           rt ← UFSet_Root fuel m_parent (to_int i);
           m_parent ← vec_set (snd rt) (to_size (to_int i)) (fst rt);
           Some (m_parent,
                 match root_to_rid !! to_size (fst rt) with
                 | Some _ => root_to_rid
                 | None => <[to_size (fst rt) := Z.of_nat (size root_to_rid)]>
                             root_to_rid
                 end))
        (m_parent, ∅);
  r ← for_opt 0 n
        (fun i (st : list Z * gmap Z Z) =>
           let m_parent := fst st in
           let root_to_rid := snd st in
           key ← vec_get m_parent (to_size (to_int i));
           let root_to_rid :=
             match root_to_rid !! to_size key with
             | Some _ => root_to_rid
             | None => <[to_size key := 0]> root_to_rid
             end in
           rid ← root_to_rid !! to_size key;
           m_parent ← vec_set m_parent (to_size (to_int i)) (to_int rid);
           Some (m_parent, root_to_rid))
        r;
  Some (to_int (Z.of_nat (size (snd r))), fst r).

(** What holds after [k] rounds of the first loop of [Reduce] that started
    from the forest [p]: the vector still describes the same sets, the first
    [k] elements point at their roots, and [root_to_rid] numbers the roots of
    these elements with the numbers below its size, each once. *)
Definition Reduce_first_loop (rank : Z -> Z) (B : Z) (p : list Z) (k : Z)
    (st : list Z * gmap Z Z) : Prop :=
  length (fst st) = length p
  /\ ranked (fst st) rank B
  /\ (forall i ρ, root_of (fst st) i ρ <-> root_of p i ρ)
  /\ (forall i, 0 <= i < k -> exists ρ, fst st !! Z.to_nat i = Some ρ /\ root_of p i ρ)
  /\ (forall ρ, is_Some (snd st !! ρ) <-> exists i, 0 <= i < k /\ root_of p i ρ)
  /\ (forall ρ l, snd st !! ρ = Some l -> 0 <= l < Z.of_nat (size (snd st)))
  /\ (forall ρ ρ' l, snd st !! ρ = Some l -> snd st !! ρ' = Some l -> ρ = ρ')
  /\ (forall l, 0 <= l < Z.of_nat (size (snd st)) -> exists ρ, snd st !! ρ = Some l)
  /\ Z.of_nat (size (snd st)) <= k.

(** ** Grids beyond the range of [int] *)

(** A grid of [2^31 + 1] rows and 2 columns of one-byte elements: the number
    of its last row, [2^31], is one more than the largest [int]. *)
Definition grid_beyond_int : MatrixWrapper 1 :=
  mkMatrixWrapper (2 ^ 40) (2 ^ 31 + 1) 2 2.

(** The two addresses [for_each_pair] hands to the functor for an entry of
    [pair_order].  The loop over the first column steps two pointers on from
    [mat[0]] and [mat[1]]; the other loops start from a row pointer [mat[y]],
    whose argument is an [int]. *)
Definition pair_cells {sz : Z} (mat : MatrixWrapper sz)
    (e : (Z * Z) * (Z * Z)) : Z * Z :=
  if snd (snd e) =? 0
  then (at_ mat (fst (fst e)) (snd (fst e)), at_ mat (fst (snd e)) (snd (snd e)))
  else (cell mat (fst e), cell mat (snd e)).


(** * Properties *)

(** ** Machine arithmetic *)

Lemma SIZE_MOD_pos : 0 < SIZE_MOD.
Proof. reflexivity. Qed.

Lemma to_size_id z : 0 ≤ z < SIZE_MOD → to_size z = z.
Proof. intros H. unfold to_size. by apply Z.mod_small. Qed.

Lemma to_int_id z : - 2 ^ 31 ≤ z < 2 ^ 31 → to_int z = z.
Proof.
  intros H. unfold to_int, INT_MOD.
  rewrite Z.mod_small; lia.
Qed.

Lemma ptr_add_range sz p n : 0 ≤ ptr_add sz p n < SIZE_MOD.
Proof. unfold ptr_add. apply Z.mod_pos_bound, SIZE_MOD_pos. Qed.

Lemma ptr_add_ptr_add sz p a b :
  ptr_add sz (ptr_add sz p a) b = ptr_add sz p (a + b).
Proof.
  unfold ptr_add. rewrite Zplus_mod_idemp_l. f_equal. lia.
Qed.

Lemma ptr_add_0 sz p : 0 ≤ p < SIZE_MOD → ptr_add sz p 0 = p.
Proof.
  intros H. unfold ptr_add. rewrite Z.mul_0_r, Z.add_0_r. by apply Z.mod_small.
Qed.

(** The offset of a pointer only counts modulo [2^64]. *)
Lemma ptr_add_mod sz p n : ptr_add sz p (n mod SIZE_MOD) = ptr_add sz p n.
Proof.
  unfold ptr_add.
  rewrite <- (Zplus_mod_idemp_r (sz * (n mod SIZE_MOD))).
  rewrite Zmult_mod_idemp_r. by rewrite Zplus_mod_idemp_r.
Qed.

Lemma ptr_add_start_mod sz p n : ptr_add sz (p mod SIZE_MOD) n = ptr_add sz p n.
Proof. unfold ptr_add. by rewrite Zplus_mod_idemp_l. Qed.

Lemma index_range {sz} (m : MatrixWrapper sz) y : 0 ≤ index m y < SIZE_MOD.
Proof. apply ptr_add_range. Qed.

(** Row [y] starts [m_step * y] elements after the origin. *)
Lemma index_eq {sz} (m : MatrixWrapper sz) y :
  index m y = ptr_add sz (m_start m) (m_step m * y).
Proof.
  unfold index, size_mul, to_size. rewrite ptr_add_mod.
  unfold ptr_add.
  rewrite <- (Zplus_mod_idemp_r (sz * (m_step m * (y mod SIZE_MOD)))).
  rewrite (Z.mul_assoc sz (m_step m)), Zmult_mod_idemp_r, <- Z.mul_assoc.
  by rewrite Zplus_mod_idemp_r.
Qed.

Lemma at_eq {sz} (m : MatrixWrapper sz) y x :
  at_ m y x = ptr_add sz (m_start m) (m_step m * y + x).
Proof. unfold at_. by rewrite index_eq, ptr_add_ptr_add. Qed.

Lemma cell_at {sz} (m : MatrixWrapper sz) y x :
  - 2 ^ 31 ≤ y < 2 ^ 31 → cell m (y, x) = at_ m y x.
Proof. intros H. unfold cell, at_. simpl. by rewrite to_int_id. Qed.

(** ** Loops as folds *)

Lemma for_loop_fold {S} (body : Z → S → S) n : ∀ i s,
  for_loop n i body s = fold_left (λ s i, body i s) (seqZ i (Z.of_nat n)) s.
Proof.
  induction n as [|n IH]; intros i s; [done|].
  rewrite seqZ_cons by lia. simpl for_loop. rewrite IH. simpl fold_left.
  do 3 f_equal; lia.
Qed.

Lemma for_fold {S} (body : Z → S → S) lo hi s :
  for_ lo hi body s = fold_left (λ s i, body i s) (seqZ lo (hi - lo)) s.
Proof.
  unfold for_. rewrite for_loop_fold.
  destruct (Z_le_gt_dec 0 (hi - lo)).
  - by rewrite Z2Nat.id.
  - rewrite Z2Nat.nonpos, (seqZ_nil lo (hi - lo)) by lia. done.
Qed.

Lemma for_loop_ext {S} (f g : Z → S → S) n :
  (∀ i s, f i s = g i s) → ∀ i s, for_loop n i f s = for_loop n i g s.
Proof.
  intros E. induction n as [|n IH]; intros i s; [done|].
  simpl. by rewrite E, IH.
Qed.

Lemma for_ext {S} (f g : Z → S → S) lo hi s :
  (∀ i s, f i s = g i s) → for_ lo hi f s = for_ lo hi g s.
Proof. intros E. unfold for_. by apply for_loop_ext. Qed.

(** A loop whose state is a tuple of pointers [P] and the functor's state:
    every round acts on the pointers of the moment and moves them on.  With
    [pos j] the pointers after [j] moves, the loop is a fold over the
    offsets. *)
Lemma for_loop_walk {P S} (step : P → P) (pos : Z → P) (act : P → S → S) n :
  (∀ j, step (pos j) = pos (j + 1)) →
  ∀ i k s,
    for_loop n i (λ _ ps, (step (fst ps), act (fst ps) (snd ps))) (pos k, s)
    = (pos (k + Z.of_nat n),
       fold_left (λ s x, act (pos x) s) (seqZ k (Z.of_nat n)) s).
Proof.
  intros Hstep. induction n as [|n IH]; intros i k s.
  - simpl. by rewrite Z.add_0_r.
  - rewrite seqZ_cons by lia. simpl for_loop. simpl fst. simpl snd.
    rewrite Hstep, IH. simpl fold_left.
    f_equal; [f_equal; lia|]. do 2 f_equal. lia.
Qed.

Lemma for_walk {P S} (step : P → P) (pos : Z → P) (act : P → S → S) k lo hi p s :
  pos k = p →
  (∀ j, step (pos j) = pos (j + 1)) →
  snd (for_ lo hi (λ _ ps, (step (fst ps), act (fst ps) (snd ps))) (p, s))
  = fold_left (λ s x, act (pos x) s) (seqZ k (hi - lo)) s.
Proof.
  intros <- Hstep. unfold for_. rewrite (for_loop_walk step pos act) by done.
  simpl. destruct (Z_le_gt_dec 0 (hi - lo)).
  - by rewrite Z2Nat.id.
  - rewrite Z2Nat.nonpos, (seqZ_nil k (hi - lo)) by lia. done.
Qed.

(** The pointers a loop starts from are the pointers after no move. *)
Ltac walk_init :=
  simpl; rewrite ?ptr_add_0 by first [apply index_range | apply ptr_add_range];
  reflexivity.

Lemma fold_left_fmap {A B S} (h : A → B) (g : S → B → S) l s :
  fold_left g (h <$> l) s = fold_left (λ s x, g s (h x)) l s.
Proof. revert s. induction l as [|x l IH]; intros s; [done|]. simpl. apply IH. Qed.

Lemma fold_left_bind {A B S} (f : A → list B) (g : S → B → S) l s :
  fold_left g (l ≫= f) s = fold_left (λ s y, fold_left g (f y) s) l s.
Proof.
  revert s. induction l as [|x l IH]; intros s; [done|].
  rewrite bind_cons, fold_left_app. simpl. apply IH.
Qed.

Lemma fold_left_ext_in {A S} (f g : S → A → S) l s :
  (∀ s x, x ∈ l → f s x = g s x) → fold_left f l s = fold_left g l s.
Proof.
  revert s. induction l as [|x l IH]; intros s E; [done|].
  simpl. rewrite E by left. apply IH. intros. apply E. by right.
Qed.

Lemma seqZ_shift k n : seqZ k n = (λ x, x + k) <$> seqZ 0 n.
Proof.
  unfold seqZ. rewrite <- list_fmap_compose. apply list_fmap_ext.
  intros _ x _. simpl. lia.
Qed.

(** ** Row-major positions *)

Lemma elem_of_row_major R C y x :
  (y, x) ∈ row_major R C ↔ 0 ≤ y < R ∧ 0 ≤ x < C.
Proof.
  unfold row_major. rewrite list_elem_of_bind. split.
  - intros (y' & Hx & Hy). apply list_elem_of_fmap in Hx as (x' & E & Hx).
    inversion E; subst. apply elem_of_seqZ in Hx, Hy. lia.
  - intros [Hy Hx]. exists y. split.
    + apply list_elem_of_fmap. exists x. split; [done|]. apply elem_of_seqZ. lia.
    + apply elem_of_seqZ. lia.
Qed.

Lemma NoDup_row_major R C : NoDup (row_major R C).
Proof.
  unfold row_major. apply NoDup_bind.
  - intros y1 y2 [y x] _ _ H1 H2.
    apply list_elem_of_fmap in H1 as (? & E1 & _).
    apply list_elem_of_fmap in H2 as (? & E2 & _). congruence.
  - intros y _. apply NoDup_fmap_2; [|apply NoDup_seqZ].
    intros x1 x2 E. congruence.
  - apply NoDup_seqZ.
Qed.

Lemma row_major_snoc n C :
  row_major (Z.of_nat (S n)) C
  = row_major (Z.of_nat n) C ++ ((λ x, (Z.of_nat n, x)) <$> seqZ 0 C).
Proof.
  unfold row_major. rewrite seqZ_S, bind_app, bind_singleton. done.
Qed.

Lemma length_row_major R C :
  length (row_major R C) = (Z.to_nat R * Z.to_nat C)%nat.
Proof.
  destruct (Z_le_gt_dec 0 R) as [HR|HR].
  - rewrite <- (Z2Nat.id R) at 1 by done.
    induction (Z.to_nat R) as [|n IH]; [done|].
    rewrite row_major_snoc, length_app, IH, length_fmap, length_seqZ. lia.
  - unfold row_major. rewrite (seqZ_nil 0 R) by lia.
    rewrite Z2Nat.nonpos by lia. done.
Qed.

Lemma lookup_row_major R C y x :
  0 ≤ y < R → 0 ≤ x < C → row_major R C !! Z.to_nat (y * C + x) = Some (y, x).
Proof.
  intros Hy Hx. rewrite <- (Z2Nat.id R) by lia.
  assert (Hlt : (Z.to_nat y < Z.to_nat R)%nat) by lia.
  induction (Z.to_nat R) as [|n IH]; [lia|].
  rewrite row_major_snoc.
  destruct (decide (Z.to_nat y < n)%nat) as [Hn|Hn].
  - rewrite lookup_app_l; [by apply IH|].
    rewrite length_row_major. nia.
  - assert (y = Z.of_nat n) as -> by lia.
    rewrite lookup_app_r; rewrite length_row_major; [|nia].
    rewrite list_lookup_fmap.
    replace (Z.to_nat (Z.of_nat n * C + x) - Z.to_nat (Z.of_nat n) * Z.to_nat C)%nat
      with (Z.to_nat x) by nia.
    rewrite lookup_seqZ_lt by lia. simpl. do 2 f_equal. lia.
Qed.

(** ** for_each *)

Section ForeachFacts.
Context {S : Type}.

Lemma for_each_fold {sz} (mat : MatrixWrapper sz) (func : Z → S → S) s :
  for_each mat func s
  = fold_left (λ s a, func (cell mat a) s)
              (row_major (m_rows mat) (m_cols mat)) s.
Proof.
  unfold for_each, row_major. rewrite for_fold, fold_left_bind, Z.sub_0_r.
  apply fold_left_ext_in. intros s' y _.
  rewrite (for_ext _ (λ _ ps, (ptr_add sz (fst ps) 1, func (fst ps) (snd ps))))
    by (by intros ? [? ?]).
  rewrite (for_walk (λ q, ptr_add sz q 1)
                    (λ j, ptr_add sz (index mat (to_int y)) j)
                    (λ q s, func q s) 0);
    [ | walk_init | intros j; apply ptr_add_ptr_add ].
  by rewrite fold_left_fmap, Z.sub_0_r.
Qed.

Lemma for_each_2_fold ndebug {sz1 sz2} (mat1 : MatrixWrapper sz1)
    (mat2 : MatrixWrapper sz2) (func : Z → Z → S → S) s :
  ndebug = true ∨ (m_rows mat2 = m_rows mat1 ∧ m_cols mat2 = m_cols mat1) →
  for_each_2 ndebug mat1 mat2 func s
  = Returned (fold_left (λ s a, func (cell mat1 a) (cell mat2 a) s)
                        (row_major (m_rows mat1) (m_cols mat1)) s).
Proof.
  intros H. unfold for_each_2, assert_.
  replace (ndebug || _) with true; cycle 1.
  { destruct H as [->|[-> ->]]; [done|].
    by rewrite !Z.eqb_refl, orb_true_r. }
  simpl. f_equal.
  unfold row_major. rewrite for_fold, fold_left_bind, Z.sub_0_r.
  apply fold_left_ext_in. intros s' y _.
  rewrite (for_ext _ (λ _ ps, ((ptr_add sz1 (fst ps).1 1, ptr_add sz2 (fst ps).2 1),
                               func (fst ps).1 (fst ps).2 (snd ps))))
    by (by intros ? [[? ?] ?]).
  rewrite (for_walk (λ q, (ptr_add sz1 q.1 1, ptr_add sz2 q.2 1))
                    (λ j, (ptr_add sz1 (index mat1 (to_int y)) j,
                           ptr_add sz2 (index mat2 (to_int y)) j))
                    (λ q s, func q.1 q.2 s) 0);
    [ | walk_init | intros j; simpl; by rewrite !ptr_add_ptr_add ].
  by rewrite fold_left_fmap, Z.sub_0_r.
Qed.

Lemma for_each_3_fold ndebug {sz1 sz2 sz3} (mat1 : MatrixWrapper sz1)
    (mat2 : MatrixWrapper sz2) (mat3 : MatrixWrapper sz3)
    (func : Z → Z → Z → S → S) s :
  ndebug = true
  ∨ (m_rows mat2 = m_rows mat1 ∧ m_cols mat2 = m_cols mat1
     ∧ m_rows mat3 = m_rows mat1 ∧ m_cols mat3 = m_cols mat1) →
  for_each_3 ndebug mat1 mat2 mat3 func s
  = Returned (fold_left (λ s a, func (cell mat1 a) (cell mat2 a) (cell mat3 a) s)
                        (row_major (m_rows mat1) (m_cols mat1)) s).
Proof.
  intros H. unfold for_each_3, assert_.
  replace (ndebug || _) with true; cycle 1.
  { destruct H as [->|(-> & -> & _)]; [done|].
    by rewrite !Z.eqb_refl, orb_true_r. }
  simpl bind.
  replace (ndebug || _) with true; cycle 1.
  { destruct H as [->|(_ & _ & -> & ->)]; [done|].
    by rewrite !Z.eqb_refl, orb_true_r. }
  simpl. f_equal.
  unfold row_major. rewrite for_fold, fold_left_bind, Z.sub_0_r.
  apply fold_left_ext_in. intros s' y _.
  rewrite (for_ext _ (λ _ ps, ((ptr_add sz1 (fst ps).1.1 1,
                                ptr_add sz2 (fst ps).1.2 1,
                                ptr_add sz3 (fst ps).2 1),
                               func (fst ps).1.1 (fst ps).1.2 (fst ps).2 (snd ps))))
    by (by intros ? [[[? ?] ?] ?]).
  rewrite (for_walk (λ q, (ptr_add sz1 q.1.1 1, ptr_add sz2 q.1.2 1,
                           ptr_add sz3 q.2 1))
                    (λ j, (ptr_add sz1 (index mat1 (to_int y)) j,
                           ptr_add sz2 (index mat2 (to_int y)) j,
                           ptr_add sz3 (index mat3 (to_int y)) j))
                    (λ q s, func q.1.1 q.1.2 q.2 s) 0);
    [ | walk_init | intros j; simpl; by rewrite !ptr_add_ptr_add ].
  by rewrite fold_left_fmap, Z.sub_0_r.
Qed.

Lemma for_each_4_fold ndebug {sz1 sz2 sz3 sz4} (mat1 : MatrixWrapper sz1)
    (mat2 : MatrixWrapper sz2) (mat3 : MatrixWrapper sz3)
    (mat4 : MatrixWrapper sz4) (func : Z → Z → Z → Z → S → S) s :
  ndebug = true
  ∨ (m_rows mat2 = m_rows mat1 ∧ m_cols mat2 = m_cols mat1
     ∧ m_rows mat3 = m_rows mat1 ∧ m_cols mat3 = m_cols mat1
     ∧ m_rows mat4 = m_rows mat1 ∧ m_cols mat4 = m_cols mat1) →
  for_each_4 ndebug mat1 mat2 mat3 mat4 func s
  = Returned (fold_left (λ s a, func (cell mat1 a) (cell mat2 a) (cell mat3 a)
                                     (cell mat4 a) s)
                        (row_major (m_rows mat1) (m_cols mat1)) s).
Proof.
  intros H. unfold for_each_4, assert_.
  replace (ndebug || _) with true; cycle 1.
  { destruct H as [->|(-> & -> & _)]; [done|].
    by rewrite !Z.eqb_refl, orb_true_r. }
  simpl bind.
  replace (ndebug || _) with true; cycle 1.
  { destruct H as [->|(_ & _ & -> & -> & _)]; [done|].
    by rewrite !Z.eqb_refl, orb_true_r. }
  simpl bind.
  replace (ndebug || _) with true; cycle 1.
  { destruct H as [->|(_ & _ & _ & _ & -> & ->)]; [done|].
    by rewrite !Z.eqb_refl, orb_true_r. }
  simpl. f_equal.
  unfold row_major. rewrite for_fold, fold_left_bind, Z.sub_0_r.
  apply fold_left_ext_in. intros s' y _.
  rewrite (for_ext _ (λ _ ps, ((ptr_add sz1 (fst ps).1.1.1 1,
                                ptr_add sz2 (fst ps).1.1.2 1,
                                ptr_add sz3 (fst ps).1.2 1,
                                ptr_add sz4 (fst ps).2 1),
                               func (fst ps).1.1.1 (fst ps).1.1.2 (fst ps).1.2
                                    (fst ps).2 (snd ps))))
    by (by intros ? [[[[? ?] ?] ?] ?]).
  rewrite (for_walk (λ q, (ptr_add sz1 q.1.1.1 1, ptr_add sz2 q.1.1.2 1,
                           ptr_add sz3 q.1.2 1, ptr_add sz4 q.2 1))
                    (λ j, (ptr_add sz1 (index mat1 (to_int y)) j,
                           ptr_add sz2 (index mat2 (to_int y)) j,
                           ptr_add sz3 (index mat3 (to_int y)) j,
                           ptr_add sz4 (index mat4 (to_int y)) j))
                    (λ q s, func q.1.1.1 q.1.1.2 q.1.2 q.2 s) 0);
    [ | walk_init | intros j; simpl; by rewrite !ptr_add_ptr_add ].
  by rewrite fold_left_fmap, Z.sub_0_r.
Qed.
End ForeachFacts.

Lemma fold_left_snoc_log {A B} (h : A → B) (l : list A) (acc : list B) :
  fold_left (λ acc a, acc ++ [h a]) l acc = acc ++ (h <$> l).
Proof.
  revert acc. induction l as [|a l IH]; intros acc; simpl.
  - by rewrite app_nil_r.
  - rewrite IH, <- app_assoc. done.
Qed.

Lemma for_each_log_eq {sz} (mat : MatrixWrapper sz) :
  for_each_log mat = cell mat <$> row_major (m_rows mat) (m_cols mat).
Proof. unfold for_each_log. rewrite for_each_fold. apply (fold_left_snoc_log _ _ []). Qed.

(** Within the range of [int], the row pointer [mat[y]] is the row [y]. *)
Lemma row_major_cell_at {sz} (mat : MatrixWrapper sz) R C a :
  R ≤ 2 ^ 31 → a ∈ row_major R C → cell mat a = at_ mat a.1 a.2.
Proof.
  intros HR Ha. destruct a as [y x]. apply elem_of_row_major in Ha.
  apply cell_at. cbn [fst]. lia.
Qed.

(** C5.  [for_each] over one grid, or over two to four grids of one shape,
    whose number of rows [R] is within the range of the [int] that
    [operator[]] takes ([R <= 2^31]), calls the functor once for every
    position of the grid, in row-major order ([y = 0..R-1] outer,
    [x = 0..C-1] inner), handing it the element of every grid at that
    position, in the order of the grid arguments: whatever the functor, the
    run is the fold of the functor over the row-major list of positions.
    That list has [R * C] entries, holds no position twice and holds exactly
    the positions of the grid, position [(y, x)] as entry number
    [y * C + x]. *)
Theorem for_each_row_major_once
    (ndebug : bool) {sz1 sz2 sz3 sz4 : Z}
    (mat1 : MatrixWrapper sz1) (mat2 : MatrixWrapper sz2)
    (mat3 : MatrixWrapper sz3) (mat4 : MatrixWrapper sz4) :
  0 ≤ m_rows mat1 → m_rows mat1 ≤ 2 ^ 31 → 0 ≤ m_cols mat1 →
  m_rows mat2 = m_rows mat1 → m_cols mat2 = m_cols mat1 →
  m_rows mat3 = m_rows mat1 → m_cols mat3 = m_cols mat1 →
  m_rows mat4 = m_rows mat1 → m_cols mat4 = m_cols mat1 →
  let R := m_rows mat1 in
  let C := m_cols mat1 in
  (∀ (S : Type) (func : Z → S → S) (s : S),
     for_each mat1 func s
     = fold_left (λ s a, func (at_ mat1 a.1 a.2) s) (row_major R C) s)
  ∧ (∀ (S : Type) (func : Z → Z → S → S) (s : S),
       for_each_2 ndebug mat1 mat2 func s
       = Returned (fold_left (λ s a, func (at_ mat1 a.1 a.2) (at_ mat2 a.1 a.2) s)
                             (row_major R C) s))
  ∧ (∀ (S : Type) (func : Z → Z → Z → S → S) (s : S),
       for_each_3 ndebug mat1 mat2 mat3 func s
       = Returned (fold_left (λ s a, func (at_ mat1 a.1 a.2) (at_ mat2 a.1 a.2)
                                          (at_ mat3 a.1 a.2) s)
                             (row_major R C) s))
  ∧ (∀ (S : Type) (func : Z → Z → Z → Z → S → S) (s : S),
       for_each_4 ndebug mat1 mat2 mat3 mat4 func s
       = Returned (fold_left (λ s a, func (at_ mat1 a.1 a.2) (at_ mat2 a.1 a.2)
                                          (at_ mat3 a.1 a.2) (at_ mat4 a.1 a.2) s)
                             (row_major R C) s))
  ∧ for_each_log mat1 = (λ a, at_ mat1 a.1 a.2) <$> row_major R C
  ∧ Z.of_nat (length (for_each_log mat1)) = R * C
  ∧ Z.of_nat (length (row_major R C)) = R * C
  ∧ NoDup (row_major R C)
  ∧ (∀ y x, (y, x) ∈ row_major R C ↔ 0 ≤ y < R ∧ 0 ≤ x < C)
  ∧ (∀ y x, 0 ≤ y < R → 0 ≤ x < C →
            row_major R C !! Z.to_nat (y * C + x) = Some (y, x)).
Proof.
  intros HR Hint HC R2 C2 R3 C3 R4 C4 R C.
  assert (Hcell : ∀ {sz} (m : MatrixWrapper sz) a,
            a ∈ row_major R C → cell m a = at_ m a.1 a.2).
  { intros sz m a. by apply row_major_cell_at. }
  assert (H1 : ∀ (S : Type) (func : Z → S → S) (s : S),
     for_each mat1 func s
     = fold_left (λ s a, func (at_ mat1 a.1 a.2) s) (row_major R C) s).
  { intros. rewrite for_each_fold. apply fold_left_ext_in.
    intros s' a Ha. by rewrite Hcell. }
  split_and!.
  - exact H1.
  - intros. rewrite (for_each_2_fold ndebug) by (by right). f_equal.
    apply fold_left_ext_in. intros s' a Ha. by rewrite !Hcell.
  - intros. rewrite (for_each_3_fold ndebug) by (by right). f_equal.
    apply fold_left_ext_in. intros s' a Ha. by rewrite !Hcell.
  - intros. rewrite (for_each_4_fold ndebug) by (by right). f_equal.
    apply fold_left_ext_in. intros s' a Ha. by rewrite !Hcell.
  - unfold for_each_log. rewrite H1.
    apply (fold_left_snoc_log (λ a, at_ mat1 a.1 a.2) _ []).
  - rewrite for_each_log_eq, length_fmap, length_row_major. subst R C. nia.
  - rewrite length_row_major. subst R C. nia.
  - apply NoDup_row_major.
  - apply elem_of_row_major.
  - apply lookup_row_major.
Qed.

Lemma for_each_row_major_once_witness :
  let m : MatrixWrapper 1 := mkMatrixWrapper 100 3 4 4 in
  for_each_log m
  = [100; 101; 102; 103; 104; 105; 106; 107; 108; 109; 110; 111]
  ∧ Z.of_nat (length (for_each_log m)) = 12.
Proof.
  intros m.
  pose proof (for_each_row_major_once false m m m m) as H.
  destruct H as (_ & _ & _ & _ & Hlog & Hlen & _); try (vm_compute; congruence);
    try reflexivity.
  split; [rewrite Hlog; reflexivity | exact Hlen].
Defined.


(** ** for_each_pair *)

Lemma elem_of_first_column_pairs R a b :
  (a, b) ∈ first_column_pairs R
  ↔ ∃ y, 1 ≤ y < R ∧ a = (y - 1, 0) ∧ b = (y, 0).
Proof.
  unfold first_column_pairs. rewrite list_elem_of_fmap. split.
  - intros (y & E & Hy). apply elem_of_seqZ in Hy. inversion E; subst.
    exists y. split_and!; [lia|lia|done|done].
  - intros (y & Hy & -> & ->). exists y. split; [done|]. apply elem_of_seqZ. lia.
Qed.

Lemma elem_of_first_row_pairs C a b :
  (a, b) ∈ first_row_pairs C
  ↔ ∃ x, 1 ≤ x < C ∧ a = (0, x - 1) ∧ b = (0, x).
Proof.
  unfold first_row_pairs. rewrite list_elem_of_fmap. split.
  - intros (x & E & Hx). apply elem_of_seqZ in Hx. inversion E; subst.
    exists x. split_and!; [lia|lia|done|done].
  - intros (x & Hx & -> & ->). exists x. split; [done|]. apply elem_of_seqZ. lia.
Qed.

Lemma elem_of_rest_pairs R C a b :
  (a, b) ∈ rest_pairs R C
  ↔ ∃ y x, 1 ≤ y < R ∧ 1 ≤ x < C ∧ b = (y, x)
            ∧ (a = (y - 1, x) ∨ a = (y, x - 1)).
Proof.
  unfold rest_pairs. rewrite list_elem_of_bind. split.
  - intros (y & H & Hy). apply list_elem_of_bind in H as (x & H & Hx).
    apply elem_of_seqZ in Hx, Hy. exists y, x.
    apply elem_of_cons in H as [E|H].
    + inversion E. split_and!; try lia; auto.
    + apply list_elem_of_singleton in H. inversion H. split_and!; try lia; auto.
  - intros (y & x & Hy & Hx & -> & Ha). exists y. split; [|apply elem_of_seqZ; lia].
    apply list_elem_of_bind. exists x. split; [|apply elem_of_seqZ; lia].
    destruct Ha as [-> | ->]; [left|right; left].
Qed.

Lemma elem_of_pair_order R C a b :
  1 ≤ R → 1 ≤ C →
  (a, b) ∈ pair_order R C ↔ in_grid R C a ∧ in_grid R C b ∧ adjacent a b.
Proof.
  intros HR HC. unfold pair_order, in_grid, adjacent.
  rewrite !elem_of_app, elem_of_first_column_pairs, elem_of_first_row_pairs,
    elem_of_rest_pairs.
  destruct a as [ay ax], b as [by_ bx]. simpl. split.
  - intros [(y & Hy & E1 & E2) | [(x & Hx & E1 & E2) | (y & x & Hy & Hx & E2 & E1)]].
    + inversion E1; inversion E2; subst. lia.
    + inversion E1; inversion E2; subst. lia.
    + inversion E2; subst. destruct E1 as [E1|E1]; inversion E1; subst; lia.
  - intros (Ha & Hb & [[Ey Ex] | [Ey Ex]]); subst.
    + destruct (decide (ax = 0)) as [->|Hne].
      * left. exists (ay + 1). split_and!; [lia|lia| |done].
        f_equal. lia.
      * right; right. exists (ay + 1), ax. split_and!; try lia; [done|].
        left. f_equal. lia.
    + destruct (decide (ay = 0)) as [->|Hne].
      * right; left. exists (ax + 1). split_and!; [lia|lia| |done].
        f_equal. lia.
      * right; right. exists ay, (ax + 1). split_and!; try lia; [done|].
        right. f_equal. lia.
Qed.

Lemma NoDup_pair_order R C : NoDup (pair_order R C).
Proof.
  unfold pair_order. apply NoDup_app. split_and!.
  - unfold first_column_pairs. apply NoDup_fmap_2; [|apply NoDup_seqZ].
    intros y1 y2 E. congruence.
  - intros [a b] H1 H2.
    apply elem_of_first_column_pairs in H1 as (y & Hy & -> & ->).
    apply elem_of_app in H2 as [H2|H2].
    + apply elem_of_first_row_pairs in H2 as (x & Hx & E1 & E2).
      inversion E2. lia.
    + apply elem_of_rest_pairs in H2 as (y' & x & Hy' & Hx & E & _).
      inversion E. lia.
  - apply NoDup_app. split_and!.
    + unfold first_row_pairs. apply NoDup_fmap_2; [|apply NoDup_seqZ].
      intros x1 x2 E. congruence.
    + intros [a b] H1 H2.
      apply elem_of_first_row_pairs in H1 as (x & Hx & -> & ->).
      apply elem_of_rest_pairs in H2 as (y' & x' & Hy' & Hx' & E & _).
      inversion E. lia.
    + unfold rest_pairs. apply NoDup_bind; [| |apply NoDup_seqZ].
      * intros y1 y2 [a b] _ _ H1 H2.
        apply list_elem_of_bind in H1 as (x1 & H1 & _).
        apply list_elem_of_bind in H2 as (x2 & H2 & _).
        apply elem_of_cons in H1 as [E1|H1];
          [|apply list_elem_of_singleton in H1 as E1];
          (apply elem_of_cons in H2 as [E2|H2];
           [|apply list_elem_of_singleton in H2 as E2]);
          congruence.
      * intros y _. apply NoDup_bind; [| |apply NoDup_seqZ].
        -- intros x1 x2 [a b] _ _ H1 H2.
           apply elem_of_cons in H1 as [E1|H1];
             [|apply list_elem_of_singleton in H1 as E1];
             (apply elem_of_cons in H2 as [E2|H2];
              [|apply list_elem_of_singleton in H2 as E2]);
             congruence.
        -- intros x _. apply NoDup_cons. split; [|apply NoDup_singleton].
           intros H. apply list_elem_of_singleton in H. inversion H. lia.
Qed.

Lemma length_bind_const {A B} (f : A → list B) (l : list A) n :
  (∀ x, length (f x) = n) → length (l ≫= f) = (length l * n)%nat.
Proof.
  intros H. induction l as [|x l IH]; [done|].
  rewrite bind_cons, length_app, H, IH. simpl. lia.
Qed.

Lemma length_pair_order R C :
  1 ≤ R → 1 ≤ C →
  Z.of_nat (length (pair_order R C)) = R * (C - 1) + C * (R - 1).
Proof.
  intros HR HC. unfold pair_order, first_column_pairs, first_row_pairs, rest_pairs.
  rewrite !length_app, !length_fmap.
  rewrite (length_bind_const _ _ (Z.to_nat (C - 1) * 2)%nat).
  - rewrite !length_seqZ. nia.
  - intros y. rewrite (length_bind_const _ _ 2%nat); [|done].
    by rewrite length_seqZ.
Qed.


Lemma cell_eq {sz} (m : MatrixWrapper sz) y x :
  - 2 ^ 31 ≤ y < 2 ^ 31 →
  cell m (y, x) = ptr_add sz (m_start m) (m_step m * y + x).
Proof. intros H. by rewrite cell_at, at_eq. Qed.

Lemma size_sub_id a b : 0 ≤ a - b < SIZE_MOD → size_sub a b = a - b.
Proof. intros H. unfold size_sub. by apply Z.mod_small. Qed.

Section ForeachPairFacts.
Context {S : Type} {sz : Z}.
Variable mat : MatrixWrapper sz.
Variable func : Z → Z → S → S.
Hypothesis rows_int : m_rows mat ≤ 2 ^ 31.

Let visit (s : S) (e : (Z * Z) * (Z * Z)) : S :=
  func (cell mat e.1) (cell mat e.2) s.

Lemma first_column_walk s :
  snd (for_ 1 (m_rows mat)
            (λ _ '(up, down, s),
               (ptr_add sz up (m_step mat), ptr_add sz down (m_step mat),
                func up down s))
            (index mat 0, index mat 1, s))
  = fold_left visit (first_column_pairs (m_rows mat)) s.
Proof.
  rewrite (for_ext _ (λ _ ps, ((ptr_add sz (fst ps).1 (m_step mat),
                                ptr_add sz (fst ps).2 (m_step mat)),
                               func (fst ps).1 (fst ps).2 (snd ps))))
    by (by intros ? [[? ?] ?]).
  rewrite !index_eq.
  rewrite (for_walk (λ q, (ptr_add sz q.1 (m_step mat), ptr_add sz q.2 (m_step mat)))
                    (λ j, (ptr_add sz (m_start mat) (m_step mat * j),
                           ptr_add sz (m_start mat) (m_step mat * (j + 1))))
                    (λ q s, func q.1 q.2 s) 0);
    [ | walk_init | intros j; simpl; rewrite !ptr_add_ptr_add; do 2 f_equal; lia ].
  unfold first_column_pairs. rewrite fold_left_fmap, (seqZ_shift 1), fold_left_fmap.
  apply fold_left_ext_in. intros s' x Hx. apply elem_of_seqZ in Hx.
  unfold visit. simpl. rewrite !cell_eq by lia. do 2 f_equal; lia.
Qed.

Lemma first_row_walk s :
  snd (for_ 1 (m_cols mat)
            (λ _ '(lf, rt, s),
               (ptr_add sz lf 1, ptr_add sz rt 1, func lf rt s))
            (index mat 0, ptr_add sz (index mat 0) 1, s))
  = fold_left visit (first_row_pairs (m_cols mat)) s.
Proof.
  rewrite (for_ext _ (λ _ ps, ((ptr_add sz (fst ps).1 1, ptr_add sz (fst ps).2 1),
                               func (fst ps).1 (fst ps).2 (snd ps))))
    by (by intros ? [[? ?] ?]).
  rewrite (for_walk (λ q, (ptr_add sz q.1 1, ptr_add sz q.2 1))
                    (λ j, (ptr_add sz (index mat 0) j,
                           ptr_add sz (index mat 0) (j + 1)))
                    (λ q s, func q.1 q.2 s) 0);
    [ | walk_init | intros j; simpl; by rewrite !ptr_add_ptr_add ].
  unfold first_row_pairs. rewrite fold_left_fmap, (seqZ_shift 1), fold_left_fmap.
  apply fold_left_ext_in. intros s' x Hx.
  unfold visit, cell. simpl. do 2 f_equal. lia.
Qed.

Lemma rest_walk y s :
  1 ≤ y < m_rows mat →
  snd (for_ 1 (m_cols mat)
            (λ _ '(up, lf, center, s),
               (ptr_add sz up 1, ptr_add sz lf 1, ptr_add sz center 1,
                func lf center (func up center s)))
            (ptr_add sz (index mat (to_int (size_sub y 1))) 1,
             index mat (to_int y),
             ptr_add sz (index mat (to_int y)) 1, s))
  = fold_left visit
              (seqZ 1 (m_cols mat - 1) ≫=
                 (λ x, [((y - 1, x), (y, x)); ((y, x - 1), (y, x))])) s.
Proof.
  intros Hy.
  rewrite (for_ext _ (λ _ ps, ((ptr_add sz (fst ps).1.1 1,
                                ptr_add sz (fst ps).1.2 1,
                                ptr_add sz (fst ps).2 1),
                               func (fst ps).1.2 (fst ps).2
                                    (func (fst ps).1.1 (fst ps).2 (snd ps)))))
    by (by intros ? [[[? ?] ?] ?]).
  rewrite size_sub_id by (unfold SIZE_MOD; lia).
  rewrite (for_walk (λ q, (ptr_add sz q.1.1 1, ptr_add sz q.1.2 1, ptr_add sz q.2 1))
                    (λ j, (ptr_add sz (index mat (to_int (y - 1))) j,
                           ptr_add sz (index mat (to_int y)) (j - 1),
                           ptr_add sz (index mat (to_int y)) j))
                    (λ q s, func q.1.2 q.2 (func q.1.1 q.2 s)) 1);
    [ | walk_init | intros j; simpl; rewrite !ptr_add_ptr_add; do 3 f_equal; lia ].
  rewrite fold_left_bind. apply fold_left_ext_in. intros s' x _. done.
Qed.

Lemma for_each_pair_fold s :
  for_each_pair mat func s
  = fold_left visit (pair_order (m_rows mat) (m_cols mat)) s.
Proof.
  unfold for_each_pair, pair_order.
  rewrite !fold_left_app, first_column_walk, first_row_walk.
  rewrite for_fold. unfold rest_pairs. rewrite fold_left_bind.
  apply fold_left_ext_in. intros s' y Hy. apply elem_of_seqZ in Hy.
  apply rest_walk. lia.
Qed.
End ForeachPairFacts.

Lemma for_each_pair_log_eq {sz} (mat : MatrixWrapper sz) :
  m_rows mat ≤ 2 ^ 31 →
  for_each_pair_log mat
  = (λ e, (cell mat e.1, cell mat e.2)) <$> pair_order (m_rows mat) (m_cols mat).
Proof.
  intros H. unfold for_each_pair_log. rewrite for_each_pair_fold by done.
  apply (fold_left_snoc_log (λ e, (cell mat e.1, cell mat e.2)) _ []).
Qed.

Lemma adjacent_asym a b : adjacent a b → ¬ adjacent b a.
Proof. unfold adjacent. lia. Qed.


Lemma pair_order_cell_at {sz} (mat : MatrixWrapper sz) R C e :
  R ≤ 2 ^ 31 → e ∈ pair_order R C →
  cell mat e.1 = at_ mat e.1.1 e.1.2 ∧ cell mat e.2 = at_ mat e.2.1 e.2.2.
Proof.
  intros HR He. destruct e as [a b]. unfold pair_order in He.
  rewrite !elem_of_app, elem_of_first_column_pairs, elem_of_first_row_pairs,
    elem_of_rest_pairs in He.
  destruct He as [(y & Hy & -> & ->) | [(x & Hx & -> & ->)
                                       | (y & x & Hy & Hx & -> & [-> | ->])]];
    cbn [fst snd]; split; apply cell_at; lia.
Qed.

Lemma for_each_pair_fold_at {S} {sz} (mat : MatrixWrapper sz)
    (func : Z → Z → S → S) s :
  m_rows mat ≤ 2 ^ 31 →
  for_each_pair mat func s
  = fold_left (λ s e, func (at_ mat e.1.1 e.1.2) (at_ mat e.2.1 e.2.2) s)
              (pair_order (m_rows mat) (m_cols mat)) s.
Proof.
  intros H. rewrite for_each_pair_fold by done.
  apply fold_left_ext_in. intros s' e He.
  by destruct (pair_order_cell_at mat _ _ e H He) as [-> ->].
Qed.

Lemma for_each_pair_log_at {sz} (mat : MatrixWrapper sz) :
  m_rows mat ≤ 2 ^ 31 →
  for_each_pair_log mat
  = (λ e, (at_ mat e.1.1 e.1.2, at_ mat e.2.1 e.2.2))
      <$> pair_order (m_rows mat) (m_cols mat).
Proof.
  intros H. unfold for_each_pair_log. rewrite for_each_pair_fold_at by done.
  apply (fold_left_snoc_log (λ e, (at_ mat e.1.1 e.1.2, at_ mat e.2.1 e.2.2)) _ []).
Qed.

(** C3.  On an [R x C] grid with [R, C >= 1] and [R] within the range of the
    [int] that [operator[]] takes ([R <= 2^31]), [for_each_pair] calls the
    functor [R*(C-1) + C*(R-1)] times: once for every entry of
    [pair_order R C], with the elements at the two positions of the entry.
    [pair_order R C] holds no entry twice, and holds the pair [(a, b)] exactly
    when [a] and [b] are positions of the grid and [b] is the lower or right
    4-neighbour of [a]; the reversed pair [(b, a)] is never an entry.  So
    every unordered 4-adjacent pair of positions is visited exactly once, and
    a [1 x 1] grid gives no call. *)
Theorem for_each_pair_every_edge_once {sz : Z} (mat : MatrixWrapper sz) :
  1 ≤ m_rows mat → 1 ≤ m_cols mat → m_rows mat ≤ 2 ^ 31 →
  let R := m_rows mat in
  let C := m_cols mat in
  for_each_pair_log mat
  = (λ e, (at_ mat e.1.1 e.1.2, at_ mat e.2.1 e.2.2)) <$> pair_order R C
  ∧ Z.of_nat (length (for_each_pair_log mat)) = R * (C - 1) + C * (R - 1)
  ∧ NoDup (pair_order R C)
  ∧ (∀ a b, in_grid R C a → in_grid R C b → adjacent a b →
            (a, b) ∈ pair_order R C ∧ (b, a) ∉ pair_order R C)
  ∧ (∀ a b, (a, b) ∈ pair_order R C →
            in_grid R C a ∧ in_grid R C b ∧ adjacent a b)
  ∧ (R = 1 → C = 1 → for_each_pair_log mat = []).
Proof.
  intros HR HC Hint R C.
  assert (Hlog := for_each_pair_log_at mat Hint). fold R C in Hlog.
  split_and!.
  - done.
  - rewrite Hlog, length_fmap. by apply length_pair_order.
  - apply NoDup_pair_order.
  - intros a b Ha Hb Hab. split.
    + by apply elem_of_pair_order.
    + intros H. apply elem_of_pair_order in H as (_ & _ & H); [|done|done].
      by apply (adjacent_asym a b).
  - intros a b H. by apply elem_of_pair_order.
  - intros HR1 HC1. rewrite Hlog, HR1, HC1. reflexivity.
Qed.

Lemma for_each_pair_every_edge_once_witness :
  let m : MatrixWrapper 1 := mkMatrixWrapper 100 3 3 3 in
  Z.of_nat (length (for_each_pair_log m)) = 12
  ∧ ((1, 1), (1, 2)) ∈ pair_order 3 3.
Proof.
  intros m.
  destruct (for_each_pair_every_edge_once m) as (_ & Hlen & _ & Hin & _);
    try (vm_compute; congruence).
  split; [exact Hlen|].
  apply (Hin (1, 1) (1, 2)); unfold in_grid, adjacent; simpl; lia.
Defined.

(** C4.  On a grid whose number of rows [R] is within the range of the [int]
    that [operator[]] takes ([R <= 2^31]), whatever the functor, a run of
    [for_each_pair] is the functor folded over this list of position pairs,
    in this order: the vertical edges of column 0 from top to bottom, then
    the horizontal edges of row 0 from left to right, then for every row
    [y = 1..R-1] and every column [x = 1..C-1], rows outer, the vertical pair
    [((y-1,x),(y,x))] followed by the horizontal pair [((y,x-1),(y,x))].  In
    every call the first argument is the element of the upper or left
    position and the second the element of the lower or right one. *)
Theorem for_each_pair_traversal_order {sz : Z} (mat : MatrixWrapper sz) :
  m_rows mat ≤ 2 ^ 31 →
  let R := m_rows mat in
  let C := m_cols mat in
  (∀ (S : Type) (func : Z → Z → S → S) (s : S),
     for_each_pair mat func s
     = fold_left (λ s e, func (at_ mat e.1.1 e.1.2) (at_ mat e.2.1 e.2.2) s)
                 (pair_order R C) s)
  ∧ pair_order R C
    = ((λ y, ((y - 1, 0), (y, 0))) <$> seqZ 1 (R - 1))
      ++ ((λ x, ((0, x - 1), (0, x))) <$> seqZ 1 (C - 1))
      ++ (seqZ 1 (R - 1) ≫=
            (λ y, seqZ 1 (C - 1) ≫=
                    (λ x, [((y - 1, x), (y, x)); ((y, x - 1), (y, x))])))
  ∧ (∀ a b, (a, b) ∈ pair_order R C → adjacent a b).
Proof.
  intros Hint R C. split_and!.
  - intros S func s. by apply for_each_pair_fold_at.
  - reflexivity.
  - intros a b H. unfold pair_order in H.
    rewrite !elem_of_app, elem_of_first_column_pairs, elem_of_first_row_pairs,
      elem_of_rest_pairs in H.
    unfold adjacent.
    destruct H as [(y & _ & -> & ->) | [(x & _ & -> & ->)
                                       | (y & x & _ & _ & -> & [-> | ->])]];
      simpl; lia.
Qed.

Lemma for_each_pair_traversal_order_witness :
  for_each_pair (mkMatrixWrapper (sz:=1) 100 3 3 3) (λ a b l, l ++ [(a, b)]) []
  = [(100, 103); (103, 106); (100, 101); (101, 102);
     (101, 104); (103, 104); (102, 105); (104, 105);
     (104, 107); (106, 107); (105, 108); (107, 108)].
Proof.
  destruct (for_each_pair_traversal_order (mkMatrixWrapper (sz:=1) 100 3 3 3))
    as (H & _ & _); [vm_compute; congruence|].
  rewrite H. reflexivity.
Defined.

(** ** for_each_pair on any number of rows *)

Section ForeachPairAnyRows.
Context {S : Type} {sz : Z}.
Variable mat : MatrixWrapper sz.
Variable func : Z → Z → S → S.
Hypothesis rows_size : m_rows mat ≤ SIZE_MOD.

Let visit_cells (s : S) (e : (Z * Z) * (Z * Z)) : S :=
  func (pair_cells mat e).1 (pair_cells mat e).2 s.

Lemma first_column_walk_any s :
  snd (for_ 1 (m_rows mat)
            (λ _ '(up, down, s),
               (ptr_add sz up (m_step mat), ptr_add sz down (m_step mat),
                func up down s))
            (index mat 0, index mat 1, s))
  = fold_left visit_cells (first_column_pairs (m_rows mat)) s.
Proof.
  rewrite (for_ext _ (λ _ ps, ((ptr_add sz (fst ps).1 (m_step mat),
                                ptr_add sz (fst ps).2 (m_step mat)),
                               func (fst ps).1 (fst ps).2 (snd ps))))
    by (by intros ? [[? ?] ?]).
  rewrite !index_eq.
  rewrite (for_walk (λ q, (ptr_add sz q.1 (m_step mat), ptr_add sz q.2 (m_step mat)))
                    (λ j, (ptr_add sz (m_start mat) (m_step mat * j),
                           ptr_add sz (m_start mat) (m_step mat * (j + 1))))
                    (λ q s, func q.1 q.2 s) 0);
    [ | walk_init | intros j; simpl; rewrite !ptr_add_ptr_add; do 2 f_equal; lia ].
  unfold first_column_pairs. rewrite fold_left_fmap, (seqZ_shift 1), fold_left_fmap.
  apply fold_left_ext_in. intros s' x Hx.
  unfold visit_cells, pair_cells. cbn [fst snd]. rewrite Z.eqb_refl. cbn [fst snd].
  rewrite !at_eq. do 2 f_equal; f_equal; lia.
Qed.

Lemma first_row_walk_any s :
  snd (for_ 1 (m_cols mat)
            (λ _ '(lf, rt, s),
               (ptr_add sz lf 1, ptr_add sz rt 1, func lf rt s))
            (index mat 0, ptr_add sz (index mat 0) 1, s))
  = fold_left visit_cells (first_row_pairs (m_cols mat)) s.
Proof.
  rewrite (for_ext _ (λ _ ps, ((ptr_add sz (fst ps).1 1, ptr_add sz (fst ps).2 1),
                               func (fst ps).1 (fst ps).2 (snd ps))))
    by (by intros ? [[? ?] ?]).
  rewrite (for_walk (λ q, (ptr_add sz q.1 1, ptr_add sz q.2 1))
                    (λ j, (ptr_add sz (index mat 0) j,
                           ptr_add sz (index mat 0) (j + 1)))
                    (λ q s, func q.1 q.2 s) 0);
    [ | walk_init | intros j; simpl; by rewrite !ptr_add_ptr_add ].
  unfold first_row_pairs. rewrite fold_left_fmap, (seqZ_shift 1), fold_left_fmap.
  apply fold_left_ext_in. intros s' x Hx. apply elem_of_seqZ in Hx.
  unfold visit_cells, pair_cells. cbn [fst snd].
  destruct (Z.eqb_spec (x + 1) 0) as [?|_]; [lia|].
  unfold cell. cbn [fst snd]. do 2 f_equal; f_equal; lia.
Qed.

Lemma rest_walk_any y s :
  1 ≤ y < m_rows mat →
  snd (for_ 1 (m_cols mat)
            (λ _ '(up, lf, center, s),
               (ptr_add sz up 1, ptr_add sz lf 1, ptr_add sz center 1,
                func lf center (func up center s)))
            (ptr_add sz (index mat (to_int (size_sub y 1))) 1,
             index mat (to_int y),
             ptr_add sz (index mat (to_int y)) 1, s))
  = fold_left visit_cells
              (seqZ 1 (m_cols mat - 1) ≫=
                 (λ x, [((y - 1, x), (y, x)); ((y, x - 1), (y, x))])) s.
Proof.
  intros Hy.
  rewrite (for_ext _ (λ _ ps, ((ptr_add sz (fst ps).1.1 1,
                                ptr_add sz (fst ps).1.2 1,
                                ptr_add sz (fst ps).2 1),
                               func (fst ps).1.2 (fst ps).2
                                    (func (fst ps).1.1 (fst ps).2 (snd ps)))))
    by (by intros ? [[[? ?] ?] ?]).
  rewrite size_sub_id by lia.
  rewrite (for_walk (λ q, (ptr_add sz q.1.1 1, ptr_add sz q.1.2 1, ptr_add sz q.2 1))
                    (λ j, (ptr_add sz (index mat (to_int (y - 1))) j,
                           ptr_add sz (index mat (to_int y)) (j - 1),
                           ptr_add sz (index mat (to_int y)) j))
                    (λ q s, func q.1.2 q.2 (func q.1.1 q.2 s)) 1);
    [ | walk_init | intros j; simpl; rewrite !ptr_add_ptr_add; do 3 f_equal; lia ].
  rewrite fold_left_bind. apply fold_left_ext_in. intros s' x Hx.
  apply elem_of_seqZ in Hx.
  unfold visit_cells, pair_cells. cbn [fold_left fst snd].
  destruct (Z.eqb_spec x 0) as [?|_]; [lia|]. done.
Qed.

Lemma for_each_pair_fold_any s :
  for_each_pair mat func s
  = fold_left visit_cells (pair_order (m_rows mat) (m_cols mat)) s.
Proof.
  unfold for_each_pair, pair_order.
  rewrite !fold_left_app, first_column_walk_any, first_row_walk_any.
  rewrite for_fold. unfold rest_pairs. rewrite fold_left_bind.
  apply fold_left_ext_in. intros s' y Hy. apply elem_of_seqZ in Hy.
  apply rest_walk_any. lia.
Qed.
End ForeachPairAnyRows.

Lemma for_each_pair_log_any {sz} (mat : MatrixWrapper sz) :
  m_rows mat ≤ SIZE_MOD →
  for_each_pair_log mat
  = pair_cells mat <$> pair_order (m_rows mat) (m_cols mat).
Proof.
  intros H. unfold for_each_pair_log. rewrite for_each_pair_fold_any by done.
  rewrite (fold_left_ext_in _ (λ l e, l ++ [pair_cells mat e]));
    [|by intros l e _; destruct (pair_cells mat e)].
  apply (fold_left_snoc_log (pair_cells mat) _ []).
Qed.

Lemma fmap_eq_elem {A B} (f g : A → B) (l : list A) :
  f <$> l = g <$> l → ∀ x, x ∈ l → f x = g x.
Proof.
  induction l as [|a l IH]; intros E x Hx.
  - by apply elem_of_nil in Hx.
  - rewrite !fmap_cons in E. injection E as E1 E2.
    apply elem_of_cons in Hx as [->|Hx]; [done|by apply IH].
Qed.

(** The addresses of the rows of [grid_beyond_int]. *)
Lemma cell_beyond_int y x :
  0 ≤ y < 2 ^ 31 + 1 → 0 ≤ x < 2 →
  cell grid_beyond_int (y, x)
  = if decide (y = 2 ^ 31) then 2 ^ 40 - 2 ^ 32 + x else 2 ^ 40 + 2 * y + x.
Proof.
  intros Hy Hx. destruct (decide (y = 2 ^ 31)) as [->|Hne].
  - assert (x = 0 ∨ x = 1) as [-> | ->] by lia; reflexivity.
  - rewrite cell_eq by lia. unfold ptr_add, grid_beyond_int. cbn [m_start m_step].
    rewrite Z.mod_small by (unfold SIZE_MOD; lia). lia.
Qed.

Lemma at_beyond_int y x :
  0 ≤ y < 2 ^ 31 + 1 → 0 ≤ x < 2 →
  at_ grid_beyond_int y x = 2 ^ 40 + 2 * y + x.
Proof.
  intros Hy Hx. rewrite at_eq. unfold ptr_add, grid_beyond_int. cbn [m_start m_step].
  rewrite Z.mod_small by (unfold SIZE_MOD; lia). lia.
Qed.

(** On the grid of [2^31 + 1] rows and 2 columns, the positions [(2^31, 0)]
    and [(2^31, 1)] of the last row are 4-neighbours inside the grid, yet
    [for_each_pair] never hands their two elements to the functor: the row
    pointer of that row is taken with the row number converted to [int], so
    the functor gets addresses before the first element of the grid
    instead. *)
Lemma for_each_pair_skips_edge_beyond_int :
  in_grid (m_rows grid_beyond_int) (m_cols grid_beyond_int) (2 ^ 31, 0)
  ∧ in_grid (m_rows grid_beyond_int) (m_cols grid_beyond_int) (2 ^ 31, 1)
  ∧ adjacent (2 ^ 31, 0) (2 ^ 31, 1)
  ∧ ((at_ grid_beyond_int (2 ^ 31) 0, at_ grid_beyond_int (2 ^ 31) 1)
     ∉ for_each_pair_log grid_beyond_int)
  ∧ ∃ a b, (a, b) ∈ for_each_pair_log grid_beyond_int
           ∧ a < m_start grid_beyond_int.
Proof.
  assert (HR : m_rows grid_beyond_int = 2 ^ 31 + 1) by reflexivity.
  assert (HC : m_cols grid_beyond_int = 2) by reflexivity.
  rewrite for_each_pair_log_any by (rewrite HR; unfold SIZE_MOD; lia).
  rewrite HR, HC.
  split; [unfold in_grid; cbn [fst snd]; lia|].
  split; [unfold in_grid; cbn [fst snd]; lia|].
  split; [unfold adjacent; cbn [fst snd]; lia|].
  split.
  - rewrite list_elem_of_fmap. intros ([[ay ax] [by_ bx]] & E & Hin).
    rewrite !at_beyond_int in E by lia.
    apply elem_of_pair_order in Hin as (Ha & Hb & Hab); [|lia|lia].
    unfold in_grid, adjacent in Ha, Hb, Hab. cbn [fst snd] in Ha, Hb, Hab.
    unfold pair_cells in E. cbn [fst snd] in E.
    destruct (bx =? 0) eqn:Hbx.
    + apply Z.eqb_eq in Hbx.
      rewrite !at_beyond_int in E by lia. injection E as E1 E2. lia.
    + apply Z.eqb_neq in Hbx.
      rewrite (cell_beyond_int by_ bx) in E by lia. injection E as E1 E2.
      destruct (decide (by_ = 2 ^ 31)); lia.
  - exists (cell grid_beyond_int (2 ^ 31, 0)), (cell grid_beyond_int (2 ^ 31, 1)).
    split; [|reflexivity].
    apply list_elem_of_fmap. exists ((2 ^ 31, 0), (2 ^ 31, 1)). split; [reflexivity|].
    apply elem_of_pair_order; unfold in_grid, adjacent; cbn [fst snd]; lia.
Qed.

(** On the same grid the run of [for_each_pair] is not the list of the
    elements at the position pairs in the stated order: at the entry
    [((2^31 - 1, 1), (2^31, 1))] the second argument is not the element of
    the lower position. *)
Lemma for_each_pair_order_beyond_int :
  for_each_pair_log grid_beyond_int
  ≠ (λ e, (at_ grid_beyond_int e.1.1 e.1.2, at_ grid_beyond_int e.2.1 e.2.2))
      <$> pair_order (m_rows grid_beyond_int) (m_cols grid_beyond_int).
Proof.
  assert (HR : m_rows grid_beyond_int = 2 ^ 31 + 1) by reflexivity.
  assert (HC : m_cols grid_beyond_int = 2) by reflexivity.
  rewrite for_each_pair_log_any by (rewrite HR; unfold SIZE_MOD; lia).
  rewrite HR, HC. intros E.
  pose proof (fmap_eq_elem _ _ _ E ((2 ^ 31 - 1, 1), (2 ^ 31, 1))) as H.
  assert (Hin : ((2 ^ 31 - 1, 1), (2 ^ 31, 1)) ∈ pair_order (2 ^ 31 + 1) 2).
  { apply elem_of_pair_order; unfold in_grid, adjacent; cbn [fst snd]; lia. }
  specialize (H Hin). vm_compute in H. discriminate H.
Qed.

(** On the same grid [for_each] never hands the element at position
    [(2^31, 0)] to the functor, and hands it an address before the first
    element of the grid. *)
Lemma for_each_beyond_int_rows :
  (at_ grid_beyond_int (2 ^ 31) 0 ∉ for_each_log grid_beyond_int)
  ∧ ∃ a, a ∈ for_each_log grid_beyond_int ∧ a < m_start grid_beyond_int.
Proof.
  assert (HR : m_rows grid_beyond_int = 2 ^ 31 + 1) by reflexivity.
  assert (HC : m_cols grid_beyond_int = 2) by reflexivity.
  rewrite for_each_log_eq, HR, HC. split.
  - rewrite list_elem_of_fmap. intros ([y x] & E & Hin).
    apply elem_of_row_major in Hin as [Hy Hx].
    rewrite at_beyond_int, cell_beyond_int in E by lia.
    destruct (decide (y = 2 ^ 31)); lia.
  - exists (cell grid_beyond_int (2 ^ 31, 0)). split; [|reflexivity].
    apply list_elem_of_fmap. exists (2 ^ 31, 0). split; [reflexivity|].
    apply elem_of_row_major. lia.
Qed.


Section ForeachPair2Facts.
Context {S : Type} {sz1 sz2 : Z}.
Variable mat1 : MatrixWrapper sz1.
Variable mat2 : MatrixWrapper sz2.
Variable func : Z → Z → Z → Z → S → S.
Hypothesis rows_int : m_rows mat1 ≤ 2 ^ 31.





End ForeachPair2Facts.

Lemma assert_false_fails c : c = false → assert_ false c = Failed AssertionFailed.
Proof. by intros ->. Qed.








(** ** crop *)

(** A single crop moves the origin by [step * top + left] elements and keeps
    the step. *)
Lemma crop_origin ndebug {sz} (m m' : MatrixWrapper sz) top left rows cols :
  crop ndebug m top left rows cols = Returned m' →
  m_start m' = ptr_add sz (m_start m) (m_step m * top + left)
  ∧ m_step m' = m_step m ∧ m_rows m' = rows ∧ m_cols m' = cols.
Proof.
  unfold crop. destruct (assert_ ndebug _) as [[]|]; [|done].
  simpl. intros [= <-]. simpl.
  rewrite <- ptr_add_ptr_add. unfold size_mul, to_size.
  split_and!; try done. f_equal.
  rewrite ptr_add_mod. unfold ptr_add.
  rewrite <- (Zplus_mod_idemp_r (sz * (m_step m * (top mod SIZE_MOD)))).
  rewrite (Z.mul_assoc sz (m_step m)), Zmult_mod_idemp_r, <- Z.mul_assoc.
  by rewrite Zplus_mod_idemp_r.
Qed.


(** With the assertion in force, cropping back is refused whenever the first
    crop did not reach the last row. *)
Lemma uncrop_asserts {sz} (m sub : MatrixWrapper sz) a b r c :
  0 ≤ a → 0 ≤ r → a + r < m_rows m → m_rows m < SIZE_MOD →
  crop false m a b r c = Returned sub →
  crop false sub (- a) (- b) (m_rows m) (m_cols m) = Failed AssertionFailed.
Proof.
  intros Ha Hr Har HR E. apply crop_origin in E as (_ & _ & R1 & _).
  unfold crop. rewrite assert_false_fails; [done|].
  apply andb_false_iff. left. apply Z.leb_gt. rewrite R1.
  unfold size_add, to_size. rewrite Zplus_mod_idemp_l.
  rewrite Z.mod_small; lia.
Qed.

(** C6 on the code.  In a build with assertions the crop that is to undo an
    earlier crop is stopped by the assertion of [crop], which compares the
    requested size with the size of the cropped view: the 3 x 4 grid cropped
    to its cell (1, 1) cannot be cropped back.  With [NDEBUG] the same calls
    give back the original view. *)
Theorem uncrop_stopped_by_assertion :
  (let* sub := crop false grid_3x4 1 1 1 1 in
   crop false sub (-1) (-1) 3 4) = Failed AssertionFailed
  ∧ (let* sub := crop false grid_2x2 0 0 1 1 in
     crop false sub 0 0 2 2) = Failed AssertionFailed
  ∧ (let* sub := crop true grid_3x4 1 1 1 1 in
     crop true sub (-1) (-1) 3 4) = Returned grid_3x4.
Proof. split_and!; reflexivity. Qed.

(** ** set *)

(** C10 on the code.  The inner loop of [set] runs to [rows()], not to
    [cols()]: on a grid of 1 row and 2 columns only the element (0, 0) is
    written, the element (0, 1) keeps whatever it held. *)
Theorem set_stops_at_rows {V : Type} (v : V) (st : store V) :
  read (at_ grid_1x2 0 0) (set grid_1x2 v st) = Some v
  ∧ read (at_ grid_1x2 0 1) (set grid_1x2 v st) = read (at_ grid_1x2 0 1) st.
Proof.
  unfold set, read, write, for_. simpl.
  split; [apply lookup_insert_eq | by apply lookup_insert_ne].
Qed.

(** ** gaussian_kernel *)

(** C2 on the code.  The column index of every write is computed from
    [rows/2], not from [cols/2].  For a kernel of 1 row and 3 columns,
    allocated at address 16: the cell (0, 0) gets the weight of distance 0
    and the cell (0, 1) the weight of squared distance 1 (the claim has them
    the other way round), the cell (0, 2) is never assigned, and the weight of
    squared distance 1 is also written one element before the array. *)
Theorem gaussian_kernel_centres_on_rows {V : Type} (gauss : Z → V) :
  ∃ kernel st,
    gaussian_kernel (sz := 1) gauss 1 3 (mkStore ∅ 16) = Returned (kernel, st)
    ∧ view kernel = mkMatrixWrapper 16 1 3 3
    ∧ read (at_ (view kernel) 0 0) st = Some (gauss 0)
    ∧ read (at_ (view kernel) 0 1) st = Some (gauss 1)
    ∧ read (at_ (view kernel) 0 2) st = None
    ∧ read 15 st = Some (gauss 1).
Proof. eexists _, _. split_and!; reflexivity. Qed.

(** ** filter: which positions are evaluated *)

(** C1 on the code.  The left and right bands of [filter] are as wide as
    [kernel.rows()/2], while the central part leaves out [kernel.cols()/2]
    columns on either side.  With a kernel of 1 row and 3 columns on a 4 x 8
    image the first and the last column are never evaluated; with a kernel of
    3 rows and 1 column on an 8 x 4 image the positions of the first and the
    last column between the top and bottom bands are evaluated twice. *)
Theorem filter_bands_use_kernel_rows :
  filter_eval_count false input_4x8 output_4x8 kernel_1x3 0 0 = Returned 0%nat
  ∧ filter_eval_count false input_4x8 output_4x8 kernel_1x3 2 7 = Returned 0%nat
  ∧ filter_eval_count false input_4x8 output_4x8 kernel_1x3 2 3 = Returned 1%nat
  ∧ filter_eval_count false input_8x4 output_8x4 kernel_3x1 3 0 = Returned 2%nat
  ∧ filter_eval_count false input_8x4 output_8x4 kernel_3x1 3 3 = Returned 2%nat
  ∧ filter_eval_count false input_8x4 output_8x4 kernel_3x1 3 1 = Returned 1%nat.
Proof. split_and!; vm_compute; reflexivity. Qed.


(** ** Loop invariants *)

Lemma for_loop_invariant {S} (I : Z → S → Prop) (body : Z → S → S) n :
  ∀ i s,
    I i s →
    (∀ j s, i ≤ j < i + Z.of_nat n → I j s → I (j + 1) (body j s)) →
    I (i + Z.of_nat n) (for_loop n i body s).
Proof.
  induction n as [|n IH]; intros i s Hi Hstep.
  - simpl. by rewrite Z.add_0_r.
  - simpl for_loop.
    replace (i + Z.of_nat (Datatypes.S n)) with (i + 1 + Z.of_nat n) by lia.
    apply IH.
    + apply Hstep; [lia|done].
    + intros j s' Hj. apply Hstep. lia.
Qed.

Lemma for_invariant {S} (I : Z → S → Prop) (body : Z → S → S) lo hi s :
  lo ≤ hi →
  I lo s →
  (∀ j s, lo ≤ j < hi → I j s → I (j + 1) (body j s)) →
  I hi (for_ lo hi body s).
Proof.
  intros Hle H0 Hstep. unfold for_.
  pose proof (for_loop_invariant I body (Z.to_nat (hi - lo)) lo s H0) as H.
  rewrite Z2Nat.id in H by lia.
  replace (lo + (hi - lo)) with hi in H by lia.
  apply H. intros j s' Hj. apply Hstep. lia.
Qed.

(** ** copy_to and clone *)

Section Memcpy.
Context {V : Type}.
Variables sz dst src n : Z.
Hypothesis apart : ∀ i j, 0 ≤ i < n → 0 ≤ j < n →
  ptr_add sz src i ≠ ptr_add sz dst j.
Hypothesis distinct : ∀ i j, 0 ≤ i < j → j < n →
  ptr_add sz dst i ≠ ptr_add sz dst j.

End Memcpy.


Section CopyTo.
Context {V : Type} {sz : Z}.
Variables m dst : MatrixWrapper sz.
Hypothesis sz_pos : 0 < sz.
Hypothesis same_rows : m_rows dst = m_rows m.
Hypothesis same_cols : m_cols dst = m_cols m.
Hypothesis rows_int : 0 ≤ m_rows m ≤ 2 ^ 31.
Hypothesis cols_nonneg : 0 ≤ m_cols m.
Hypothesis row_bytes : 0 < m_rows m → sz * m_cols m < SIZE_MOD.
Hypothesis apart : ∀ y x y' x',
  0 ≤ y < m_rows m → 0 ≤ x < m_cols m → 0 ≤ y' < m_rows m → 0 ≤ x' < m_cols m →
  at_ m y x ≠ at_ dst y' x'.
Hypothesis distinct : ∀ y x y' x',
  0 ≤ y < m_rows m → 0 ≤ x < m_cols m → 0 ≤ y' < m_rows m → 0 ≤ x' < m_cols m →
  (y, x) ≠ (y', x') → at_ dst y x ≠ at_ dst y' x'.

End CopyTo.






(** ** Loops that may stop *)

Lemma for_loop_run_total {S} (I : S → Prop) (body : Z → S → run S) n :
  (∀ j s, I s → ∃ s', body j s = Returned s' ∧ I s') →
  ∀ i s, I s → ∃ s', for_loop_run n i body s = Returned s' ∧ I s'.
Proof.
  intros Hbody. induction n as [|n IH]; intros i s Hs.
  - by exists s.
  - simpl. destruct (Hbody i s Hs) as (s1 & -> & H1). simpl. by apply IH.
Qed.

Lemma for_run_total {S} (I : S → Prop) (body : Z → S → run S) lo hi s :
  (∀ j s, I s → ∃ s', body j s = Returned s' ∧ I s') →
  I s → ∃ s', for_run lo hi body s = Returned s' ∧ I s'.
Proof. intros Hbody Hs. unfold for_run. by apply for_loop_run_total. Qed.

Lemma for_int_total {S} (I : S → Prop) (body : Z → S → run S) lo hi s :
  (∀ j s, I s → ∃ s', body j s = Returned s' ∧ I s') →
  I s → ∃ s', for_int lo hi body s = Returned s' ∧ I s'.
Proof.
  intros Hbody Hs. unfold for_int. destruct (0 <=? lo).
  - by apply for_run_total.
  - by exists s.
Qed.

Lemma for_int_nonneg {S} (body : Z → S → run S) lo hi s :
  0 ≤ lo → for_int lo hi body s = for_run lo hi body s.
Proof. intros H. unfold for_int. by destruct (Z.leb_spec 0 lo); [|lia]. Qed.

(** The first round of a loop, and the last one. *)
Lemma for_run_first {S} (body : Z → S → run S) lo hi s :
  lo < hi →
  for_run lo hi body s = (let* s' := body lo s in for_run (lo + 1) hi body s').
Proof.
  intros H. unfold for_run.
  replace (Z.to_nat (hi - lo)) with (Datatypes.S (Z.to_nat (hi - (lo + 1)))) by lia.
  done.
Qed.

Lemma for_loop_run_last {S} (body : Z → S → run S) n : ∀ i s,
  for_loop_run (Datatypes.S n) i body s
  = (let* s' := for_loop_run n i body s in body (i + Z.of_nat n) s').
Proof.
  induction n as [|n IH]; intros i s.
  - simpl. rewrite Z.add_0_r. by destruct (body i s).
  - specialize (IH (i + 1)).
    cbn [for_loop_run] in *. destruct (body i s) as [s1|]; [|done]. cbn [bind].
    rewrite IH. replace (i + 1 + Z.of_nat n) with (i + Z.of_nat (Datatypes.S n)) by lia.
    done.
Qed.

Lemma for_run_last {S} (body : Z → S → run S) lo hi s :
  lo < hi →
  for_run lo hi body s = (let* s' := for_run lo (hi - 1) body s in body (hi - 1) s').
Proof.
  intros H. unfold for_run.
  replace (Z.to_nat (hi - lo)) with (Datatypes.S (Z.to_nat (hi - 1 - lo))) by lia.
  rewrite for_loop_run_last. do 2 f_equal. lia.
Qed.

(** ** filter with the assertions compiled out *)

Lemma fold_log_accm {A} (f g : A → Z) (l : list A) (w : windows) :
  fold_left (λ s a, log_accm (f a) (g a) s) l w
  = (fst w, snd w ++ ((λ a, (f a, g a)) <$> l)).
Proof.
  revert w. induction l as [|a l IH]; intros [done pend]; simpl.
  - by rewrite app_nil_r.
  - rewrite IH. simpl. by rewrite <- app_assoc.
Qed.

Lemma keeps_refl w : keeps w w.
Proof. by intros e. Qed.

Lemma keeps_trans w1 w2 w3 : keeps w1 w2 → keeps w2 w3 → keeps w1 w3.
Proof. intros H1 H2 e He. by apply H2, H1. Qed.

Section FilterNDEBUG.
Context {sz1 sz2 sz3 : Z}.
Variable input : MatrixWrapper sz1.
Variable output : MatrixWrapper sz2.
Variable kernel : MatrixWrapper sz3.

(** What one call of [parse_with_check] adds to the log: the output element,
    with the pairs of a row-major walk over the two cropped views. *)
Lemma parse_with_check_log x y (w : windows) :
  ∃ (win : MatrixWrapper sz1) (ker : MatrixWrapper sz3),
    m_cols win
    = to_size (to_int
        (Z.min (to_int (size_add (size_add (to_size x) (m_cols kernel / 2)) 1))
               (to_int (m_cols input))
         - Z.max (to_int (size_sub (to_size x) (m_cols kernel / 2))) 0))
    ∧ m_rows win
      = to_size (to_int
          (Z.min (to_int (size_add (size_add (to_size y) (m_rows kernel / 2)) 1))
                 (to_int (m_rows input))
           - Z.max (to_int (size_sub (to_size y) (m_rows kernel / 2))) 0))
    ∧ m_step win = m_step input
    ∧ m_start win
      = ptr_add sz1 (m_start input)
          (m_step input * Z.max (to_int (size_sub (to_size y) (m_rows kernel / 2))) 0
           + Z.max (to_int (size_sub (to_size x) (m_cols kernel / 2))) 0)
    ∧ parse_with_check true input output kernel log_accm log_eval x y w
      = Returned
          (fst w ++ [(at_ output y x,
                      snd w ++ ((λ a, (cell win a, cell ker a))
                                  <$> row_major (m_rows win) (m_cols win)))],
           []).
Proof.
  unfold parse_with_check.
  destruct (crop true input _ _ _ _) as [win|] eqn:Ew; [|done].
  destruct (crop true kernel _ _ _ _) as [ker|] eqn:Ek; [|done].
  exists win, ker. cbn [bind].
  rewrite for_each_2_fold by (by left). cbn [bind].
  rewrite fold_log_accm. unfold log_eval. simpl fst. simpl snd.
  apply crop_origin in Ew as (Hs & Ht & Hr & Hc).
  by rewrite Hc, Hr, Ht, Hs.
Qed.

Lemma parse_with_check_total x y w :
  ∃ w', parse_with_check true input output kernel log_accm log_eval x y w
        = Returned w' ∧ keeps w w'.
Proof.
  destruct (parse_with_check_log x y w) as (win & ker & _ & _ & _ & _ & E).
  eexists. split; [exact E|].
  intros e He. simpl. apply elem_of_app. by left.
Qed.

Lemma central_total x y w :
  ∃ w', central true input output kernel log_accm log_eval x y w
        = Returned w' ∧ keeps w w'.
Proof.
  unfold central.
  destruct (crop true input _ _ _ _) as [win|] eqn:Ew; [|done].
  cbn [bind]. rewrite for_each_2_fold by (by left). cbn [bind].
  eexists. split; [reflexivity|].
  rewrite fold_log_accm. intros e He. simpl. apply elem_of_app. by left.
Qed.

Lemma band_total (w0 : windows) ylo yhi xlo xhi w :
  keeps w0 w →
  ∃ w',
    for_int ylo yhi
      (λ y s, for_int xlo xhi
                (λ x s, parse_with_check true input output kernel
                                         log_accm log_eval x y s) s) w
    = Returned w' ∧ keeps w0 w'.
Proof.
  intros Hw. apply (for_int_total (keeps w0)); [|done].
  intros y s Hs. apply (for_int_total (keeps w0)); [|done].
  intros x s' Hs'. destruct (parse_with_check_total x y s') as (w' & E & K).
  exists w'. split; [done|]. by apply (keeps_trans _ s').
Qed.

Lemma central_band_total (w0 : windows) ylo yhi xlo xhi w :
  keeps w0 w →
  ∃ w',
    for_int ylo yhi
      (λ y s, for_int xlo xhi
                (λ x s, central true input output kernel
                                log_accm log_eval x y s) s) w
    = Returned w' ∧ keeps w0 w'.
Proof.
  intros Hw. apply (for_int_total (keeps w0)); [|done].
  intros y s Hs. apply (for_int_total (keeps w0)); [|done].
  intros x s' Hs'. destruct (central_total x y s') as (w' & E & K).
  exists w'. split; [done|]. by apply (keeps_trans _ s').
Qed.
(** With the assertions compiled out [filter] runs through all its five
    parts, and what the left band has logged is still in the final log. *)
Lemma filter_ndebug_keeps_left_band (P : Z * list (Z * Z) → Prop) (w0 : windows) :
  (∀ w, ∃ w' e,
     for_int (to_int (m_rows kernel / 2))
             (size_sub (m_rows input) (m_rows kernel / 2))
       (λ y s, for_int 0 (m_rows kernel / 2)
                 (λ x s, parse_with_check true input output kernel
                                          log_accm log_eval x y s) s) w
     = Returned w' ∧ e ∈ fst w' ∧ P e) →
  ∃ w' e,
    filter true input output kernel log_accm log_eval w0 = Returned w'
    ∧ e ∈ fst w' ∧ P e.
Proof.
  intros Hleft. unfold filter. cbn [assert_ orb bind].
  destruct (band_total w0
              0 (m_rows kernel / 2) 0 (m_cols input) w0
              (keeps_refl _)) as (w1 & -> & _).
  cbn [bind].
  destruct (band_total w1
              (to_int (size_sub (m_rows input) (m_rows kernel / 2)))
              (m_rows input) 0 (m_cols input) w1
              (keeps_refl _)) as (w2 & -> & _).
  cbn [bind].
  destruct (Hleft w2) as (w3 & e & -> & Hin & He).
  cbn [bind].
  destruct (band_total w3
              (to_int (m_rows kernel / 2))
              (size_sub (m_rows input) (m_rows kernel / 2))
              (to_int (size_sub (m_cols input) (m_rows kernel / 2)))
              (m_cols input) w3 (keeps_refl _)) as (w4 & -> & K4).
  cbn [bind].
  destruct (central_band_total w4
              (to_int (m_rows kernel / 2))
              (size_sub (m_rows input) (m_rows kernel / 2))
              (to_int (m_cols kernel / 2))
              (size_sub (m_cols input) (m_cols kernel / 2)) w4
              (keeps_refl _)) as (w5 & -> & K5).
  exists w5, e. split_and!; [done | by apply K5, K4 | done].
Qed.
End FilterNDEBUG.

(** On the 28 x 4 image with the kernel of 13 rows and 1 column the left band
    runs its columns up to [13/2 = 6], past the 4 columns of the image: at
    [x = 5] the clipped width [4 - 5] wraps to [2^64 - 1], and the walk over
    that window reaches the address 200. *)
Lemma left_band_leaves_the_image (w : windows) :
  ∃ w' e,
    for_int (to_int (m_rows kernel_13x1 / 2))
            (size_sub (m_rows input_28x4) (m_rows kernel_13x1 / 2))
      (λ y s, for_int 0 (m_rows kernel_13x1 / 2)
                (λ x s0, parse_with_check true input_28x4 output_28x4 kernel_13x1
                                          log_accm log_eval x y s0) s) w
    = Returned w'
    ∧ e ∈ fst w'
    ∧ (fst e = at_ output_28x4 6 5 ∧ ∃ q, (200, q) ∈ snd e).
Proof.
  assert (E6 : m_rows kernel_13x1 / 2 = 6) by reflexivity.
  assert (E22 : size_sub (m_rows input_28x4) 6 = 22) by reflexivity.
  rewrite !E6, E22, (to_int_id 6) by lia.
  rewrite (for_int_nonneg _ 6 22), (for_run_first _ 6 22) by lia. cbn beta.
  rewrite (for_int_nonneg _ 0 6), (for_run_last _ 0 6) by lia.
  destruct (for_run_total (keeps w)
              (λ x s0, parse_with_check true input_28x4 output_28x4 kernel_13x1
                                        log_accm log_eval x 6 s0)
              0 (6 - 1) w) as (w1 & E1 & K1).
  { intros x s Hs.
    destruct (parse_with_check_total input_28x4 output_28x4 kernel_13x1 x 6 s)
      as (w' & E & K).
    exists w'. split; [done|]. by apply (keeps_trans _ s). }
  { apply keeps_refl. }
  rewrite E1. cbn [bind].
  destruct (parse_with_check_log input_28x4 output_28x4 kernel_13x1 (6 - 1) 6 w1)
    as (win & ker & Hc & Hr & Ht & Hs & E2).
  rewrite E2. cbn [bind].
  set (entry := (at_ output_28x4 6 (6 - 1),
                 snd w1 ++ ((λ a, (cell win a, cell ker a))
                              <$> row_major (m_rows win) (m_cols win)))).
  set (w2 := (fst w1 ++ [entry], @nil (Z * Z))).
  destruct (for_run_total (keeps w2)
              (λ y s, for_int 0 6
                        (λ x s0, parse_with_check true input_28x4 output_28x4
                                                  kernel_13x1 log_accm log_eval x y s0) s)
              (6 + 1) 22 w2) as (w3 & E3 & K3).
  { intros y s Hs0. apply (for_int_total (keeps w2)); [|done].
    intros x s' Hs'.
    destruct (parse_with_check_total input_28x4 output_28x4 kernel_13x1 x y s')
      as (w' & E & K).
    exists w'. split; [done|]. by apply (keeps_trans _ s'). }
  { apply keeps_refl. }
  rewrite E3.
  exists w3, entry. split_and!.
  - done.
  - apply K3. unfold w2. simpl. apply elem_of_app. right.
    by apply list_elem_of_singleton.
  - done.
  - exists (cell ker (0, 195)).
    unfold entry. simpl snd. apply elem_of_app. right.
    apply list_elem_of_fmap. exists (0, 195). split.
    + f_equal. unfold cell, index. simpl fst. simpl snd. rewrite Hs, Ht. reflexivity.
    + apply elem_of_row_major. rewrite Hr, Hc.
      split; (split; [vm_compute; congruence | reflexivity]).
Qed.

(** C8 on the code.  The preconditions of [filter] hold for the 28 x 4 image
    and the kernel of 13 rows and 1 column.  Built with assertions, the run
    is stopped in the left band by the assertion of the kernel's [crop].
    Built with [NDEBUG], the run hands the accumulate functor, for the
    position (6, 5) that the output does not have, the element at address
    200, which is no element of the 28 x 4 input. *)
Theorem filter_reads_outside_input :
  filter_log false input_28x4 output_28x4 kernel_13x1 = Failed AssertionFailed
  ∧ (∃ w pairs q,
       filter_log true input_28x4 output_28x4 kernel_13x1 = Returned w
       ∧ (at_ output_28x4 6 5, pairs) ∈ fst w
       ∧ (200, q) ∈ pairs)
  ∧ (∀ y x, 0 ≤ y < 28 → 0 ≤ x < 4 → at_ input_28x4 y x ≠ 200).
Proof.
  split_and!.
  - vm_compute. reflexivity.
  - destruct (filter_ndebug_keeps_left_band input_28x4 output_28x4 kernel_13x1
                (λ e, fst e = at_ output_28x4 6 5 ∧ ∃ q, (200, q) ∈ snd e)
                ([], []) left_band_leaves_the_image)
      as (w & [o pairs] & E & Hin & Ho & q & Hq).
    simpl in Ho, Hq. subst o. exists w, pairs, q.
    split_and!; [exact E | exact Hin | exact Hq].
  - intros y x Hy Hx. rewrite at_eq. unfold ptr_add. simpl.
    rewrite Z.mod_small; unfold SIZE_MOD; lia.
Qed.

(** ** filter when the bands fit the image *)

Lemma to_int_mod z : to_int (z mod SIZE_MOD) = to_int z.
Proof.
  unfold to_int, INT_MOD, SIZE_MOD. f_equal.
  rewrite (Z.div_mod z (2 ^ 64)) at 2 by lia.
  replace (2 ^ 64 * (z / 2 ^ 64) + z mod 2 ^ 64 + 2 ^ 31)
    with (z mod 2 ^ 64 + 2 ^ 31 + (2 ^ 32 * (z / 2 ^ 64)) * 2 ^ 32) by lia.
  by rewrite Z_mod_plus_full.
Qed.

Lemma to_int_size_sub a b :
  - 2 ^ 31 ≤ a - b < 2 ^ 31 → to_int (size_sub a b) = a - b.
Proof. intros H. unfold size_sub. by rewrite to_int_mod, to_int_id. Qed.

Lemma to_int_size_add a b :
  - 2 ^ 31 ≤ a + b < 2 ^ 31 → to_int (size_add a b) = a + b.
Proof. intros H. unfold size_add. by rewrite to_int_mod, to_int_id. Qed.

Lemma size_add_id a b : 0 ≤ a + b < SIZE_MOD → size_add a b = a + b.
Proof. intros H. unfold size_add. by apply Z.mod_small. Qed.

Lemma size_add_to_size a b :
  0 ≤ a + b < SIZE_MOD → size_add (to_size a) b = a + b.
Proof.
  intros H. unfold size_add, to_size. rewrite Zplus_mod_idemp_l.
  by apply Z.mod_small.
Qed.

Lemma assert_true ndebug c : c = true → assert_ ndebug c = Returned tt.
Proof. intros ->. unfold assert_. by rewrite orb_true_r. Qed.

(** ** clone beyond the range of [int] *)





(** The cells of a cropped view are the cells of the view it was cropped
    from, moved by the offsets of the crop. *)
Lemma cell_crop ndebug {sz} (m win : MatrixWrapper sz) top left rows cols i j :
  crop ndebug m top left rows cols = Returned win →
  - 2 ^ 31 ≤ i < 2 ^ 31 →
  cell win (i, j) = at_ m (top + i) (left + j).
Proof.
  intros E Hi. apply crop_origin in E as (Hs & Ht & _ & _).
  rewrite cell_eq by done. rewrite Hs, Ht, ptr_add_ptr_add, at_eq.
  f_equal. lia.
Qed.

Lemma for_loop_run_fold {S} (body : Z → S → run S) (g : Z → S → S) n : ∀ i s,
  (∀ j s, i ≤ j < i + Z.of_nat n → body j s = Returned (g j s)) →
  for_loop_run n i body s
  = Returned (fold_left (λ s j, g j s) (seqZ i (Z.of_nat n)) s).
Proof.
  induction n as [|n IH]; intros i s Hbody; [done|].
  rewrite seqZ_cons by lia. cbn [for_loop_run fold_left].
  rewrite Hbody by lia. cbn [bind]. rewrite IH by (intros; apply Hbody; lia).
  do 3 f_equal; lia.
Qed.

Lemma for_int_fold {S} (body : Z → S → run S) (g : Z → S → S) lo hi s :
  0 ≤ lo →
  (∀ j s, lo ≤ j < hi → body j s = Returned (g j s)) →
  for_int lo hi body s
  = Returned (fold_left (λ s j, g j s) (seqZ lo (hi - lo)) s).
Proof.
  intros Hlo Hbody. rewrite for_int_nonneg by done. unfold for_run.
  rewrite (for_loop_run_fold body g) by (intros; apply Hbody; lia).
  destruct (Z_le_gt_dec 0 (hi - lo)).
  - by rewrite Z2Nat.id.
  - rewrite Z2Nat.nonpos, (seqZ_nil lo (hi - lo)) by lia. done.
Qed.

Lemma crop_ok ndebug {sz} (m : MatrixWrapper sz) top left rows cols :
  size_add (to_size top) rows ≤ m_rows m →
  size_add (to_size left) cols ≤ m_cols m →
  ∃ win, crop ndebug m top left rows cols = Returned win
         ∧ m_rows win = rows ∧ m_cols win = cols.
Proof.
  intros Hr Hc. unfold crop. rewrite assert_true.
  - cbn [bind]. by eexists.
  - apply andb_true_iff. split; by apply Z.leb_le.
Qed.

Section FilterFacts.
Context {S : Type} {sz1 sz2 sz3 : Z}.
Variable ndebug : bool.
Variable input : MatrixWrapper sz1.
Variable output : MatrixWrapper sz2.
Variable kernel : MatrixWrapper sz3.
Variable accm : Z → Z → S → S.
Variable eval : Z → S → S.
Hypothesis odd_rows : m_rows kernel mod 2 = 1.
Hypothesis odd_cols : m_cols kernel mod 2 = 1.
Hypothesis krows_pos : 0 ≤ m_rows kernel.
Hypothesis kcols_pos : 0 ≤ m_cols kernel.
Hypothesis half_rows : m_rows kernel * 2 + 1 < m_rows input.
Hypothesis half_cols : m_cols kernel * 2 + 1 < m_cols input.
Hypothesis rows_int : m_rows input < 2 ^ 30.
Hypothesis cols_int : m_cols input < 2 ^ 30.

Local Abbreviation kr := (m_rows kernel / 2).
Local Abbreviation kc := (m_cols kernel / 2).

Lemma kernel_rows_odd : m_rows kernel = 2 * kr + 1 ∧ 0 ≤ kr.
Proof.
  pose proof (Z.div_mod (m_rows kernel) 2 ltac:(lia)) as H.
  rewrite odd_rows in H. split; [done|]. apply Z.div_pos; lia.
Qed.

Lemma kernel_cols_odd : m_cols kernel = 2 * kc + 1 ∧ 0 ≤ kc.
Proof.
  pose proof (Z.div_mod (m_cols kernel) 2 ltac:(lia)) as H.
  rewrite odd_cols in H. split; [done|]. apply Z.div_pos; lia.
Qed.

Lemma parse_with_check_spec x y s :
  0 ≤ y < m_rows input → 0 ≤ x < m_cols input →
  parse_with_check ndebug input output kernel accm eval x y s
  = Returned (at_position input output kernel accm eval s (y, x)).
Proof.
  intros Hy Hx.
  destruct kernel_rows_odd as [HkR Hkr]. destruct kernel_cols_odd as [HkC Hkc].
  unfold parse_with_check.
  rewrite (to_size_id x), (to_size_id y) by (unfold SIZE_MOD; lia).
  rewrite !to_int_size_sub by lia.
  rewrite (size_add_id x), (size_add_id y) by (unfold SIZE_MOD; lia).
  rewrite !to_int_size_add by lia.
  rewrite (to_int_id (m_rows input)), (to_int_id (m_cols input)) by lia.
  set (x0 := Z.max (x - kc) 0). set (x1 := Z.min (x + kc + 1) (m_cols input)).
  set (y0 := Z.max (y - kr) 0). set (y1 := Z.min (y + kr + 1) (m_rows input)).
  rewrite !(to_int_id (y1 - y0)), !(to_int_id (x1 - x0)) by lia.
  rewrite !(to_size_id (y1 - y0)), !(to_size_id (x1 - x0)) by (unfold SIZE_MOD; lia).
  rewrite (to_int_id (y0 - y)), (to_int_id (x0 - x)) by lia.
  unfold size_add at 1 2. unfold to_size at 1 2.
  rewrite !Zplus_mod_idemp_l, !to_int_mod, !to_int_id by lia.
  destruct (crop_ok ndebug input y0 x0 (y1 - y0) (x1 - x0))
    as (win & Ew & Rw & Cw).
  { rewrite (to_size_id y0), size_add_id; unfold SIZE_MOD; lia. }
  { rewrite (to_size_id x0), size_add_id; unfold SIZE_MOD; lia. }
  destruct (crop_ok ndebug kernel (y0 - y + kr) (x0 - x + kc) (y1 - y0) (x1 - x0))
    as (ker & Ek & Rk & Ck).
  { rewrite (to_size_id (y0 - y + kr)), size_add_id; unfold SIZE_MOD; lia. }
  { rewrite (to_size_id (x0 - x + kc)), size_add_id; unfold SIZE_MOD; lia. }
  rewrite Ew, Ek. cbn [bind].
  rewrite for_each_2_fold by (right; split; congruence). cbn [bind].
  f_equal. unfold at_position, window_pairs. cbn [fst snd]. f_equal.
  rewrite fold_left_fmap, Rw, Cw. fold x0 x1 y0 y1.
  apply fold_left_ext_in. intros s' [i j] Ha.
  apply elem_of_row_major in Ha. cbn [fst snd].
  rewrite (cell_crop _ _ _ _ _ _ _ i j Ew), (cell_crop _ _ _ _ _ _ _ i j Ek) by lia.
  do 2 f_equal; lia.
Qed.

Lemma central_spec x y s :
  kr ≤ y < m_rows input - kr → kc ≤ x < m_cols input - kc →
  central ndebug input output kernel accm eval x y s
  = Returned (at_position input output kernel accm eval s (y, x)).
Proof.
  intros Hy Hx.
  destruct kernel_rows_odd as [HkR Hkr]. destruct kernel_cols_odd as [HkC Hkc].
  unfold central.
  rewrite (to_size_id x), (to_size_id y) by (unfold SIZE_MOD; lia).
  rewrite !to_int_size_sub by lia.
  destruct (crop_ok ndebug input (y - kr) (x - kc) (m_rows kernel) (m_cols kernel))
    as (win & Ew & Rw & Cw).
  { rewrite (to_size_id (y - kr)), size_add_id; unfold SIZE_MOD; lia. }
  { rewrite (to_size_id (x - kc)), size_add_id; unfold SIZE_MOD; lia. }
  rewrite Ew. cbn [bind].
  rewrite for_each_2_fold by (right; split; congruence). cbn [bind].
  f_equal. unfold at_position, window_pairs. cbn [fst snd]. f_equal.
  rewrite fold_left_fmap, Rw, Cw.
  rewrite (Z.max_l (y - kr) 0), (Z.max_l (x - kc) 0) by lia.
  rewrite (Z.min_l (y + kr + 1)), (Z.min_l (x + kc + 1)) by lia.
  replace (y + kr + 1 - (y - kr)) with (m_rows kernel) by lia.
  replace (x + kc + 1 - (x - kc)) with (m_cols kernel) by lia.
  apply fold_left_ext_in. intros s' [i j] Ha.
  apply elem_of_row_major in Ha. cbn [fst snd].
  rewrite (cell_crop _ _ _ _ _ _ _ i j Ew), cell_at by lia.
  do 2 f_equal; lia.
Qed.

Lemma band_fold (body : Z → Z → S → run S) ylo yhi xlo xhi s :
  0 ≤ ylo → 0 ≤ xlo →
  (∀ y x s, ylo ≤ y < yhi → xlo ≤ x < xhi →
            body x y s = Returned (at_position input output kernel accm eval s (y, x))) →
  for_int ylo yhi (λ y s, for_int xlo xhi (λ x s, body x y s) s) s
  = Returned (fold_left (at_position input output kernel accm eval)
                        (band ylo yhi xlo xhi) s).
Proof.
  intros Hy Hx Hbody. unfold band. rewrite fold_left_bind.
  apply for_int_fold; [done|]. intros y s' Hyy.
  rewrite fold_left_fmap. apply for_int_fold; [done|].
  intros x s'' Hxx. by apply Hbody.
Qed.

Hypothesis same_rows : m_rows output = m_rows input.
Hypothesis same_cols : m_cols output = m_cols input.
Hypothesis bands_fit : kr ≤ m_cols input.

(** [filter] as a fold over the output positions, in the order of its five
    parts. *)
Lemma filter_fold s :
  filter ndebug input output kernel accm eval s
  = Returned (fold_left (at_position input output kernel accm eval)
                        (filter_positions (m_rows input) (m_cols input) kr kc) s).
Proof.
  destruct kernel_rows_odd as [HkR Hkr]. destruct kernel_cols_odd as [HkC Hkc].
  unfold filter.
  rewrite assert_true
    by (rewrite odd_rows, odd_cols; reflexivity).
  cbn [bind].
  rewrite assert_true; cycle 1.
  { unfold size_mul. rewrite !(Z.mod_small (_ * 2)) by (unfold SIZE_MOD; lia).
    rewrite !size_add_id by (unfold SIZE_MOD; lia).
    apply andb_true_iff. split; apply Z.ltb_lt; lia. }
  cbn [bind].
  rewrite assert_true by (rewrite same_rows, same_cols, !Z.eqb_refl; reflexivity).
  cbn [bind].
  rewrite !(size_sub_id (m_rows input) kr), !(size_sub_id (m_cols input) kr),
    !(size_sub_id (m_cols input) kc) by (unfold SIZE_MOD; lia).
  rewrite !(to_int_id kr), !(to_int_id kc), !(to_int_id (m_rows input - kr)),
    !(to_int_id (m_cols input - kr)) by lia.
  rewrite (band_fold (parse_with_check ndebug input output kernel accm eval)
                     0 kr 0 (m_cols input))
    by (try lia; intros; apply parse_with_check_spec; lia).
  cbn [bind].
  rewrite (band_fold (parse_with_check ndebug input output kernel accm eval)
                     (m_rows input - kr) (m_rows input) 0 (m_cols input))
    by (try lia; intros; apply parse_with_check_spec; lia).
  cbn [bind].
  rewrite (band_fold (parse_with_check ndebug input output kernel accm eval)
                     kr (m_rows input - kr) 0 kr)
    by (try lia; intros; apply parse_with_check_spec; lia).
  cbn [bind].
  rewrite (band_fold (parse_with_check ndebug input output kernel accm eval)
                     kr (m_rows input - kr) (m_cols input - kr) (m_cols input))
    by (try lia; intros; apply parse_with_check_spec; lia).
  cbn [bind].
  rewrite (band_fold (central ndebug input output kernel accm eval)
                     kr (m_rows input - kr) kc (m_cols input - kc))
    by (try lia; intros; apply central_spec; lia).
  unfold filter_positions. by rewrite !fold_left_app.
Qed.
End FilterFacts.

Lemma elem_of_band ylo yhi xlo xhi y x :
  (y, x) ∈ band ylo yhi xlo xhi ↔ ylo ≤ y < yhi ∧ xlo ≤ x < xhi.
Proof.
  unfold band. rewrite list_elem_of_bind. split.
  - intros (y' & Hx & Hy). apply list_elem_of_fmap in Hx as (x' & E & Hx).
    inversion E; subst. apply elem_of_seqZ in Hx, Hy. lia.
  - intros [Hy Hx]. exists y. split.
    + apply list_elem_of_fmap. exists x. split; [done|]. apply elem_of_seqZ. lia.
    + apply elem_of_seqZ. lia.
Qed.

Lemma NoDup_band ylo yhi xlo xhi : NoDup (band ylo yhi xlo xhi).
Proof.
  unfold band. apply NoDup_bind.
  - intros y1 y2 [y x] _ _ H1 H2.
    apply list_elem_of_fmap in H1 as (? & E1 & _).
    apply list_elem_of_fmap in H2 as (? & E2 & _). congruence.
  - intros y _. apply NoDup_fmap_2; [|apply NoDup_seqZ].
    intros x1 x2 E. congruence.
  - apply NoDup_seqZ.
Qed.

Lemma elem_of_filter_positions R C kr kc y x :
  (y, x) ∈ filter_positions R C kr kc
  ↔ (0 ≤ y < kr ∧ 0 ≤ x < C)
    ∨ (R - kr ≤ y < R ∧ 0 ≤ x < C)
    ∨ (kr ≤ y < R - kr ∧ 0 ≤ x < kr)
    ∨ (kr ≤ y < R - kr ∧ C - kr ≤ x < C)
    ∨ (kr ≤ y < R - kr ∧ kc ≤ x < C - kc).
Proof. unfold filter_positions. by rewrite !elem_of_app, !elem_of_band. Qed.

(** The bands stay inside the image as long as [kr] does not exceed the
    number of columns. *)
Lemma filter_positions_in_grid R C kr kc a :
  0 ≤ kr → 2 * kr < R → kr ≤ C → 0 ≤ kc →
  a ∈ filter_positions R C kr kc → in_grid R C a.
Proof.
  intros Hkr HR HC Hkc. destruct a as [y x].
  rewrite elem_of_filter_positions. unfold in_grid. simpl. lia.
Qed.

(** When the bands are as wide as the margin of the central part, the five
    parts tile the image. *)
Lemma filter_positions_tile R C k :
  0 ≤ k → 2 * k < R → 2 * k < C →
  NoDup (filter_positions R C k k)
  ∧ ∀ a, a ∈ filter_positions R C k k ↔ in_grid R C a.
Proof.
  intros Hk HR HC. split.
  - unfold filter_positions.
    repeat (apply NoDup_app; split_and!; [apply NoDup_band| |]);
      [..|apply NoDup_band];
      intros [y x]; rewrite ?elem_of_app, !elem_of_band; lia.
  - intros [y x]. rewrite elem_of_filter_positions. unfold in_grid. simpl. lia.
Qed.

(** Every pair of a clipped window joins an element inside the input with the
    kernel element at the same offset from the centre. *)
Lemma window_pairs_in_range {sz1 sz3} (input : MatrixWrapper sz1)
    (kernel : MatrixWrapper sz3) y x p q :
  m_rows kernel mod 2 = 1 → m_cols kernel mod 2 = 1 →
  0 ≤ m_rows kernel → 0 ≤ m_cols kernel →
  (p, q) ∈ window_pairs input kernel y x →
  ∃ yy xx,
    0 ≤ yy < m_rows input ∧ 0 ≤ xx < m_cols input
    ∧ p = at_ input yy xx
    ∧ 0 ≤ yy - y + m_rows kernel / 2 < m_rows kernel
    ∧ 0 ≤ xx - x + m_cols kernel / 2 < m_cols kernel
    ∧ q = at_ kernel (yy - y + m_rows kernel / 2) (xx - x + m_cols kernel / 2).
Proof.
  intros OR OC HR HC H.
  pose proof (Z.div_mod (m_rows kernel) 2 ltac:(lia)) as HkR. rewrite OR in HkR.
  pose proof (Z.div_mod (m_cols kernel) 2 ltac:(lia)) as HkC. rewrite OC in HkC.
  unfold window_pairs in H. apply list_elem_of_fmap in H as ([i j] & E & Ha).
  apply elem_of_row_major in Ha. cbn [fst snd] in E. inversion E; subst.
  exists (Z.max (y - m_rows kernel / 2) 0 + i), (Z.max (x - m_cols kernel / 2) 0 + j).
  split_and!; try reflexivity; lia.
Qed.

Lemma fmap_pair_id (l : list (Z * Z)) : (λ a, (a.1, a.2)) <$> l = l.
Proof. induction l as [|[p q] l IH]; [done|]. by rewrite fmap_cons, IH. Qed.

Lemma fold_log_at_position {sz1 sz2 sz3} (input : MatrixWrapper sz1)
    (output : MatrixWrapper sz2) (kernel : MatrixWrapper sz3) l done :
  fold_left (at_position input output kernel log_accm log_eval) l (done, [])
  = (done ++ ((λ a, (at_ output a.1 a.2, window_pairs input kernel a.1 a.2)) <$> l),
     []).
Proof.
  revert done. induction l as [|a l IH]; intros done.
  - simpl. by rewrite app_nil_r.
  - cbn [fold_left].
    assert (E : at_position input output kernel log_accm log_eval (done, []) a
                = (done ++ [(at_ output a.1 a.2,
                             window_pairs input kernel a.1 a.2)], [])).
    { unfold at_position. rewrite (fold_log_accm fst snd). unfold log_eval.
      cbn [fst snd]. by rewrite app_nil_l, fmap_pair_id. }
    rewrite E, IH, <- app_assoc. done.
Qed.

(** [filter] when the bands of width [kernel.rows()/2] fit the columns of the
    image: the run returns, it evaluates the positions of [filter_positions]
    in that order, each after accumulating over its clipped window, and every
    position is inside the image. *)
Lemma filter_log_when_bands_fit ndebug {sz1 sz2 sz3} (input : MatrixWrapper sz1)
    (output : MatrixWrapper sz2) (kernel : MatrixWrapper sz3) :
  m_rows kernel mod 2 = 1 → m_cols kernel mod 2 = 1 →
  0 ≤ m_rows kernel → 0 ≤ m_cols kernel →
  m_rows kernel * 2 + 1 < m_rows input → m_cols kernel * 2 + 1 < m_cols input →
  m_rows input < 2 ^ 30 → m_cols input < 2 ^ 30 →
  m_rows output = m_rows input → m_cols output = m_cols input →
  m_rows kernel / 2 ≤ m_cols input →
  let positions := filter_positions (m_rows input) (m_cols input)
                                    (m_rows kernel / 2) (m_cols kernel / 2) in
  filter_log ndebug input output kernel
  = Returned ((λ a, (at_ output a.1 a.2, window_pairs input kernel a.1 a.2))
                <$> positions, [])
  ∧ (∀ a, a ∈ positions → in_grid (m_rows input) (m_cols input) a)
  ∧ (m_rows kernel / 2 = m_cols kernel / 2 →
     NoDup positions
     ∧ ∀ a, a ∈ positions ↔ in_grid (m_rows input) (m_cols input) a).
Proof.
  intros OR OC HR HC SR SC IR IC ER EC Hfit positions.
  pose proof (Z.div_mod (m_rows kernel) 2 ltac:(lia)) as HkR. rewrite OR in HkR.
  pose proof (Z.div_mod (m_cols kernel) 2 ltac:(lia)) as HkC. rewrite OC in HkC.
  assert (0 ≤ m_rows kernel / 2) by (apply Z.div_pos; lia).
  assert (0 ≤ m_cols kernel / 2) by (apply Z.div_pos; lia).
  split_and!.
  - unfold filter_log.
    rewrite (filter_fold ndebug input output kernel log_accm log_eval) by done.
    by rewrite fold_log_at_position.
  - intros a. apply filter_positions_in_grid; lia.
  - intros E. subst positions. rewrite <- E. apply filter_positions_tile; lia.
Qed.

(** * Further properties of the code *)

(** ** Addresses of a grid over real storage *)

(** ** Addresses of a valid grid *)

Lemma at_valid {sz} (m : MatrixWrapper sz) y x :
  valid m → 0 ≤ y < m_rows m → 0 ≤ x < m_cols m →
  at_ m y x = m_start m + sz * (m_step m * y + x)
  ∧ m_start m ≤ at_ m y x
  ∧ at_ m y x + sz
    ≤ m_start m + sz * (m_step m * (m_rows m - 1) + m_cols m).
Proof.
  intros (Hsz & Hs & Hr & Hc & Hfit) Hy Hx.
  specialize (Hfit ltac:(lia)).
  assert (0 ≤ m_step m * y + x) by nia.
  assert (m_step m * y + x + 1 ≤ m_step m * (m_rows m - 1) + m_cols m) by nia.
  assert (E : at_ m y x = m_start m + sz * (m_step m * y + x)).
  { rewrite at_eq. unfold ptr_add. apply Z.mod_small. nia. }
  rewrite E. split_and!; [done|nia|nia].
Qed.

Lemma at_inj {sz} (m : MatrixWrapper sz) y x y' x' :
  valid m →
  0 ≤ y < m_rows m → 0 ≤ x < m_cols m →
  0 ≤ y' < m_rows m → 0 ≤ x' < m_cols m →
  at_ m y x = at_ m y' x' → y = y' ∧ x = x'.
Proof.
  intros Hv Hy Hx Hy' Hx'.
  destruct (at_valid m y x Hv Hy Hx) as (E & _ & _).
  destruct (at_valid m y' x' Hv Hy' Hx') as (E' & _ & _).
  rewrite E, E'.
  destruct Hv as (Hsz & Hs & Hr & Hc & Hfit). intros H.
  assert (m_step m * y + x = m_step m * y' + x') as H' by nia.
  assert (y = y') by nia. subst y'. split; [done|lia].
Qed.


Lemma grid_padded_valid : valid grid_padded.
Proof. unfold valid, grid_padded, SIZE_MOD. simpl. lia. Qed.



(** X2.  [for_each] on a valid grid whose row count fits [int] hands the
    functor every element of the grid and no element twice: the addresses it
    is called with are pairwise different. *)
Theorem for_each_no_element_twice {sz : Z} (m : MatrixWrapper sz) :
  valid m → m_rows m ≤ 2 ^ 31 →
  NoDup (for_each_log m)
  ∧ ∀ a, a ∈ for_each_log m
         ↔ ∃ y x, 0 ≤ y < m_rows m ∧ 0 ≤ x < m_cols m ∧ a = at_ m y x.
Proof.
  intros Hv Hint. rewrite for_each_log_eq. split.
  - apply NoDup_fmap_2_strong; [|apply NoDup_row_major].
    intros [y x] [y' x'] Ha Ha' E.
    apply elem_of_row_major in Ha, Ha'.
    rewrite !cell_at in E by lia.
    apply (at_inj m y x y' x' Hv) in E as [-> ->]; [done|lia..].
  - intros a. rewrite list_elem_of_fmap. split.
    + intros ([y x] & -> & Ha). apply elem_of_row_major in Ha.
      exists y, x. split_and!; try lia. apply cell_at. lia.
    + intros (y & x & Hy & Hx & ->). exists (y, x). split.
      * symmetry. apply cell_at. lia.
      * by apply elem_of_row_major.
Qed.

Lemma for_each_no_element_twice_witness : NoDup (for_each_log grid_padded).
Proof.
  apply (for_each_no_element_twice grid_padded grid_padded_valid).
  simpl. lia.
Defined.

(** ** crop, once more *)

Lemma at_crop ndebug {sz} (m w : MatrixWrapper sz) top left rows cols i j :
  crop ndebug m top left rows cols = Returned w →
  at_ w i j = at_ m (top + i) (left + j).
Proof.
  intros E. apply crop_origin in E as (Hs & Ht & _ & _).
  rewrite !at_eq, Hs, Ht, ptr_add_ptr_add. f_equal. lia.
Qed.

(** X3.  Whenever [crop] returns, the new view has the step of the old one,
    the rows and cols asked for, its origin [step*top + left] elements after
    the old origin, and its element [(i, j)] is the element
    [(top + i, left + j)] of the old view: the two views share the storage. *)
Theorem crop_shares_storage (ndebug : bool) {sz : Z} (m w : MatrixWrapper sz)
    (top left rows cols : Z) :
  crop ndebug m top left rows cols = Returned w →
  m_start w = ptr_add sz (m_start m) (m_step m * top + left)
  ∧ m_step w = m_step m ∧ m_rows w = rows ∧ m_cols w = cols
  ∧ ∀ i j, at_ w i j = at_ m (top + i) (left + j).
Proof.
  intros E. destruct (crop_origin _ _ _ _ _ _ _ E) as (Hs & Ht & Hr & Hc).
  split_and!; try done. intros i j. by apply (at_crop ndebug m w top left rows cols).
Qed.

Lemma crop_shares_storage_witness :
  ∃ w, crop false grid_padded 1 1 2 2 = Returned w
       ∧ m_step w = 6 ∧ at_ w 1 1 = at_ grid_padded 2 2.
Proof.
  exists (mkMatrixWrapper 92 2 2 6). split; [reflexivity|].
  destruct (crop_shares_storage false grid_padded (mkMatrixWrapper 92 2 2 6)
              1 1 2 2 eq_refl) as (_ & Ht & _ & _ & Hat).
  split; [exact Ht | exact (Hat 1 1)].
Defined.







(** X6.  With assertions, a crop with offsets from 0 to below [2^31] and
    sizes from 0 to below [2^63] (so that offset plus size does not wrap
    round [size_t]) returns exactly when the rectangle lies inside the view;
    it then is a valid grid whenever the view is one, and every element of it
    is an element of the view.  A rectangle that reaches outside stops the
    program at the assertion. *)
Theorem crop_checked {sz : Z} (m : MatrixWrapper sz) (top left rows cols : Z) :
  0 ≤ top < 2 ^ 31 → 0 ≤ left < 2 ^ 31 → 0 ≤ rows < 2 ^ 63 → 0 ≤ cols < 2 ^ 63 →
  (top + rows ≤ m_rows m ∧ left + cols ≤ m_cols m →
   ∃ w, crop false m top left rows cols = Returned w
        ∧ (valid m → valid w)
        ∧ ∀ i j, 0 ≤ i < rows → 0 ≤ j < cols →
                 at_ w i j = at_ m (top + i) (left + j)
                 ∧ 0 ≤ top + i < m_rows m ∧ 0 ≤ left + j < m_cols m)
  ∧ (m_rows m < top + rows ∨ m_cols m < left + cols →
     crop false m top left rows cols = Failed AssertionFailed).
Proof.
  intros Ht Hl Hr Hc.
  assert (Er : size_add (to_size top) rows = top + rows).
  { unfold size_add, to_size. rewrite Zplus_mod_idemp_l.
    apply Z.mod_small. unfold SIZE_MOD. lia. }
  assert (Ec : size_add (to_size left) cols = left + cols).
  { unfold size_add, to_size. rewrite Zplus_mod_idemp_l.
    apply Z.mod_small. unfold SIZE_MOD. lia. }
  split.
  - intros [HR HC].
    destruct (crop_ok false m top left rows cols) as (w & E & Rw & Cw);
      [lia..|].
    exists w. split; [done|]. split.
    + intros (Hsz & Hs & HR' & HC' & Hfit).
      destruct (crop_origin _ _ _ _ _ _ _ E) as (Sw & Tw & _ & _).
      unfold valid. rewrite Sw, Tw, Rw, Cw.
      split_and!; try lia.
      * apply ptr_add_range.
      * intros Hpos. specialize (Hfit ltac:(lia)).
        set (a := m_step m * top + left).
        set (b := m_step m * (rows - 1) + cols).
        set (T := m_step m * (m_rows m - 1) + m_cols m) in *.
        assert (0 ≤ a) by (unfold a; nia).
        assert (0 ≤ b) by (unfold b; nia).
        assert (a + b ≤ T) by (unfold a, b, T; nia).
        assert (0 ≤ sz * a) by nia.
        assert (0 ≤ sz * b) by nia.
        assert (sz * (a + b) ≤ sz * T) by (apply Z.mul_le_mono_nonneg_l; lia).
        unfold ptr_add. rewrite Z.mod_small by lia. lia.
    + intros i j Hi Hj. split; [|lia].
      by apply (at_crop false m w top left rows cols).
  - intros H. unfold crop. rewrite assert_false_fails; [done|].
    rewrite Er, Ec. apply andb_false_iff.
    destruct H; [left|right]; apply Z.leb_gt; lia.
Qed.

Lemma crop_checked_witness :
  (∃ w, crop false grid_padded 1 1 2 2 = Returned w)
  ∧ crop false grid_padded 2 0 2 4 = Failed AssertionFailed.
Proof.
  split.
  - destruct (crop_checked grid_padded 1 1 2 2) as [H _]; try lia.
    destruct H as (w & E & _); [simpl; lia|]. by exists w.
  - destruct (crop_checked grid_padded 2 0 2 4) as [_ H]; try lia.
    apply H. left. simpl. lia.
Defined.

(** ** copy_to, set, create *)




(** X9.  [Matrix(rows, cols)] with rows, cols and the product [rows * cols]
    all within the range of [int]: with sizes that are not negative and
    storage left it returns a packed grid (step = cols) of that shape in
    storage that was not handed out before, a valid grid at the old
    allocation frontier whose elements lie between the old and the new
    frontier, and the contents of the store are untouched.  Without storage
    left it fails with [BadAlloc]. *)
Theorem create_fresh {sz : Z} {V : Type} (rows cols : Z) (st : store V) :
  0 < sz → 0 ≤ brk st →
  - 2 ^ 31 ≤ rows < 2 ^ 31 → - 2 ^ 31 ≤ cols < 2 ^ 31 →
  - 2 ^ 31 ≤ rows * cols < 2 ^ 31 →
  (0 ≤ rows → 0 ≤ cols → brk st + sz * (rows * cols) < SIZE_MOD →
   ∃ m st',
     create (sz := sz) rows cols st = Returned (m, st')
     ∧ view m = mkMatrixWrapper (brk st) rows cols cols
     ∧ m_data m = brk st
     ∧ mem st' = mem st
     ∧ brk st' = brk st + sz * (rows * cols)
     ∧ valid (view m)
     ∧ ∀ y x, 0 ≤ y < rows → 0 ≤ x < cols →
              brk st ≤ at_ (view m) y x ∧ at_ (view m) y x + sz ≤ brk st')
  ∧ (0 ≤ rows * cols → SIZE_MOD < brk st + sz * (rows * cols) →
     create (sz := sz) rows cols st = Failed BadAlloc).
Proof.
  intros Hsz Hb Hr Hc Hrc. split.
  - intros HR HC Hfit. unfold create, new_array.
    rewrite (to_int_id (rows * cols)) by lia.
    rewrite !to_size_id by (unfold SIZE_MOD; nia).
    destruct (Z.leb_spec (brk st + sz * (rows * cols)) SIZE_MOD) as [_|?]; [|lia].
    cbn [bind]. eexists _, _. split; [reflexivity|]. cbn [view m_data mem brk].
    assert (Hv : valid (mkMatrixWrapper (sz := sz) (brk st) rows cols cols)).
    { unfold valid. cbn [m_start m_rows m_cols m_step].
      split_and!; lia. }
    split_and!; try done.
    intros y x Hy Hx.
    destruct (at_valid _ y x Hv Hy Hx) as (_ & Hlo & Hhi).
    cbn [m_start m_rows m_cols m_step] in Hlo, Hhi.
    replace (cols * (rows - 1) + cols) with (rows * cols) in Hhi by lia. lia.
  - intros Hpos H. unfold create, new_array.
    rewrite (to_int_id (rows * cols)) by lia.
    rewrite to_size_id by (unfold SIZE_MOD; lia).
    by destruct (Z.leb_spec (brk st + sz * (rows * cols)) SIZE_MOD); [lia|].
Qed.

Lemma create_fresh_witness :
  ∃ m st', create (sz := 4) 3 5 store_padded = Returned (m, st')
           ∧ view m = mkMatrixWrapper 2048 3 5 5 ∧ brk st' = 2108.
Proof.
  destruct (create_fresh (sz := 4) 3 5 store_padded) as [H _];
    try (simpl; lia).
  destruct H as (m & st' & E & Hview & _ & _ & Hbrk & _);
    try (unfold SIZE_MOD; simpl; lia).
  exists m, st'. split_and!; [exact E | exact Hview | exact Hbrk].
Defined.

(** ** for_each_pair over three and four grids *)

Lemma for_loop_walk_gen {P S} (body : Z → P * S → P * S) (pos : Z → P)
    (act : P → S → S) n :
  (∀ i j s, body i (pos j, s) = (pos (j + 1), act (pos j) s)) →
  ∀ i k s,
    for_loop n i body (pos k, s)
    = (pos (k + Z.of_nat n),
       fold_left (λ s x, act (pos x) s) (seqZ k (Z.of_nat n)) s).
Proof.
  intros Hbody. induction n as [|n IH]; intros i k s.
  - simpl. by rewrite Z.add_0_r.
  - rewrite seqZ_cons by lia. cbn [for_loop fold_left].
    rewrite Hbody, IH. f_equal; [f_equal; lia|]. do 2 f_equal. lia.
Qed.

(** A loop whose state is a tuple of pointers and a functor state: when the
    pointers at round [j] are [pos j], the loop is the fold of the functor
    over the pointers of its rounds. *)
Lemma for_walk_gen {P S} (body : Z → P * S → P * S) (pos : Z → P)
    (act : P → S → S) k lo hi p s :
  pos k = p →
  (∀ i j s, body i (pos j, s) = (pos (j + 1), act (pos j) s)) →
  snd (for_ lo hi body (p, s))
  = fold_left (λ s x, act (pos x) s) (seqZ k (hi - lo)) s.
Proof.
  intros <- Hbody. unfold for_. rewrite (for_loop_walk_gen body pos act) by done.
  simpl. destruct (Z_le_gt_dec 0 (hi - lo)).
  - by rewrite Z2Nat.id.
  - rewrite Z2Nat.nonpos, (seqZ_nil k (hi - lo)) by lia. done.
Qed.


Lemma assert_passes ndebug c :
  ndebug = true ∨ c = true → assert_ ndebug c = Returned tt.
Proof. intros [-> | ->]; unfold assert_; [done|by rewrite orb_true_r]. Qed.

Section ForeachPair3Facts.
Context {S : Type} {sz1 sz2 sz3 : Z}.
Variable mat1 : MatrixWrapper sz1.
Variable mat2 : MatrixWrapper sz2.
Variable mat3 : MatrixWrapper sz3.
Variable func : Z → Z → Z → Z → Z → Z → S → S.
Hypothesis rows_int : m_rows mat1 ≤ 2 ^ 31.






End ForeachPair3Facts.

Section ForeachPair4Facts.
Context {S : Type} {sz1 sz2 sz3 sz4 : Z}.
Variable mat1 : MatrixWrapper sz1.
Variable mat2 : MatrixWrapper sz2.
Variable mat3 : MatrixWrapper sz3.
Variable mat4 : MatrixWrapper sz4.
Variable func : Z → Z → Z → Z → Z → Z → Z → Z → S → S.
Hypothesis rows_int : m_rows mat1 ≤ 2 ^ 31.






End ForeachPair4Facts.

(** ** The templates at MatrixWrapper and at IdxMap *)

Lemma for_each_able_MatrixWrapper {S sz} (mat : MatrixWrapper sz)
    (func : Z → S → S) s :
  for_each_able mat func s = for_each mat func s.
Proof. reflexivity. Qed.

Lemma for_each_pair_able_MatrixWrapper {S sz} (mat : MatrixWrapper sz)
    (func : Z → Z → S → S) s :
  for_each_pair_able mat func s = for_each_pair mat func s.
Proof. reflexivity. Qed.

Lemma to_size_succ j : size_add (to_size j) 1 = to_size (j + 1).
Proof. unfold size_add, to_size. by rewrite Zplus_mod_idemp_l. Qed.

Ltac idx_eq :=
  unfold IdxMap_index, Idx_add_assign, Idx_add_assign_step, Idx_add;
  cbn [idx_x idx_y];
  rewrite ?to_size_succ;
  repeat first [ reflexivity
               | apply (f_equal2 pair)
               | apply (f_equal2 mkIdx)
               | apply (f_equal to_size); lia
               | unfold size_add, to_size; rewrite ?Zplus_mod_idemp_l;
                 apply (f_equal (λ z, z mod SIZE_MOD)); lia ].
Ltac idx_step := intros; cbn beta iota; idx_eq.

Section IdxMapFacts.
Context {S : Type}.
Variable m : IdxMap.
Hypothesis rows_int : idx_rows m ≤ 2 ^ 31.
Hypothesis cols_size : idx_cols m ≤ SIZE_MOD.

Lemma for_each_IdxMap_fold (func : Idx → S → S) s :
  for_each_able m func s
  = fold_left (λ s a, func (idx_of a) s)
              (row_major (idx_rows m) (idx_cols m)) s.
Proof.
  unfold for_each_able. rewrite for_fold, Z.sub_0_r.
  unfold row_major. rewrite fold_left_bind.
  apply fold_left_ext_in. intros s' y Hy. apply elem_of_seqZ in Hy.
  cbn zeta. cbn [fe_row fe_cols fe_next IdxMap_ForEachAble].
  rewrite to_int_id by lia.
  rewrite (for_walk_gen _ (λ j, mkIdx (to_size j) (to_size y))
             (λ p s, func p s) 0);
    [ | idx_eq | idx_step ].
  rewrite Z.sub_0_r, fold_left_fmap.
  apply fold_left_ext_in. intros s'' x Hx. apply elem_of_seqZ in Hx.
  unfold idx_of. cbn [fst snd].
  rewrite !to_size_id by (unfold SIZE_MOD in *; lia). done.
Qed.

Lemma first_column_IdxMap (func : Idx → Idx → S → S) s :
  snd (for_ 1 (idx_rows m)
            (λ _ '(up, down, s),
               (Idx_add_assign_step up, Idx_add_assign_step down, func up down s))
            (IdxMap_index m 0, IdxMap_index m 1, s))
  = fold_left (λ s e, func (idx_of e.1) (idx_of e.2) s)
              (first_column_pairs (idx_rows m)) s.
Proof.
  rewrite (for_walk_gen _ (λ j, (mkIdx 0 (to_size (j - 1)), mkIdx 0 (to_size j)))
             (λ '(up, down) s, func up down s) 1);
    [ | idx_eq | idx_step ].
  unfold first_column_pairs. rewrite fold_left_fmap.
  apply fold_left_ext_in. intros s' y Hy. apply elem_of_seqZ in Hy.
  unfold idx_of. cbn [fst snd].
  rewrite !to_size_id by (unfold SIZE_MOD in *; lia). done.
Qed.

Lemma first_row_IdxMap (func : Idx → Idx → S → S) s :
  snd (for_ 1 (idx_cols m)
            (λ _ '(lf, rt, s),
               (Idx_add_assign lf 1, Idx_add_assign rt 1, func lf rt s))
            (IdxMap_index m 0, Idx_add (IdxMap_index m 0) 1, s))
  = fold_left (λ s e, func (idx_of e.1) (idx_of e.2) s)
              (first_row_pairs (idx_cols m)) s.
Proof.
  rewrite (for_walk_gen _ (λ j, (mkIdx (to_size (j - 1)) 0, mkIdx (to_size j) 0))
             (λ '(lf, rt) s, func lf rt s) 1);
    [ | idx_eq | idx_step ].
  unfold first_row_pairs. rewrite fold_left_fmap.
  apply fold_left_ext_in. intros s' x Hx. apply elem_of_seqZ in Hx.
  unfold idx_of. cbn [fst snd].
  rewrite !to_size_id by (unfold SIZE_MOD in *; lia). done.
Qed.

Lemma rest_IdxMap (func : Idx → Idx → S → S) y s :
  1 ≤ y < idx_rows m →
  snd (for_ 1 (idx_cols m)
            (λ _ '(up, lf, center, s),
               (Idx_add_assign up 1, Idx_add_assign lf 1, Idx_add_assign center 1,
                func lf center (func up center s)))
            (Idx_add (IdxMap_index m (to_int (size_sub y 1))) 1,
             IdxMap_index m (to_int y),
             Idx_add (IdxMap_index m (to_int y)) 1, s))
  = fold_left (λ s e, func (idx_of e.1) (idx_of e.2) s)
              (seqZ 1 (idx_cols m - 1) ≫=
                 (λ x, [((y - 1, x), (y, x)); ((y, x - 1), (y, x))])) s.
Proof.
  intros Hy.
  rewrite size_sub_id by (unfold SIZE_MOD; lia).
  rewrite !(to_int_id y), !(to_int_id (y - 1)) by lia.
  rewrite (for_walk_gen _
             (λ j, (mkIdx (to_size j) (to_size (y - 1)),
                    mkIdx (to_size (j - 1)) (to_size y),
                    mkIdx (to_size j) (to_size y)))
             (λ '(up, lf, center) s, func lf center (func up center s)) 1);
    [ | idx_eq | idx_step ].
  rewrite fold_left_bind. apply fold_left_ext_in.
  intros s'' x Hx. apply elem_of_seqZ in Hx.
  cbn [fold_left]. unfold idx_of. cbn [fst snd].
  rewrite !to_size_id by (unfold SIZE_MOD in *; lia). done.
Qed.

Lemma for_each_pair_IdxMap_fold (func : Idx → Idx → S → S) s :
  for_each_pair_able m func s
  = fold_left (λ s e, func (idx_of e.1) (idx_of e.2) s)
              (pair_order (idx_rows m) (idx_cols m)) s.
Proof.
  unfold for_each_pair_able. cbn zeta.
  cbn [fe_row fe_rows fe_cols fe_next fe_plus_1 fe_next_row IdxMap_ForEachAble].
  unfold pair_order.
  rewrite !fold_left_app, first_column_IdxMap, first_row_IdxMap.
  rewrite for_fold. unfold rest_pairs. rewrite fold_left_bind.
  apply fold_left_ext_in. intros s' y Hy. apply elem_of_seqZ in Hy.
  apply rest_IdxMap. lia.
Qed.
End IdxMapFacts.

Lemma at_idx_cell {sz} (mat : MatrixWrapper sz) a : at_idx mat (idx_of a) = cell mat a.
Proof. reflexivity. Qed.





(** X12.  [for_each] over an [IdxMap] of [R] rows and [C] columns ([R] within
    the range of the [int] that [operator[]] takes, [C] a [size_t]) hands the
    functor the index [Idx(x, y)] of every position, in row-major order:
    whatever the functor, the run is its fold over the row-major list of
    positions.  Every position is handed over once, and none outside the
    map. *)
Theorem for_each_IdxMap_row_major {S : Type} (m : IdxMap)
    (func : Idx → S → S) (s : S) :
  idx_rows m ≤ 2 ^ 31 → idx_cols m ≤ SIZE_MOD →
  for_each_able m func s
  = fold_left (λ s a, func (mkIdx (snd a) (fst a)) s)
              (row_major (idx_rows m) (idx_cols m)) s
  ∧ for_each_IdxMap_log m
    = (λ a, mkIdx (snd a) (fst a)) <$> row_major (idx_rows m) (idx_cols m)
  ∧ NoDup (for_each_IdxMap_log m)
  ∧ ∀ idx, idx ∈ for_each_IdxMap_log m
           ↔ 0 ≤ idx_y idx < idx_rows m ∧ 0 ≤ idx_x idx < idx_cols m.
Proof.
  intros Hr Hc.
  assert (Hlog : for_each_IdxMap_log m
                 = idx_of <$> row_major (idx_rows m) (idx_cols m)).
  { unfold for_each_IdxMap_log. rewrite for_each_IdxMap_fold by done.
    apply (fold_left_snoc_log idx_of _ []). }
  split_and!.
  - by apply for_each_IdxMap_fold.
  - exact Hlog.
  - rewrite Hlog. apply NoDup_fmap_2; [|apply NoDup_row_major].
    intros [y x] [y' x'] E. unfold idx_of in E. simpl in E. congruence.
  - intros [x y]. rewrite Hlog, list_elem_of_fmap. simpl. split.
    + intros ([y' x'] & E & Ha). apply elem_of_row_major in Ha.
      unfold idx_of in E. simpl in E. inversion E. lia.
    + intros [Hy Hx]. exists (y, x). split; [done|].
      by apply elem_of_row_major.
Qed.

Lemma for_each_IdxMap_row_major_witness :
  for_each_IdxMap_log (mkIdxMap 2 3)
  = (λ a, mkIdx (snd a) (fst a)) <$> row_major 2 3.
Proof.
  apply (for_each_IdxMap_row_major (mkIdxMap 2 3) (λ _ (u : unit), u) tt);
    unfold SIZE_MOD; simpl; lia.
Defined.

(** X13.  [for_each_pair] over an [IdxMap] of [R] rows and [C] columns ([R]
    within the range of the [int] that [operator[]] takes, at most [2^31],
    [C] a [size_t]) hands the functor the indices of
    the two positions of every entry of [pair_order], in that order: the
    vertical edges of column 0, the horizontal edges of row 0, then for every
    further position its upper and its left edge; the first index is the
    upper or left one. *)
Theorem for_each_pair_IdxMap_order {S : Type} (m : IdxMap)
    (func : Idx → Idx → S → S) (s : S) :
  idx_rows m ≤ 2 ^ 31 → idx_cols m ≤ SIZE_MOD →
  for_each_pair_able m func s
  = fold_left (λ s e, func (mkIdx (snd e.1) (fst e.1)) (mkIdx (snd e.2) (fst e.2)) s)
              (pair_order (idx_rows m) (idx_cols m)) s
  ∧ ∀ a b, (a, b) ∈ for_each_pair_IdxMap_log m →
           (idx_y b = idx_y a + 1 ∧ idx_x b = idx_x a)
           ∨ (idx_y b = idx_y a ∧ idx_x b = idx_x a + 1).
Proof.
  intros Hr Hc. split; [by apply for_each_pair_IdxMap_fold|].
  intros a b. unfold for_each_pair_IdxMap_log.
  rewrite for_each_pair_IdxMap_fold by done.
  rewrite (fold_left_snoc_log (λ e, (idx_of e.1, idx_of e.2)) _ []).
  rewrite app_nil_l, list_elem_of_fmap.
  intros ([p q] & E & Hin). inversion E; subst a b. clear E.
  unfold pair_order in Hin. rewrite !elem_of_app in Hin.
  destruct Hin as [Hin | [Hin | Hin]].
  - apply elem_of_first_column_pairs in Hin as (y & _ & -> & ->). simpl. lia.
  - apply elem_of_first_row_pairs in Hin as (x & _ & -> & ->). simpl. lia.
  - apply elem_of_rest_pairs in Hin as (y & x & _ & _ & -> & [-> | ->]);
      simpl; lia.
Qed.

Lemma for_each_pair_IdxMap_order_witness :
  for_each_pair_IdxMap_log (mkIdxMap 2 2)
  = fold_left (λ l e, l ++ [(mkIdx (snd e.1) (fst e.1), mkIdx (snd e.2) (fst e.2))])
              (pair_order 2 2) [].
Proof.
  apply (for_each_pair_IdxMap_order (mkIdxMap 2 2)
           (λ i1 i2 (l : list (Idx * Idx)), l ++ [(i1, i2)]) []);
    unfold SIZE_MOD; simpl; lia.
Defined.

(** X14.  The indices of an [IdxMap] made of a grid of [R] rows and [C]
    columns ([R] within the range of the [int] that [operator[]] takes, at
    most [2^31], [C] a [size_t]) address that grid:
    [for_each] over [IdxMap(mat)] with a functor that looks its index up in
    [mat] by [mat(idx)] does what [for_each] over [mat] does with the
    elements, the same holds for [for_each_pair], and looking the index up in
    a second grid of the same shape too does what [for_each] over the two
    grids does. *)
Theorem IdxMap_addresses_grid (ndebug : bool) {S : Type} {sz sz2 : Z}
    (mat : MatrixWrapper sz) (mat2 : MatrixWrapper sz2)
    (f : Z → S → S) (f2 : Z → Z → S → S) (g : Z → Z → S → S) (s : S) :
  m_rows mat ≤ 2 ^ 31 → m_cols mat ≤ SIZE_MOD →
  for_each_able (IdxMap_of mat) (λ idx, f (at_idx mat idx)) s = for_each mat f s
  ∧ for_each_pair_able (IdxMap_of mat)
      (λ idx1 idx2, g (at_idx mat idx1) (at_idx mat idx2)) s
    = for_each_pair mat g s
  ∧ (m_rows mat2 = m_rows mat ∧ m_cols mat2 = m_cols mat →
     Returned (for_each_able (IdxMap_of mat)
                 (λ idx, f2 (at_idx mat idx) (at_idx mat2 idx)) s)
     = for_each_2 ndebug mat mat2 f2 s).
Proof.
  intros Hr Hc. split_and!.
  - rewrite for_each_IdxMap_fold, for_each_fold by done. done.
  - rewrite for_each_pair_IdxMap_fold, for_each_pair_fold by done. done.
  - intros H. rewrite for_each_IdxMap_fold, (for_each_2_fold ndebug) by auto.
    done.
Qed.

Lemma IdxMap_addresses_grid_witness :
  for_each_able (S := list Z) (IdxMap_of grid_padded)
                (λ idx l, l ++ [at_idx grid_padded idx]) []
  = for_each_log grid_padded.
Proof.
  apply (IdxMap_addresses_grid false grid_padded grid_packed
           (λ p (l : list Z), l ++ [p]) (λ _ _ l, l) (λ _ _ l, l) []);
    unfold SIZE_MOD; simpl; lia.
Defined.

(** X15.  [for_each_pair] on a grid without rows still walks row 0: on a
    grid of 0 rows and [C] columns the functor is called [C - 1] times (for
    [C >= 1]), with the addresses of the neighbours
    [(0, x - 1)] and [(0, x)] of a row that the grid does not have.  In the
    same way a grid of [R] rows and 0 columns gets [R - 1] calls on the
    elements of a column 0 that it does not have. *)
Theorem for_each_pair_on_empty_grid {sz : Z} (mat : MatrixWrapper sz) :
  m_rows mat ≤ 2 ^ 31 →
  (m_rows mat = 0 →
   for_each_pair_log mat
   = (λ x, (at_ mat 0 (x - 1), at_ mat 0 x)) <$> seqZ 1 (m_cols mat - 1)
   ∧ (1 ≤ m_cols mat →
      Z.of_nat (length (for_each_pair_log mat)) = m_cols mat - 1))
  ∧ (m_cols mat = 0 →
     for_each_pair_log mat
     = (λ y, (at_ mat (y - 1) 0, at_ mat y 0)) <$> seqZ 1 (m_rows mat - 1)
     ∧ (1 ≤ m_rows mat →
        Z.of_nat (length (for_each_pair_log mat)) = m_rows mat - 1)).
Proof.
  intros Hint. split; intros E.
  - assert (Hlog : for_each_pair_log mat
                   = (λ x, (at_ mat 0 (x - 1), at_ mat 0 x))
                       <$> seqZ 1 (m_cols mat - 1)).
    { rewrite for_each_pair_log_eq by done.
      unfold pair_order, first_column_pairs, rest_pairs, first_row_pairs.
      rewrite E. simpl. rewrite app_nil_r, <- list_fmap_compose.
      apply list_fmap_ext. intros _ x _. simpl.
      by rewrite !cell_at by lia. }
    split; [done|]. intros HC. rewrite Hlog, length_fmap, length_seqZ. lia.
  - assert (Hlog : for_each_pair_log mat
                   = (λ y, (at_ mat (y - 1) 0, at_ mat y 0))
                       <$> seqZ 1 (m_rows mat - 1)).
    { rewrite for_each_pair_log_eq by done.
      unfold pair_order, first_column_pairs, rest_pairs, first_row_pairs.
      rewrite E. simpl.
      assert (Hnil : ∀ l : list Z,
                l ≫= (λ _ : Z, @nil ((Z * Z) * (Z * Z))) = []).
      { induction l as [|? ? IH]; [done|]. by rewrite bind_cons, IH. }
      rewrite Hnil, app_nil_r, <- list_fmap_compose.
      apply list_fmap_ext. intros i y Hy. apply list_elem_of_lookup_2 in Hy.
      apply elem_of_seqZ in Hy. simpl.
      by rewrite !cell_at by lia. }
    split; [done|]. intros HR. rewrite Hlog, length_fmap, length_seqZ. lia.
Qed.

Lemma for_each_pair_on_empty_grid_witness :
  for_each_pair_log (mkMatrixWrapper (sz := 4) 64 0 3 6)
  = [(at_ (mkMatrixWrapper (sz := 4) 64 0 3 6) 0 0,
      at_ (mkMatrixWrapper (sz := 4) 64 0 3 6) 0 1);
     (at_ (mkMatrixWrapper (sz := 4) 64 0 3 6) 0 1,
      at_ (mkMatrixWrapper (sz := 4) 64 0 3 6) 0 2)].
Proof.
  apply (for_each_pair_on_empty_grid (mkMatrixWrapper (sz := 4) 64 0 3 6));
    [simpl; lia | reflexivity].
Defined.

(** ** filter: what the functors are called with *)

(** A window in the central part is the whole kernel. *)
Lemma window_pairs_central {sz1 sz3} (input : MatrixWrapper sz1)
    (kernel : MatrixWrapper sz3) y x :
  m_rows kernel mod 2 = 1 → m_cols kernel mod 2 = 1 →
  0 ≤ m_rows kernel → 0 ≤ m_cols kernel →
  m_rows kernel / 2 ≤ y < m_rows input - m_rows kernel / 2 →
  m_cols kernel / 2 ≤ x < m_cols input - m_cols kernel / 2 →
  window_pairs input kernel y x
  = (λ a, (at_ input (y - m_rows kernel / 2 + a.1) (x - m_cols kernel / 2 + a.2),
           at_ kernel a.1 a.2))
      <$> row_major (m_rows kernel) (m_cols kernel).
Proof.
  intros OR OC HR HC Hy Hx.
  pose proof (Z.div_mod (m_rows kernel) 2 ltac:(lia)) as HkR. rewrite OR in HkR.
  pose proof (Z.div_mod (m_cols kernel) 2 ltac:(lia)) as HkC. rewrite OC in HkC.
  unfold window_pairs. cbn zeta.
  rewrite (Z.max_l (y - _) 0), (Z.max_l (x - _) 0) by lia.
  rewrite (Z.min_l (y + _ + 1)), (Z.min_l (x + _ + 1)) by lia.
  replace (y + m_rows kernel / 2 + 1 - (y - m_rows kernel / 2))
    with (m_rows kernel) by lia.
  replace (x + m_cols kernel / 2 + 1 - (x - m_cols kernel / 2))
    with (m_cols kernel) by lia.
  apply list_fmap_ext. intros _ [i j] _. cbn [fst snd]. do 2 f_equal; lia.
Qed.

(** X16.  [filter] when its three preconditions hold, the sizes of the image
    fit [int] with room to spare and the bands, which are [kernel.rows()/2]
    wide, fit the columns of the image.  In either build the run returns, and
    whatever the functors it is the fold over the output positions of
    [filter_positions] (top band, bottom band, left band, right band, central
    part) of: accumulate over the window of the position, then evaluate the
    output element of the position.  Every position is inside the image,
    every pair of every window joins an element inside the input with the
    kernel element at the same offset from the centre, and in the central
    part the window is the whole kernel in row-major order. *)
Theorem filter_folds_windows (ndebug : bool) {S : Type} {sz1 sz2 sz3 : Z}
    (input : MatrixWrapper sz1) (output : MatrixWrapper sz2)
    (kernel : MatrixWrapper sz3)
    (accm : Z → Z → S → S) (eval : Z → S → S) (s : S) :
  m_rows kernel mod 2 = 1 → m_cols kernel mod 2 = 1 →
  0 ≤ m_rows kernel → 0 ≤ m_cols kernel →
  m_rows kernel * 2 + 1 < m_rows input → m_cols kernel * 2 + 1 < m_cols input →
  m_rows input < 2 ^ 30 → m_cols input < 2 ^ 30 →
  m_rows output = m_rows input → m_cols output = m_cols input →
  m_rows kernel / 2 ≤ m_cols input →
  let kr := m_rows kernel / 2 in
  let kc := m_cols kernel / 2 in
  let positions := filter_positions (m_rows input) (m_cols input) kr kc in
  filter ndebug input output kernel accm eval s
  = Returned
      (fold_left
         (λ s a, eval (at_ output a.1 a.2)
                      (fold_left (λ s pq, accm pq.1 pq.2 s)
                                 (window_pairs input kernel a.1 a.2) s))
         positions s)
  ∧ (∀ a, a ∈ positions → in_grid (m_rows input) (m_cols input) a)
  ∧ (∀ y x p q,
       (p, q) ∈ window_pairs input kernel y x →
       ∃ yy xx,
         0 ≤ yy < m_rows input ∧ 0 ≤ xx < m_cols input
         ∧ 0 ≤ yy - y + kr < m_rows kernel ∧ 0 ≤ xx - x + kc < m_cols kernel
         ∧ p = at_ input yy xx
         ∧ q = at_ kernel (yy - y + kr) (xx - x + kc))
  ∧ (∀ y x,
       kr ≤ y < m_rows input - kr → kc ≤ x < m_cols input - kc →
       window_pairs input kernel y x
       = (λ a, (at_ input (y - kr + a.1) (x - kc + a.2), at_ kernel a.1 a.2))
           <$> row_major (m_rows kernel) (m_cols kernel)).
Proof.
  intros OR OC HR HC SR SC IR IC ER EC Hfit kr kc positions.
  assert (0 ≤ kr) by (apply Z.div_pos; lia).
  assert (0 ≤ kc) by (apply Z.div_pos; lia).
  pose proof (Z.div_mod (m_rows kernel) 2 ltac:(lia)) as HkR. rewrite OR in HkR.
  pose proof (Z.div_mod (m_cols kernel) 2 ltac:(lia)) as HkC. rewrite OC in HkC.
  split_and!.
  - by apply filter_fold.
  - intros a. apply filter_positions_in_grid; lia.
  - intros y x p q Hin.
    destruct (window_pairs_in_range input kernel y x p q OR OC HR HC Hin)
      as (yy & xx & ? & ? & ? & ? & ? & ?).
    exists yy, xx. done.
  - intros y x Hy Hx. by apply window_pairs_central.
Qed.

Lemma filter_folds_windows_witness :
  filter false input_8x4 output_8x4 kernel_3x1 log_accm log_eval ([], [])
  = Returned
      (fold_left
         (λ s a, log_eval (at_ output_8x4 a.1 a.2)
                          (fold_left (λ s pq, log_accm pq.1 pq.2 s)
                                     (window_pairs input_8x4 kernel_3x1 a.1 a.2) s))
         (filter_positions 8 4 1 0) ([], [])).
Proof.
  refine (proj1 (filter_folds_windows false input_8x4 output_8x4 kernel_3x1
                   log_accm log_eval ([], []) _ _ _ _ _ _ _ _ _ _ _));
    first [reflexivity | simpl; lia | vm_compute; discriminate].
Defined.

(** Counting the evaluations of one output element. *)
Lemma eval_count_none {A} (g : A → Z * list (Z * Z)) (l : list A) o acc :
  (∀ b, b ∈ l → fst (g b) ≠ o) → eval_count o (g <$> l, acc) = 0%nat.
Proof.
  unfold eval_count. cbn [fst]. induction l as [|b l IH]; intros H; [done|].
  rewrite fmap_cons, filter_cons_False by (apply H; left).
  apply IH. intros c Hc. apply H. by right.
Qed.

Lemma eval_count_one {A} (g : A → Z * list (Z * Z)) (l : list A) a acc :
  NoDup l → a ∈ l →
  (∀ b, b ∈ l → fst (g b) = fst (g a) → b = a) →
  eval_count (fst (g a)) (g <$> l, acc) = 1%nat.
Proof.
  intros Hnd Ha Hinj. induction Hnd as [|b l Hb Hnd IH].
  - by apply elem_of_nil in Ha.
  - unfold eval_count in *. cbn [fst] in *. rewrite fmap_cons.
    destruct (decide (fst (g b) = fst (g a))) as [E|Hne].
    + assert (b = a) as -> by (apply Hinj; [left|done]).
      rewrite filter_cons_True by done. cbn [length]. f_equal.
      apply (eval_count_none g l (fst (g a)) acc).
      intros c Hc E'. apply Hb. rewrite <- (Hinj c); [done|by right|done].
    + rewrite filter_cons_False by done.
      apply IH; [|intros c Hc; apply Hinj; by right].
      apply elem_of_cons in Ha as [->|Ha]; done.
Qed.

(** X17.  [filter] when its three preconditions hold (a kernel with an odd
    number of rows and of columns, [kernel.rows() * 2 + 1 < input.rows()] and
    the same for the columns, an output of the shape of the input), with a
    square kernel (so that the bands, [kernel.rows()/2] wide, are as wide as
    the margin of the central part), an image of fewer than [2^30] rows and
    columns and an output over real storage: in either build the run
    returns, the evaluate functor is called [rows * cols] times, exactly once
    with every element of the output and never with anything else, and no
    pair is left accumulated at the end. *)
Theorem filter_square_kernel_each_output_once (ndebug : bool) {sz1 sz2 sz3 : Z}
    (input : MatrixWrapper sz1) (output : MatrixWrapper sz2)
    (kernel : MatrixWrapper sz3) :
  m_rows kernel mod 2 = 1 → 0 ≤ m_rows kernel → m_cols kernel = m_rows kernel →
  m_rows kernel * 2 + 1 < m_rows input → m_cols kernel * 2 + 1 < m_cols input →
  m_rows input < 2 ^ 30 → m_cols input < 2 ^ 30 →
  m_rows output = m_rows input → m_cols output = m_cols input →
  valid output →
  ∃ w, filter_log ndebug input output kernel = Returned w
       ∧ snd w = []
       ∧ Z.of_nat (length (fst w)) = m_rows input * m_cols input
       ∧ (∀ y x, 0 ≤ y < m_rows output → 0 ≤ x < m_cols output →
                 eval_count (at_ output y x) w = 1%nat)
       ∧ (∀ o, (∀ y x, 0 ≤ y < m_rows output → 0 ≤ x < m_cols output →
                       o ≠ at_ output y x) →
               eval_count o w = 0%nat).
Proof.
  intros OR HR Esq SR SC IR IC ER EC Hv.
  assert (OC : m_cols kernel mod 2 = 1) by by rewrite Esq.
  assert (HC : 0 ≤ m_cols kernel) by lia.
  pose proof (Z.div_mod (m_rows kernel) 2 ltac:(lia)) as HkR. rewrite OR in HkR.
  assert (0 ≤ m_rows kernel / 2) by (apply Z.div_pos; lia).
  destruct (filter_log_when_bands_fit ndebug input output kernel
              OR OC HR HC SR SC IR IC ER EC ltac:(lia)) as (Elog & _ & Htile).
  destruct (Htile ltac:(by rewrite Esq)) as [Hnd Hin].
  set (positions := filter_positions (m_rows input) (m_cols input)
                      (m_rows kernel / 2) (m_cols kernel / 2)) in *.
  set (g := λ a : Z * Z, (at_ output a.1 a.2, window_pairs input kernel a.1 a.2)).
  exists (g <$> positions, []). split_and!.
  - exact Elog.
  - done.
  - cbn [fst]. rewrite length_fmap.
    assert (Hperm : positions ≡ₚ row_major (m_rows input) (m_cols input)).
    { apply NoDup_Permutation; [done|apply NoDup_row_major|].
      intros [y x]. rewrite Hin, elem_of_row_major. done. }
    rewrite Hperm, length_row_major. nia.
  - intros y x Hy Hx.
    change (at_ output y x) with (fst (g (y, x))).
    apply eval_count_one; [done| |].
    + apply Hin. unfold in_grid. simpl. lia.
    + intros [y' x'] Hb E. apply Hin in Hb. unfold in_grid in Hb. simpl in Hb, E.
      apply (at_inj output y' x' y x Hv) in E as [-> ->]; [done|lia..].
  - intros o Ho. apply eval_count_none. intros [y x] Hb E.
    apply Hin in Hb. unfold in_grid in Hb. simpl in Hb, E.
    apply (Ho y x); [lia..|done].
Qed.

Lemma filter_square_kernel_each_output_once_witness :
  ∃ w, filter_log false (mkMatrixWrapper (sz := 1) 0 8 8 8)
                  (mkMatrixWrapper (sz := 1) 1000 8 8 8)
                  (mkMatrixWrapper (sz := 4) 2000 3 3 3) = Returned w
       ∧ eval_count 1000 w = 1%nat.
Proof.
  destruct (filter_square_kernel_each_output_once false
              (mkMatrixWrapper (sz := 1) 0 8 8 8)
              (mkMatrixWrapper (sz := 1) 1000 8 8 8)
              (mkMatrixWrapper (sz := 4) 2000 3 3 3))
    as (w & E & _ & _ & Hone & _);
    [reflexivity | simpl; lia | reflexivity | simpl; lia | simpl; lia
    | simpl; lia | simpl; lia | reflexivity | reflexivity
    | unfold valid, SIZE_MOD; simpl; lia | ].
  exists w. split; [exact E|]. apply (Hone 0 0); simpl; lia.
Defined.



(** ** gaussian_kernel on square kernels *)

Lemma create_returns {sz : Z} {V : Type} (rows cols : Z) (st : store V) :
  0 < sz → 0 ≤ brk st → 0 ≤ rows < 2 ^ 31 → 0 ≤ cols < 2 ^ 31 →
  rows * cols < 2 ^ 31 → brk st + sz * (rows * cols) ≤ SIZE_MOD →
  create (sz := sz) rows cols st
  = Returned (mkMatrix (mkMatrixWrapper (brk st) rows cols cols) (brk st),
              mkStore (mem st) (brk st + sz * (rows * cols))).
Proof.
  intros Hsz Hb Hr Hc Hrc Hfit. unfold create, new_array.
  rewrite (to_int_id (rows * cols)) by nia.
  rewrite !to_size_id by (unfold SIZE_MOD; nia).
  by destruct (Z.leb_spec (brk st + sz * (rows * cols)) SIZE_MOD); [|lia].
Qed.

Section GaussianSquare.
Context {sz : Z} {V : Type}.
Variable gauss : Z → V.
Variable K : MatrixWrapper sz.
Variable h : Z.
Variable st0 : store V.
Hypothesis K_valid : valid K.
Hypothesis K_rows : m_rows K = 2 * h + 1.
Hypothesis K_cols : m_cols K = 2 * h + 1.
Hypothesis h_range : 0 ≤ h < 2 ^ 14.

(** The weight of the cell [(r, c)]. *)
Let val (r c : Z) : V := gauss ((c - h) * (c - h) + (r - h) * (r - h)).

(** The store differs from [st0] in cells of the kernel only, and the cells
    selected by [G] hold their weights. *)
Let wrote (G : Z → Z → Prop) (st : store V) : Prop :=
  brk st = brk st0
  ∧ (∀ a, (∀ r c, 0 ≤ r ≤ 2 * h → 0 ≤ c ≤ 2 * h → a ≠ at_ K r c) →
          read a st = read a st0)
  ∧ ∀ r c, 0 ≤ r ≤ 2 * h → 0 ≤ c ≤ 2 * h → G r c →
           read (at_ K r c) st = Some (val r c).

Lemma wrote_write G st r' c' v :
  wrote G st → 0 ≤ r' ≤ 2 * h → 0 ≤ c' ≤ 2 * h → v = val r' c' →
  wrote (λ r c, G r c ∨ (r = r' ∧ c = c')) (write (at_ K r' c') v st).
Proof.
  intros (Hb & Hout & Hin) Hr Hc ->. unfold wrote, write, read in *. cbn [mem brk].
  split_and!; [done| |].
  - intros a Ha. rewrite lookup_insert_ne; [by apply Hout|].
    intros E. by apply (Ha r' c').
  - intros r c Hr' Hc' HG.
    destruct (decide (at_ K r' c' = at_ K r c)) as [E|NE].
    + apply (at_inj K r' c' r c K_valid) in E as [-> ->]; [|lia..].
      apply lookup_insert_eq.
    + rewrite lookup_insert_ne by done. apply Hin; [done..|].
      destruct HG as [HG|[-> ->]]; done.
Qed.

Lemma wrote_weaken (G G' : Z → Z → Prop) st :
  (∀ r c, 0 ≤ r ≤ 2 * h → 0 ≤ c ≤ 2 * h → G' r c → G r c) →
  wrote G st → wrote G' st.
Proof.
  intros HG (Hb & Hout & Hin). split_and!; [done..|].
  intros r c Hr Hc H. apply Hin; [done..|]. by apply HG.
Qed.

Lemma gaussian_loops st :
  wrote (λ _ _, False) st →
  wrote (λ _ _, True)
    (for_ 0 (h + 1)
          (λ dy st,
             for_ 0 (h + 1)
                  (λ dx st,
                     let w := gauss (to_int (to_int (dx * dx) + to_int (dy * dy))) in
                     let st := write (at_ K (to_int (h - dy)) (to_int (h - dx))) w st in
                     let st := write (at_ K (to_int (h - dy)) (to_int (h + dx))) w st in
                     let st := write (at_ K (to_int (h + dy)) (to_int (h + dx))) w st in
                     write (at_ K (to_int (h + dy)) (to_int (h - dx))) w st)
                  st)
          st).
Proof.
  intros H0.
  apply (wrote_weaken (λ r c, h - (h + 1) < r < h + (h + 1))); [intros; lia|].
  apply (for_invariant (λ k st, wrote (λ r c, h - k < r < h + k) st)); [lia| |].
  - revert H0. apply wrote_weaken. intros; lia.
  - intros k st1 Hk H1.
    apply (wrote_weaken
             (λ r c, h - k < r < h + k
                     ∨ ((r = h - k ∨ r = h + k) ∧ h - (h + 1) < c < h + (h + 1))));
      [intros; lia|].
    apply (for_invariant
             (λ j st, wrote (λ r c, h - k < r < h + k
                                    ∨ ((r = h - k ∨ r = h + k) ∧ h - j < c < h + j))
                            st)); [lia| |].
    + revert H1. apply wrote_weaken. intros; lia.
    + intros j st2 Hj H2. cbn zeta.
      assert (k * k < 2 ^ 28 ∧ j * j < 2 ^ 28 ∧ 0 ≤ k * k ∧ 0 ≤ j * j)
        as (? & ? & ? & ?) by nia.
      rewrite !(to_int_id (j * j)), !(to_int_id (k * k)),
        !(to_int_id (j * j + k * k)), !(to_int_id (h - k)), !(to_int_id (h + k)),
        !(to_int_id (h - j)), !(to_int_id (h + j)) by lia.
      assert (Ev : ∀ r c, (r = h - k ∨ r = h + k) → (c = h - j ∨ c = h + j) →
                          gauss (j * j + k * k) = val r c).
      { intros r c Hr Hc. unfold val. f_equal.
        destruct Hr as [-> | ->], Hc as [-> | ->]; ring. }
      eapply wrote_weaken; cycle 1.
      { apply wrote_write; [|lia|lia|apply Ev; auto].
        apply wrote_write; [|lia|lia|apply Ev; auto].
        apply wrote_write; [|lia|lia|apply Ev; auto].
        apply wrote_write; [|lia|lia|apply Ev; auto]. exact H2. }
      intros r c Hr Hc. cbn beta. lia.
Qed.
End GaussianSquare.

(** X19.  [gaussian_kernel] for a square kernel of odd size [n] (small enough
    for the arithmetic to stay within [int], and with storage left): the
    kernel is a fresh packed [n x n] grid, every cell [(r, c)] of it holds the
    weight of its squared distance [(c - n/2)^2 + (r - n/2)^2] from the
    centre, so the centre holds the weight of distance 0 and the kernel is
    symmetric about the centre in both directions, and nothing but the cells
    of the kernel is written. *)
Theorem gaussian_kernel_square {sz : Z} {V : Type} (gauss : Z → V) (n : Z)
    (st : store V) :
  0 < sz → 0 ≤ brk st → 0 ≤ n < 2 ^ 15 → n mod 2 = 1 →
  brk st + sz * (n * n) < SIZE_MOD →
  ∃ kernel st',
    gaussian_kernel (sz := sz) gauss n n st = Returned (kernel, st')
    ∧ view kernel = mkMatrixWrapper (brk st) n n n
    ∧ brk st' = brk st + sz * (n * n)
    ∧ (∀ r c, 0 ≤ r < n → 0 ≤ c < n →
              read (at_ (view kernel) r c) st'
              = Some (gauss ((c - n / 2) * (c - n / 2) + (r - n / 2) * (r - n / 2))))
    ∧ read (at_ (view kernel) (n / 2) (n / 2)) st' = Some (gauss 0)
    ∧ (∀ r c, 0 ≤ r < n → 0 ≤ c < n →
              read (at_ (view kernel) (n - 1 - r) c) st'
              = read (at_ (view kernel) r c) st'
              ∧ read (at_ (view kernel) r (n - 1 - c)) st'
                = read (at_ (view kernel) r c) st')
    ∧ (∀ a, (∀ r c, 0 ≤ r < n → 0 ≤ c < n → a ≠ at_ (view kernel) r c) →
            read a st' = read a st).
Proof.
  intros Hsz Hb Hn Hodd Hfit.
  pose proof (Z.div_mod n 2 ltac:(lia)) as Hh. rewrite Hodd in Hh.
  set (h := n / 2) in *.
  assert (Hh0 : 0 ≤ h < 2 ^ 14) by lia.
  unfold gaussian_kernel.
  rewrite create_returns by nia. cbn [bind view].
  rewrite Z.quot_div_nonneg by lia. fold h.
  set (K := mkMatrixWrapper (sz := sz) (brk st) n n n).
  set (st1 := mkStore (mem st) (brk st + sz * (n * n))).
  assert (HK : valid K).
  { unfold valid, K. cbn [m_start m_rows m_cols m_step]. split_and!; lia. }
  pose proof (gaussian_loops gauss K h st1 HK ltac:(simpl; lia) ltac:(simpl; lia)
                Hh0 st1) as Hloops.
  cbn zeta beta in Hloops.
  destruct Hloops as (Hbrk & Hout & Hin); [split_and!; done|].
  eexists _, _. split; [reflexivity|].
  assert (Hcell : ∀ r c, 0 ≤ r < n → 0 ≤ c < n →
            read (at_ K r c) _ = Some (gauss ((c - h) * (c - h) + (r - h) * (r - h))))
    by (intros r c Hr Hc; apply Hin; [lia|lia|done]).
  split_and!.
  - done.
  - exact Hbrk.
  - exact Hcell.
  - rewrite Hcell by lia. do 2 f_equal. lia.
  - intros r c Hr Hc. rewrite !Hcell by lia. split; do 2 f_equal; nia.
  - intros a Ha. rewrite Hout; [done|]. intros r c Hr Hc. apply Ha; lia.
Qed.

Lemma gaussian_kernel_square_witness :
  ∃ kernel st',
    gaussian_kernel (sz := 4) (λ d, d) 3 3 store_padded = Returned (kernel, st')
    ∧ read (at_ (view kernel) 0 2) st' = Some 2
    ∧ read (at_ (view kernel) 1 1) st' = Some 0.
Proof.
  destruct (gaussian_kernel_square (sz := 4) (λ d, d) 3 store_padded)
    as (kernel & st' & E & _ & _ & Hcell & Hcentre & _);
    [lia | simpl; lia | lia | reflexivity | unfold SIZE_MOD; simpl; lia | ].
  exists kernel, st'. split_and!; [exact E | | exact Hcentre].
  apply (Hcell 0 2); lia.
Defined.





(** ** SegmentTree: the constructor *)

Lemma count_elements {V} (values : list V) n :
  0 ≤ n → n + Z.of_nat (length values) < 2 ^ 31 →
  fold_left (λ size _, to_int (size + 1)) values n = n + Z.of_nat (length values).
Proof.
  revert n. induction values as [|v values IH]; intros n Hn Hlen; simpl in *.
  - lia.
  - rewrite to_int_id by lia. rewrite IH by lia. lia.
Qed.

(** The loop that doubles [leaves] ends at the least power of two that is not
    below [size]. *)
Lemma grow_leaves_spec size fuel (k : nat) :
  0 ≤ size ≤ 2 ^ 30 → (k ≤ 30)%nat → (32 ≤ fuel + k)%nat →
  (k = 0%nat ∨ 2 ^ (Z.of_nat k - 1) < size) →
  ∃ K : nat, grow_leaves fuel (2 ^ Z.of_nat k) size = Some (2 ^ Z.of_nat K)
             ∧ (K ≤ 30)%nat ∧ size ≤ 2 ^ Z.of_nat K
             ∧ (K = 0%nat ∨ 2 ^ (Z.of_nat K - 1) < size).
Proof.
  intros Hsize. revert k. induction fuel as [|fuel IH]; intros k Hk Hfuel Hprev.
  - lia.
  - cbn [grow_leaves]. destruct (Z.ltb_spec (2 ^ Z.of_nat k) size) as [Hlt|Hge].
    + assert (k < 30)%nat.
      { destruct (decide (k < 30)%nat); [done|].
        assert (k = 30%nat) as -> by lia. simpl in Hlt. lia. }
      replace (2 ^ Z.of_nat k * 2) with (2 ^ Z.of_nat (Datatypes.S k))
        by (rewrite Nat2Z.inj_succ, Z.pow_succ_r; lia).
      rewrite to_int_id; cycle 1.
      { split; [pose proof (Z.pow_pos_nonneg 2 (Z.of_nat (Datatypes.S k))); lia|].
        apply Z.pow_lt_mono_r; lia. }
      apply IH; [lia|lia|]. right.
      replace (Z.of_nat (Datatypes.S k) - 1) with (Z.of_nat k) by lia. done.
    + exists k. split_and!; done.
Qed.

Lemma vec_set_Some {V} (t : list V) i v :
  0 ≤ i < Z.of_nat (length t) → vec_set t i v = Some (<[Z.to_nat i := v]> t).
Proof.
  intros H. unfold vec_set.
  destruct (Z.leb_spec 0 i); [|lia]. by destruct (Z.ltb_spec i (Z.of_nat (length t))); [|lia].
Qed.

Lemma vec_get_lookup {V} (t : list V) i :
  0 ≤ i → vec_get t i = t !! Z.to_nat i.
Proof. intros H. unfold vec_get. by destruct (Z.leb_spec 0 i); [|lia]. Qed.

(** Writing the values to consecutive places. *)
Lemma fill_leaves {V} (values : list V) : ∀ pos (t : list V),
  0 ≤ pos → pos + Z.of_nat (length values) ≤ Z.of_nat (length t) →
  Z.of_nat (length t) < SIZE_MOD →
  ∃ t',
    fold_left (λ acc v,
                 acc ≫= λ '(pos, m_tree),
                   m_tree ← vec_set m_tree pos v;
                   Some (size_add pos 1, m_tree))
              values (Some (pos, t))
    = Some (pos + Z.of_nat (length values), t')
    ∧ length t' = length t
    ∧ (∀ j, (j < length values)%nat → t' !! (Z.to_nat pos + j)%nat = values !! j)
    ∧ (∀ j, (j < Z.to_nat pos)%nat ∨ (Z.to_nat pos + length values ≤ j)%nat →
            t' !! j = t !! j).
Proof.
  induction values as [|v values IH]; intros pos t Hpos Hlen Hsz.
  - exists t. simpl. split_and!; [f_equal; f_equal; lia|done|intros; lia|done].
  - cbn [fold_left length] in *. cbn [mbind option_bind].
    rewrite vec_set_Some by lia. cbn [mbind option_bind].
    rewrite size_add_id by lia.
    destruct (IH (pos + 1) (<[Z.to_nat pos := v]> t)) as (t' & E & Hl & Hin & Hout);
      [lia|rewrite length_insert; lia|by rewrite length_insert|].
    exists t'. rewrite E. rewrite length_insert in Hl. split_and!.
    + do 2 f_equal. lia.
    + done.
    + intros [|j] Hj.
      * rewrite Nat.add_0_r, Hout by lia. simpl.
        apply list_lookup_insert_eq. lia.
      * replace (Z.to_nat pos + Datatypes.S j)%nat
          with (Z.to_nat (pos + 1) + j)%nat by lia.
        rewrite Hin by lia. done.
    + intros j Hj. rewrite Hout by lia.
      apply list_lookup_insert_ne. lia.
Qed.

(** Filling the rest with the identity. *)
Lemma fill_identity {V} (e : V) (t : list V) pos :
  0 ≤ pos ≤ Z.of_nat (length t) →
  let t' := for_ pos (Z.of_nat (length t))
                 (λ pos m_tree, <[Z.to_nat pos := e]> m_tree) t in
  length t' = length t
  ∧ (∀ j, (Z.to_nat pos ≤ j < length t)%nat → t' !! j = Some e)
  ∧ (∀ j, (j < Z.to_nat pos)%nat → t' !! j = t !! j).
Proof.
  intros Hpos t'. subst t'.
  pose proof (for_invariant
           (λ k s, length s = length t
                   ∧ (∀ j, (Z.to_nat pos ≤ j < Z.to_nat k)%nat → s !! j = Some e)
                   ∧ (∀ j, (j < Z.to_nat pos)%nat → s !! j = t !! j))
           (λ pos m_tree, <[Z.to_nat pos := e]> m_tree)
           pos (Z.of_nat (length t)) t) as H.
  cbn beta in H. rewrite Nat2Z.id in H. apply H; [lia| |].
  - split_and!; [done|intros; lia|done].
  - intros k s Hk (Hl & Hin & Hout). rewrite length_insert. split_and!; [done| |].
    + intros j Hj. destruct (decide (j = Z.to_nat k)) as [->|Hne].
      * apply list_lookup_insert_eq. lia.
      * rewrite list_lookup_insert_ne by done. apply Hin. lia.
    + intros j Hj. rewrite list_lookup_insert_ne by lia. by apply Hout.
Qed.

Lemma for_down_invariant {S} (I : nat → S → Prop) (body : Z → S → option S) n s :
  I n s →
  (∀ k s, (k < n)%nat → I (Datatypes.S k) s →
          ∃ s', body (Z.of_nat k) s = Some s' ∧ I k s') →
  ∃ s', for_down n body s = Some s' ∧ I 0%nat s'.
Proof.
  revert s. induction n as [|n IH]; intros s Hs Hstep.
  - by exists s.
  - cbn [for_down]. destruct (Hstep n s) as (s' & E & Hs'); [lia|done|].
    rewrite E. cbn [mbind option_bind]. apply IH; [done|].
    intros k s'' Hk. apply Hstep. lia.
Qed.

Lemma get_left_child_eq id : 0 ≤ id < 2 ^ 62 → get_left_child id = 2 * id + 1.
Proof.
  intros H. unfold get_left_child, size_mul.
  rewrite Z.mod_small by (unfold SIZE_MOD; lia).
  rewrite size_add_id by (unfold SIZE_MOD; lia). lia.
Qed.

Lemma get_right_child_eq id : 0 ≤ id < 2 ^ 62 → get_right_child id = 2 * id + 2.
Proof.
  intros H. unfold get_right_child, size_mul.
  rewrite Z.mod_small by (unfold SIZE_MOD; lia).
  rewrite size_add_id by (unfold SIZE_MOD; lia). lia.
Qed.

Section SegmentTreeBuild.
Context {V : Type} `{EqDecision V}.
Variable e : V.
Variable op : V → V → V.
Variable value_init : V.

Lemma inner_nodes (Ln : nat) (t0 : list V) :
  (1 ≤ Ln)%nat → Z.of_nat Ln ≤ 2 ^ 29 → length t0 = (2 * Ln - 1)%nat →
  (∀ j, (Ln - 1 ≤ j < 2 * Ln - 1)%nat → is_Some (t0 !! j)) →
  ∃ t,
    for_down (Ln - 1)
             (λ i m_tree,
                l ← vec_get m_tree (get_left_child (to_size i));
                r ← vec_get m_tree (get_right_child (to_size i));
                vec_set m_tree (to_size i) (op l r))
             t0 = Some t
    ∧ length t = length t0
    ∧ (∀ j, (Ln - 1 ≤ j)%nat → t !! j = t0 !! j)
    ∧ (∀ j, (j < Ln - 1)%nat →
            ∃ l r, t !! (2 * j + 1)%nat = Some l ∧ t !! (2 * j + 2)%nat = Some r
                   ∧ t !! j = Some (op l r)).
Proof.
  intros HL HL30 Hlen Hleaves.
  destruct (for_down_invariant
              (λ k t, length t = length t0
                      ∧ (∀ j, (Ln - 1 ≤ j)%nat → t !! j = t0 !! j)
                      ∧ (∀ j, (k ≤ j < 2 * Ln - 1)%nat → is_Some (t !! j))
                      ∧ (∀ j, (k ≤ j < Ln - 1)%nat →
                              ∃ l r, t !! (2 * j + 1)%nat = Some l
                                     ∧ t !! (2 * j + 2)%nat = Some r
                                     ∧ t !! j = Some (op l r)))
              (λ i m_tree,
                 l ← vec_get m_tree (get_left_child (to_size i));
                 r ← vec_get m_tree (get_right_child (to_size i));
                 vec_set m_tree (to_size i) (op l r))
              (Ln - 1)%nat t0) as (t & E & Hl & Hlf & _ & Hin).
  - split_and!; [done|done|done|intros; lia].
  - intros k t Hk (Hl & Hlf & Hsome & Hin).
    rewrite to_size_id by (unfold SIZE_MOD; lia).
    rewrite get_left_child_eq, get_right_child_eq by lia.
    rewrite !vec_get_lookup by lia.
    replace (Z.to_nat (2 * Z.of_nat k + 1)) with (2 * k + 1)%nat by lia.
    replace (Z.to_nat (2 * Z.of_nat k + 2)) with (2 * k + 2)%nat by lia.
    destruct (Hsome (2 * k + 1)%nat) as [l El]; [lia|].
    destruct (Hsome (2 * k + 2)%nat) as [r Er]; [lia|].
    rewrite El, Er. cbn [mbind option_bind].
    rewrite vec_set_Some by lia. rewrite Nat2Z.id.
    eexists. split; [reflexivity|]. rewrite length_insert.
    split_and!; [done| | |].
    + intros j Hj. rewrite list_lookup_insert_ne by lia. by apply Hlf.
    + intros j Hj. destruct (decide (j = k)) as [->|Hne].
      * rewrite list_lookup_insert_eq by lia. done.
      * rewrite list_lookup_insert_ne by done. apply Hsome. lia.
    + intros j Hj. destruct (decide (j = k)) as [->|Hne].
      * exists l, r. rewrite !list_lookup_insert_ne by lia.
        rewrite list_lookup_insert_eq by lia. done.
      * destruct (Hin j) as (l' & r' & ? & ? & ?); [lia|].
        exists l', r'. rewrite !list_lookup_insert_ne by lia. done.
  - exists t. split_and!; try done. intros j Hj. apply Hin. lia.
Qed.

(** The constructor builds the complete tree over the values, padded with
    the identity to the least power of two. *)
Lemma SegmentTree_build_spec (values : list V) :
  Z.of_nat (length values) ≤ 2 ^ 29 →
  ∃ (K : nat) (t : list V),
    SegmentTree_build e op value_init values = Some t
    ∧ (K ≤ 29)%nat
    ∧ (length values ≤ 2 ^ K)%nat
    ∧ (K = 0%nat ∨ (2 ^ (K - 1) < length values)%nat)
    ∧ tree_of op (2 ^ K) (values ++ replicate (2 ^ K - length values) e) t.
Proof.
  intros Hlen. unfold SegmentTree_build.
  rewrite count_elements by lia. rewrite Z.add_0_l.
  destruct (grow_leaves_spec (Z.of_nat (length values)) 33 0)
    as (K & E & HK & Hge & Hmin); [lia|lia|lia|by left|].
  change (2 ^ Z.of_nat 0) with 1 in E. rewrite E. cbn [mbind option_bind].
  assert (HK29 : (K ≤ 29)%nat).
  { destruct Hmin as [->|Hmin]; [lia|].
    destruct (decide (K ≤ 29)%nat); [done|].
    assert (K = 30%nat) as -> by lia. simpl in Hmin. lia. }
  assert (HL : 2 ^ Z.of_nat K = Z.of_nat (2 ^ K)) by (by rewrite Nat2Z.inj_pow).
  assert (HL30 : 2 ^ Z.of_nat K ≤ 2 ^ 29) by (apply Z.pow_le_mono_r; lia).
  assert (HL1 : 1 ≤ 2 ^ Z.of_nat K) by (pose proof (Z.pow_pos_nonneg 2 (Z.of_nat K)); lia).
  rewrite HL in *. set (Ln := (2 ^ K)%nat) in *.
  rewrite (to_int_id (Z.of_nat Ln * 2)), (to_int_id (Z.of_nat Ln * 2 - 1)),
    (to_int_id (Z.of_nat Ln - 1)), (to_int_id (Z.of_nat Ln - 2)) by lia.
  rewrite !to_size_id by (unfold SIZE_MOD; lia).
  replace (Z.to_nat (Z.of_nat Ln * 2 - 1)) with (2 * Ln - 1)%nat by lia.
  replace (Z.to_nat (Z.of_nat Ln - 2 + 1)) with (Ln - 1)%nat by lia.
  destruct (fill_leaves values (Z.of_nat Ln - 1) (replicate (2 * Ln - 1) value_init))
    as (t1 & E1 & Hl1 & Hin1 & Hout1);
    [lia|rewrite length_replicate; lia
    |rewrite length_replicate; unfold SIZE_MOD; lia|].
  rewrite E1. cbn [mbind option_bind fst snd].
  rewrite length_replicate in Hl1.
  destruct (fill_identity e t1 (Z.of_nat Ln - 1 + Z.of_nat (length values)))
    as (Hl2 & Hin2 & Hout2); [lia|].
  set (t2 := for_ _ _ _ t1) in *.
  destruct (inner_nodes Ln t2) as (t & E3 & Hl3 & Hlf3 & Hin3); [lia|lia|lia| |].
  { intros j Hj.
    destruct (decide (j < Z.to_nat (Z.of_nat Ln - 1 + Z.of_nat (length values)))%nat).
    - rewrite Hout2 by done.
      replace j with (Z.to_nat (Z.of_nat Ln - 1) + (j - (Ln - 1)))%nat by lia.
      rewrite Hin1 by lia. apply lookup_lt_is_Some. lia.
    - rewrite Hin2 by lia. done. }
  exists K, t. split_and!; [done|done|lia| |].
  { destruct Hmin as [->|Hmin]; [by left|].
    destruct (decide (K = 0%nat)); [by left|right].
    apply Nat2Z.inj_lt. rewrite Nat2Z.inj_pow.
    replace (Z.of_nat (K - 1)) with (Z.of_nat K - 1) by lia. done. }
  unfold tree_of. fold Ln. split_and!.
  - lia.
  - rewrite length_app, length_replicate. lia.
  - intros i Hi. rewrite Hlf3 by lia.
    destruct (decide (i < length values)%nat).
    + rewrite Hout2 by lia.
      replace (Ln - 1 + i)%nat with (Z.to_nat (Z.of_nat Ln - 1) + i)%nat by lia.
      rewrite Hin1 by lia. by rewrite lookup_app_l.
    + rewrite Hin2 by lia. rewrite lookup_app_r by lia.
      symmetry. apply lookup_replicate_2. lia.
  - done.
Qed.
End SegmentTreeBuild.

(** ** SegmentTree: query *)

Lemma slice_nil {V} (a b : Z) (l : list V) : b ≤ a → slice a b l = [].
Proof. intros H. unfold slice. by rewrite Z2Nat.nonpos by lia. Qed.

Lemma take_add {V} (n m : nat) (l : list V) :
  take (n + m) l = take n l ++ take m (drop n l).
Proof.
  revert l. induction n as [|n IH]; intros [|x l]; simpl; try done.
  - by rewrite take_nil.
  - by rewrite IH.
Qed.

Lemma slice_split {V} (a c b : Z) (l : list V) :
  0 ≤ a ≤ c → c ≤ b → slice a b l = slice a c l ++ slice c b l.
Proof.
  intros Hac Hcb. unfold slice.
  replace (Z.to_nat (b - a)) with (Z.to_nat (c - a) + Z.to_nat (b - c))%nat by lia.
  rewrite take_add, drop_drop. do 3 f_equal. lia.
Qed.

Lemma slice_singleton {V} (i : nat) (l : list V) x :
  l !! i = Some x → slice (Z.of_nat i) (Z.of_nat i + 1) l = [x].
Proof.
  intros H. unfold slice.
  replace (Z.to_nat (Z.of_nat i + 1 - Z.of_nat i)) with 1%nat by lia.
  rewrite Nat2Z.id. by rewrite (drop_S l x i H).
Qed.

Section SegmentTreeQuery.
Context {V : Type}.
Variable e : V.
Variable op : V → V → V.
Hypothesis op_assoc : ∀ a b c, op (op a b) c = op a (op b c).
Hypothesis op_left_id : ∀ a, op e a = a.
Hypothesis op_right_id : ∀ a, op a e = a.

Lemma foldr_op_app (l1 l2 : list V) :
  foldr op e (l1 ++ l2) = op (foldr op e l1) (foldr op e l2).
Proof.
  induction l1 as [|x l1 IH]; simpl.
  - by rewrite op_left_id.
  - by rewrite IH, op_assoc.
Qed.

Lemma foldr_op_replicate n : foldr op e (replicate n e) = e.
Proof. induction n as [|n IH]; simpl; [done|]. by rewrite IH, op_left_id. Qed.

Lemma fold_left_op_foldr (l : list V) a :
  fold_left op l a = op a (foldr op e l).
Proof.
  revert a. induction l as [|x l IH]; intros a; simpl.
  - by rewrite op_right_id.
  - by rewrite IH, op_assoc.
Qed.

(** The combination of the elements [a <= i < b] of the leaves. *)
Let agg (leaves : list V) (a b : Z) : V := foldr op e (slice a b leaves).

Lemma agg_split leaves a c b :
  0 ≤ a ≤ c → c ≤ b → agg leaves a b = op (agg leaves a c) (agg leaves c b).
Proof.
  intros Hac Hcb. unfold agg.
  by rewrite (slice_split a c b), foldr_op_app.
Qed.

Lemma agg_nil leaves a b : b ≤ a → agg leaves a b = e.
Proof. intros H. unfold agg. by rewrite slice_nil. Qed.

(** Clipping a query to a node range, and to its two halves. *)
Lemma agg_clip leaves s t ns mid ne :
  0 ≤ s → 0 ≤ ns ≤ mid → mid ≤ ne →
  agg leaves (Z.max s ns) (Z.min t ne)
  = op (agg leaves (Z.max s ns) (Z.min t mid))
       (agg leaves (Z.max s mid) (Z.min t ne)).
Proof.
  intros Hs Hns Hne.
  destruct (Z_le_gt_dec (Z.min t ne) (Z.max s ns)) as [Hempty|Hne'].
  { rewrite !agg_nil by lia. by rewrite op_left_id. }
  destruct (Z_le_gt_dec mid (Z.max s ns)) as [Hl|Hl].
  { rewrite (agg_nil _ _ (Z.min t mid)) by lia. rewrite op_left_id.
    f_equal. lia. }
  destruct (Z_le_gt_dec (Z.min t ne) mid) as [Hr|Hr].
  { rewrite (agg_nil _ (Z.max s mid)) by lia. rewrite op_right_id.
    f_equal. lia. }
  rewrite (agg_split _ _ mid) by lia. f_equal; f_equal; lia.
Qed.

Variable Ln : nat.
Variable K : nat.
Variables leaves t : list V.
Hypothesis Ln_pow : Ln = (2 ^ K)%nat.
Hypothesis K_small : (K ≤ 29)%nat.
Hypothesis t_tree : tree_of op Ln leaves t.

(** The node number [m] of the level whose nodes span [2 ^ k] leaves holds
    the combination of the leaves it spans. *)
Lemma node_value (k : nat) : (k ≤ K)%nat → ∀ m : nat,
  (m < 2 ^ (K - k))%nat →
  t !! (2 ^ (K - k) - 1 + m)%nat
  = Some (agg leaves (Z.of_nat (m * 2 ^ k)) (Z.of_nat ((m + 1) * 2 ^ k))).
Proof.
  destruct t_tree as (Hlen & Hll & Hleaf & Hinner).
  induction k as [|k IH]; intros Hk m Hm.
  - rewrite Nat.sub_0_r in *. rewrite <- Ln_pow in *.
    rewrite Hleaf by done.
    destruct (lookup_lt_is_Some_2 leaves m) as [x Ex]; [lia|].
    rewrite Ex. f_equal. unfold agg.
    replace (Z.of_nat (m * 2 ^ 0)) with (Z.of_nat m) by (simpl; lia).
    replace (Z.of_nat ((m + 1) * 2 ^ 0)) with (Z.of_nat m + 1) by (simpl; lia).
    rewrite (slice_singleton m leaves x Ex). simpl. by rewrite op_right_id.
  - assert (Hpow : (2 ^ (K - k) = 2 * 2 ^ (K - Datatypes.S k))%nat).
    { replace (K - k)%nat with (Datatypes.S (K - Datatypes.S k)) by lia.
      by rewrite Nat.pow_succ_r'. }
    assert (HpowK : (2 ^ (K - Datatypes.S k) * 2 ^ Datatypes.S k = Ln)%nat).
    { rewrite <- Nat.pow_add_r, Ln_pow. f_equal. lia. }
    assert (0 < 2 ^ (K - Datatypes.S k))%nat by (apply Nat.neq_0_lt_0, Nat.pow_nonzero; lia).
    assert (0 < 2 ^ k)%nat by (apply Nat.neq_0_lt_0, Nat.pow_nonzero; lia).
    assert (2 ^ Datatypes.S k = 2 * 2 ^ k)%nat as Hk2 by apply Nat.pow_succ_r'.
    set (id := (2 ^ (K - Datatypes.S k) - 1 + m)%nat).
    destruct (Hinner id) as (l & r & El & Er & Eid); [subst id; nia|].
    rewrite Eid. f_equal.
    pose proof (IH ltac:(lia) (2 * m)%nat ltac:(lia)) as IHl.
    pose proof (IH ltac:(lia) (2 * m + 1)%nat ltac:(lia)) as IHr.
    replace (2 ^ (K - k) - 1 + 2 * m)%nat with (2 * id + 1)%nat in IHl
      by (subst id; lia).
    replace (2 ^ (K - k) - 1 + (2 * m + 1))%nat with (2 * id + 2)%nat in IHr
      by (subst id; lia).
    rewrite El in IHl. rewrite Er in IHr.
    injection IHl as ->. injection IHr as ->.
    rewrite Hk2. symmetry.
    etrans; [apply (agg_split leaves _ (Z.of_nat ((2 * m + 1) * 2 ^ k))); lia|].
    f_equal; f_equal; lia.
Qed.

Lemma query_node_spec (start end_ : Z) (k : nat) :
  0 ≤ start → (k ≤ K)%nat →
  ∀ (m fuel : nat), (k < fuel)%nat → (m < 2 ^ (K - k))%nat →
  query_node e op fuel t start end_
             (Z.of_nat (m * 2 ^ k)) (Z.of_nat ((m + 1) * 2 ^ k))
             (Z.of_nat (2 ^ (K - k) - 1 + m))
  = Some (agg leaves (Z.max start (Z.of_nat (m * 2 ^ k)))
                     (Z.min end_ (Z.of_nat ((m + 1) * 2 ^ k)))).
Proof.
  intros Hstart. induction k as [|k IH]; intros Hk m fuel Hfuel Hm.
  - destruct fuel as [|fuel]; [lia|]. cbn [query_node].
    replace (m * 2 ^ 0)%nat with m by (simpl; lia).
    replace ((m + 1) * 2 ^ 0)%nat with (m + 1)%nat by (simpl; lia).
    destruct (Z.leb_spec start (Z.of_nat m)),
      (Z.leb_spec (Z.of_nat (m + 1)) end_); cbn [andb].
    + rewrite vec_get_lookup, Nat2Z.id by lia.
      rewrite (node_value 0 Hk m Hm).
      replace (m * 2 ^ 0)%nat with m by (simpl; lia).
      replace ((m + 1) * 2 ^ 0)%nat with (m + 1)%nat by (simpl; lia).
      do 2 f_equal; lia.
    + destruct (Z.leb_spec end_ (Z.of_nat m)),
        (Z.leb_spec (Z.of_nat (m + 1)) start); cbn [orb]; try lia;
        by rewrite agg_nil by lia.
    + destruct (Z.leb_spec end_ (Z.of_nat m)),
        (Z.leb_spec (Z.of_nat (m + 1)) start); cbn [orb]; try lia;
        by rewrite agg_nil by lia.
    + destruct (Z.leb_spec end_ (Z.of_nat m)),
        (Z.leb_spec (Z.of_nat (m + 1)) start); cbn [orb]; try lia;
        by rewrite agg_nil by lia.
  - destruct fuel as [|fuel]; [lia|]. cbn [query_node].
    assert (Hpow : (2 ^ (K - k) = 2 * 2 ^ (K - Datatypes.S k))%nat).
    { replace (K - k)%nat with (Datatypes.S (K - Datatypes.S k)) by lia.
      by rewrite Nat.pow_succ_r'. }
    assert (HpowK : (2 ^ (K - Datatypes.S k) * 2 ^ Datatypes.S k = 2 ^ K)%nat).
    { rewrite <- Nat.pow_add_r. f_equal. lia. }
    assert (HK30 : (2 ^ K ≤ 2 ^ 29)%nat) by (apply Nat.pow_le_mono_r; lia).
    assert (H29 : Z.of_nat (2 ^ 29) = 2 ^ 29) by (by rewrite Nat2Z.inj_pow).
    assert (0 < 2 ^ (K - Datatypes.S k))%nat
      by (apply Nat.neq_0_lt_0, Nat.pow_nonzero; lia).
    assert (0 < 2 ^ k)%nat by (apply Nat.neq_0_lt_0, Nat.pow_nonzero; lia).
    assert (2 ^ Datatypes.S k = 2 * 2 ^ k)%nat as Hk2 by apply Nat.pow_succ_r'.
    rewrite Hk2 in HpowK. rewrite !Hk2.
    set (ns := (m * (2 * 2 ^ k))%nat). set (ne := ((m + 1) * (2 * 2 ^ k))%nat).
    set (id := (2 ^ (K - Datatypes.S k) - 1 + m)%nat).
    assert (Hne : (ne ≤ 2 ^ K)%nat) by (subst ne; nia).
    assert (Hns : (ns + 2 * 2 ^ k = ne)%nat) by (subst ns ne; lia).
    assert (Hid : (id < 2 ^ K)%nat) by (subst id; nia).
    pose proof (node_value (Datatypes.S k) Hk m Hm) as Hnode.
    rewrite Hk2 in Hnode. fold ns ne id in Hnode.
    pose proof (IH ltac:(lia) (2 * m)%nat fuel ltac:(lia) ltac:(lia)) as IHl.
    pose proof (IH ltac:(lia) (2 * m + 1)%nat fuel ltac:(lia) ltac:(lia)) as IHr.
    replace (2 * m * 2 ^ k)%nat with ns in IHl by (subst ns; lia).
    replace ((2 * m + 1) * 2 ^ k)%nat with (ns + 2 ^ k)%nat in IHl, IHr
      by (subst ns; lia).
    replace ((2 * m + 1 + 1) * 2 ^ k)%nat with ne in IHr by (subst ns ne; lia).
    replace (Z.of_nat (2 ^ (K - k) - 1 + 2 * m)) with (2 * Z.of_nat id + 1) in IHl
      by (subst id; lia).
    replace (Z.of_nat (2 ^ (K - k) - 1 + (2 * m + 1))) with (2 * Z.of_nat id + 2)
      in IHr by (subst id; lia).
    clearbody ns ne id. clear IH.
    set (p := (2 ^ k)%nat) in *. set (P := (2 ^ K)%nat) in *.
    clearbody p P.
    destruct ((start <=? Z.of_nat ns) && (Z.of_nat ne <=? end_)) eqn:Hinside.
    { apply andb_true_iff in Hinside as [H1 H2].
      apply Z.leb_le in H1, H2.
      rewrite vec_get_lookup, Nat2Z.id by lia.
      rewrite Hnode. do 2 f_equal; lia. }
    destruct ((end_ <=? Z.of_nat ns) || (Z.of_nat ne <=? start)) eqn:Houtside.
    { apply orb_true_iff in Houtside.
      rewrite agg_nil; [done|].
      destruct Houtside as [H1|H1]; apply Z.leb_le in H1; lia. }
    rewrite size_add_id by (unfold SIZE_MOD; lia).
    replace ((Z.of_nat ns + Z.of_nat ne) / 2) with (Z.of_nat (ns + p)); cycle 1.
    { apply Z.div_unique_exact; lia. }
    rewrite to_int_id, to_size_id by (unfold SIZE_MOD; lia).
    rewrite get_left_child_eq, get_right_child_eq by lia.
    rewrite IHl. cbn [mbind option_bind]. rewrite IHr. cbn [mbind option_bind].
    f_equal. symmetry. apply agg_clip; lia.
Qed.

(** [query] on a tree over [2 ^ K] leaves. *)
Lemma query_spec (fuel : nat) (start end_ : Z) :
  0 ≤ start → (K < fuel)%nat →
  query e op fuel t start end_
  = Some (foldr op e (slice start (Z.min end_ (Z.of_nat Ln)) leaves)).
Proof.
  intros Hstart Hfuel. unfold query.
  destruct t_tree as (Hlen & _).
  assert (0 < 2 ^ K)%nat by (apply Nat.neq_0_lt_0, Nat.pow_nonzero; lia).
  assert (HK30 : (2 ^ K ≤ 2 ^ 29)%nat) by (apply Nat.pow_le_mono_r; lia).
  assert (H29 : Z.of_nat (2 ^ 29) = 2 ^ 29) by (by rewrite Nat2Z.inj_pow).
  rewrite Hlen, Ln_pow.
  rewrite size_add_id by (unfold SIZE_MOD; lia).
  replace ((Z.of_nat (2 * 2 ^ K - 1) + 1) / 2) with (Z.of_nat (2 ^ K)); cycle 1.
  { apply Z.div_unique_exact; lia. }
  pose proof (query_node_spec start end_ K Hstart ltac:(lia) 0%nat fuel Hfuel) as H'.
  rewrite Nat.sub_diag in H'. specialize (H' ltac:(simpl; lia)).
  replace (0 * 2 ^ K)%nat with 0%nat in H' by lia.
  replace ((0 + 1) * 2 ^ K)%nat with (2 ^ K)%nat in H' by lia.
  change (Z.of_nat (2 ^ 0 - 1 + 0)) with 0 in H'. change (Z.of_nat 0) with 0 in H'.
  rewrite H'. unfold agg. do 3 f_equal. lia.
Qed.
End SegmentTreeQuery.

Lemma slice_padded {V} (e : V) (values : list V) (r : nat) (a b : Z) :
  ∃ j, slice a b (values ++ replicate r e) = slice a b values ++ replicate j e.
Proof.
  unfold slice. rewrite drop_app, take_app, drop_replicate, take_replicate.
  eexists. reflexivity.
Qed.

Lemma slice_beyond {V} (values : list V) (a b L : Z) :
  0 ≤ a → Z.of_nat (length values) ≤ L →
  slice a (Z.min b L) values = slice a b values.
Proof.
  intros Ha HL. unfold slice.
  destruct (Z_le_gt_dec b L); [by rewrite Z.min_l by lia|].
  rewrite Z.min_r by lia.
  rewrite !take_ge; [done|rewrite length_drop; lia|rewrite length_drop; lia].
Qed.

(** X21.  The constructor of [SegmentTree] on at most [2^29] values.  Its
    assertion compares [operation(identity, identity)] with [identity]:
    built with assertions, an operation that fails this stops the
    constructor.  Otherwise the vector is built: with [L] the least power of
    two that is not below the number of values, it has [2 * L - 1] nodes, the
    last [L] of them are the values in their order followed by copies of the
    identity, and every other node [j] holds [operation] of the nodes
    [2 * j + 1] and [2 * j + 2]. *)
Theorem SegmentTree_constructor {V : Type} `{EqDecision V} (ndebug : bool)
    (identity : V) (operation : V → V → V) (value_init : V) (values : list V) :
  Z.of_nat (length values) ≤ 2 ^ 29 →
  (operation identity identity ≠ identity →
   SegmentTree_new identity operation value_init false values
   = Failed AssertionFailed)
  ∧ (ndebug = true ∨ operation identity identity = identity →
     ∃ (K : nat) (t : list V),
       SegmentTree_new identity operation value_init ndebug values
       = Returned (Some t)
       ∧ (length values ≤ 2 ^ K)%nat
       ∧ (K = 0%nat ∨ (2 ^ (K - 1) < length values)%nat)
       ∧ length t = (2 * 2 ^ K - 1)%nat
       ∧ (∀ i, (i < length values)%nat → t !! (2 ^ K - 1 + i)%nat = values !! i)
       ∧ (∀ i, (length values ≤ i < 2 ^ K)%nat →
               t !! (2 ^ K - 1 + i)%nat = Some identity)
       ∧ (∀ j, (j < 2 ^ K - 1)%nat →
               ∃ l r, t !! (2 * j + 1)%nat = Some l
                      ∧ t !! (2 * j + 2)%nat = Some r
                      ∧ t !! j = Some (operation l r))).
Proof.
  intros Hlen. split.
  - intros Hne. unfold SegmentTree_new.
    rewrite assert_false_fails; [done|]. by apply bool_decide_eq_false.
  - intros Hok.
    destruct (SegmentTree_build_spec identity operation value_init values Hlen)
      as (K & t & E & HK & Hle & Hmin & Hl & Hll & Hleaf & Hinner).
    exists K, t. unfold SegmentTree_new.
    rewrite assert_passes
      by (destruct Hok as [?|?]; [by left|right; by apply bool_decide_eq_true]).
    cbn [bind]. rewrite E. split_and!; try done.
    + intros i Hi. rewrite Hleaf by lia. by rewrite lookup_app_l.
    + intros i Hi. rewrite Hleaf by lia. rewrite lookup_app_r by lia.
      apply lookup_replicate_2. lia.
Qed.

Lemma SegmentTree_constructor_witness :
  ∃ t, SegmentTree_new 0 Z.add 0 false [1; 2; 3] = Returned (Some t)
       ∧ length t = 7%nat ∧ t !! 0%nat = Some 6.
Proof.
  destruct (SegmentTree_constructor false 0 Z.add 0 [1; 2; 3]) as [_ H];
    [simpl; lia|].
  destruct H as (K & t & E & _); [by right|].
  exists t. split; [exact E|]. vm_compute in E. injection E as <-. done.
Defined.

(** X22.  [query] on the tree that the constructor builds, for an operation
    that is associative with [identity] as its identity on both sides, and at
    most [2^29] values.  With fuel for 30 levels of recursion, for every
    [start] and [end] the query returns what the loop of its description
    computes: [identity] combined from the left with the values number
    [start], ..., [end - 1], as far as there are values.  So a range without
    elements gives [identity], and a range that covers all values gives their
    combination. *)
Theorem SegmentTree_query_is_range_fold {V : Type} `{EqDecision V}
    (identity : V) (operation : V → V → V) (value_init : V) (values : list V)
    (fuel : nat) :
  (∀ a b c, operation (operation a b) c = operation a (operation b c)) →
  (∀ a, operation identity a = a) → (∀ a, operation a identity = a) →
  Z.of_nat (length values) ≤ 2 ^ 29 → (30 ≤ fuel)%nat →
  ∃ t, SegmentTree_build identity operation value_init values = Some t
       ∧ (∀ start end_, 0 ≤ start →
            query identity operation fuel t start end_
            = Some (fold_left operation (slice start end_ values) identity))
       ∧ (∀ start end_, 0 ≤ start → end_ ≤ start →
            query identity operation fuel t start end_ = Some identity)
       ∧ (∀ end_, Z.of_nat (length values) ≤ end_ →
            query identity operation fuel t 0 end_
            = Some (fold_left operation values identity)).
Proof.
  intros Hassoc Hleft Hright Hlen Hfuel.
  destruct (SegmentTree_build_spec identity operation value_init values Hlen)
    as (K & t & E & HK & Hle & Hmin & Htree).
  exists t. split; [done|].
  assert (Hq : ∀ start end_, 0 ≤ start →
            query identity operation fuel t start end_
            = Some (fold_left operation (slice start end_ values) identity)).
  { intros start end_ Hstart.
    rewrite (query_spec identity operation Hassoc Hleft Hright (2 ^ K) K _ t
               eq_refl HK Htree fuel start end_ Hstart ltac:(lia)).
    f_equal.
    destruct (slice_padded identity values (2 ^ K - length values) start
                (Z.min end_ (Z.of_nat (2 ^ K)))) as [j ->].
    rewrite (foldr_op_app identity operation Hassoc Hleft),
      (foldr_op_replicate identity operation Hleft), Hright.
    rewrite slice_beyond by lia.
    by rewrite (fold_left_op_foldr identity operation Hassoc Hright), Hleft. }
  split_and!.
  - exact Hq.
  - intros start end_ Hstart Hempty. rewrite Hq by done.
    by rewrite slice_nil.
  - intros end_ Hend. rewrite Hq by done. do 2 f_equal.
    unfold slice. rewrite drop_0, take_ge; [done|lia].
Qed.

Lemma SegmentTree_query_is_range_fold_witness :
  ∃ t, SegmentTree_build 0 Z.add 0 [1; 2; 3; 4; 5] = Some t
       ∧ query 0 Z.add 30 t 1 4 = Some (0 + 2 + 3 + 4).
Proof.
  destruct (SegmentTree_query_is_range_fold 0 Z.add 0 [1; 2; 3; 4; 5] 30)
    as (t & E & Hq & _);
    [intros; lia | intros; lia | intros; lia | simpl; lia | lia | ].
  exists t. split; [exact E|]. apply (Hq 1 4). lia.
Defined.

(** ** BinaryIndexedTree: the lowest set bit *)

Lemma land_opp_double m : Z.land (2 * m) (- (2 * m)) = 2 * Z.land m (- m).
Proof.
  assert (E : ∀ x, 2 * x = Z.shiftl x 1)
    by (intros; rewrite Z.shiftl_mul_pow2 by lia; lia).
  replace (- (2 * m)) with (2 * - m) by lia.
  rewrite !E. symmetry. apply Z.shiftl_land.
Qed.

Lemma land_opp_odd q : Z.land (2 * q + 1) (- (2 * q + 1)) = 1.
Proof.
  apply Z.bits_inj'. intros n Hn.
  rewrite Z.land_spec, Z.bits_opp by done.
  replace (Z.pred (2 * q + 1)) with (2 * q) by lia.
  destruct (Z.eq_dec n 0) as [->|Hne].
  - by rewrite Z.testbit_odd_0, Z.testbit_even_0.
  - replace n with (Z.succ (n - 1)) by lia.
    rewrite Z.testbit_odd_succ, Z.testbit_even_succ by lia.
    change 1 with (2 * 0 + 1). rewrite Z.testbit_odd_succ by lia.
    rewrite Z.testbit_0_l. apply andb_negb_r.
Qed.

(** The lowest set bit of a positive number, by the binary digits of the
    number. *)
Lemma lowbit_facts (p : positive) :
  let key := Z.pos p in
  let lb := Z.land key (- key) in
  1 ≤ lb ≤ key
  ∧ (∃ v : nat, lb = 2 ^ Z.of_nat v ∧ (lb | key) ∧ ¬ (2 * lb | key))
  ∧ (key - lb = 0 ∨ 2 * lb ≤ Z.land (key - lb) (- (key - lb)))
  ∧ 2 * lb ≤ Z.land (key + lb) (- (key + lb))
  ∧ ∀ r, 0 < r < lb → Z.land (key + r) (- (key + r)) = Z.land r (- r).
Proof.
  induction p as [p IH|p IH|]; cbn zeta in *.
  - (* key = 2 p + 1 *)
    rewrite Pos2Z.inj_xI, !land_opp_odd.
    split; [|split; [|split; [|split]]].
    + lia.
    + exists 0%nat. split_and!; [done|apply Z.divide_1_l|].
      intros [c Hc]. lia.
    + replace (2 * Z.pos p + 1 - 1) with (2 * Z.pos p) by lia.
      rewrite land_opp_double. right. lia.
    + replace (2 * Z.pos p + 1 + 1) with (2 * (Z.pos p + 1)) by lia.
      rewrite land_opp_double.
      destruct (Z.pos p + 1) as [|p'|p'] eqn:E; [lia| |lia].
      pose proof (Pos2Z.is_pos p').
      assert (1 ≤ Z.land (Z.pos p') (- Z.pos p')); [|lia].
      clear. induction p' as [p' IH'|p' IH'|].
      * rewrite Pos2Z.inj_xI, land_opp_odd. lia.
      * rewrite Pos2Z.inj_xO, land_opp_double. lia.
      * reflexivity.
    + intros r Hr. lia.
  - (* key = 2 p *)
    rewrite Pos2Z.inj_xO, !land_opp_double.
    destruct IH as (Hlb & (v & Ev & Hdiv & Hndiv) & Hsub & Hadd & Hmid).
    set (lb := Z.land (Z.pos p) (- Z.pos p)) in *. clearbody lb.
    split; [|split; [|split; [|split]]].
    + lia.
    + exists (Datatypes.S v). split_and!.
      * rewrite Nat2Z.inj_succ, Z.pow_succ_r by lia. by rewrite <- Ev.
      * destruct Hdiv as [c Hc]. exists c. lia.
      * intros [c Hc]. apply Hndiv. exists c. lia.
    + replace (2 * Z.pos p - 2 * lb) with (2 * (Z.pos p - lb)) by lia.
      rewrite land_opp_double. lia.
    + replace (2 * Z.pos p + 2 * lb) with (2 * (Z.pos p + lb)) by lia.
      rewrite land_opp_double. lia.
    + intros r Hr.
      destruct (Z.even r) eqn:Hev.
      * apply Z.even_spec in Hev as [s ->].
        replace (2 * Z.pos p + 2 * s) with (2 * (Z.pos p + s)) by lia.
        rewrite !land_opp_double, Hmid by lia. done.
      * assert (Hodd : Z.odd r = true) by (by rewrite <- Z.negb_even, Hev).
        apply Z.odd_spec in Hodd as [s ->].
        replace (2 * Z.pos p + (2 * s + 1)) with (2 * (Z.pos p + s) + 1) by lia.
        by rewrite !land_opp_odd.
  - (* key = 1 *)
    assert (E : Z.land 1 (Z.opp 1) = 1) by reflexivity. rewrite !E.
    split; [|split; [|split; [|split]]];
      [done| |by left|by vm_compute|intros; lia].
    exists 0%nat. split_and!; [done|done|]. intros [c Hc]. lia.
Qed.

Lemma last_bit_eq key : 0 < key < 2 ^ 31 → last_bit key = Z.land key (- key).
Proof. intros H. unfold last_bit. by rewrite to_int_id by lia. Qed.

Lemma last_bit_range key : 0 < key < 2 ^ 31 → 1 ≤ last_bit key ≤ key.
Proof.
  intros H. rewrite last_bit_eq by done.
  destruct key as [|p|p]; try lia. apply (lowbit_facts p).
Qed.

Lemma last_bit_sub key :
  0 < key < 2 ^ 31 →
  key - last_bit key = 0 ∨ 2 * last_bit key ≤ last_bit (key - last_bit key).
Proof.
  intros H. pose proof (last_bit_range key H) as Hr.
  destruct (decide (key - last_bit key = 0)) as [?|Hne]; [by left|right].
  rewrite (last_bit_eq (key - _)) by lia. rewrite last_bit_eq by done.
  destruct key as [|p|p]; try lia.
  destruct (lowbit_facts p) as (_ & _ & [E|Hs] & _); [|done].
  rewrite <- last_bit_eq in E by done. lia.
Qed.

Lemma last_bit_add key :
  0 < key < 2 ^ 30 → 2 * last_bit key ≤ last_bit (key + last_bit key).
Proof.
  intros H. pose proof (last_bit_range key ltac:(lia)) as Hr.
  rewrite (last_bit_eq (key + _)) by lia. rewrite last_bit_eq by lia.
  destruct key as [|p|p]; try lia. apply (lowbit_facts p).
Qed.

Lemma last_bit_between key r :
  0 < key < 2 ^ 30 → 0 < r < last_bit key →
  last_bit (key + r) ≤ r.
Proof.
  intros H Hr. pose proof (last_bit_range key ltac:(lia)).
  rewrite (last_bit_eq (key + r)) by lia.
  pose proof Hr as Hr'. rewrite last_bit_eq in Hr by lia.
  destruct key as [|p|p]; try lia.
  destruct (lowbit_facts p) as (_ & _ & _ & _ & Hmid).
  rewrite Hmid by done. rewrite <- last_bit_eq by lia.
  apply last_bit_range. lia.
Qed.

(** ** BinaryIndexedTree: sums *)

Section BinaryIndexedTreeFacts.
Context {Value : Type}.
Variable zero : Value.
Variable plus : Value → Value → Value.
Variable minus : Value → Value → Value.
Hypothesis plus_assoc : ∀ a b c, plus (plus a b) c = plus a (plus b c).
Hypothesis plus_comm : ∀ a b, plus a b = plus b a.
Hypothesis plus_zero : ∀ a, plus a zero = a.

Local Abbreviation sum := (sum_range zero plus).
Local Abbreviation upd := (added plus).

Lemma fold_plus_acc (a : Z → Value) l x :
  fold_left (λ acc i, plus acc (a i)) l x
  = plus x (fold_left (λ acc i, plus acc (a i)) l zero).
Proof.
  revert x. induction l as [|i l IH]; intros x; simpl.
  - by rewrite plus_zero.
  - rewrite IH, (IH (plus zero (a i))).
    rewrite (plus_comm zero), plus_zero. by rewrite plus_assoc.
Qed.

Lemma sum_empty a lo hi : hi ≤ lo → sum a lo hi = zero.
Proof. intros H. unfold sum_range. by rewrite seqZ_nil by lia. Qed.

Lemma sum_split a lo mid hi :
  lo ≤ mid → mid ≤ hi → sum a lo hi = plus (sum a lo mid) (sum a mid hi).
Proof.
  intros H1 H2. unfold sum_range.
  replace (hi - lo) with ((mid - lo) + (hi - mid)) by lia.
  rewrite seqZ_app, fold_left_app by lia.
  rewrite fold_plus_acc. do 3 f_equal. lia.
Qed.

Lemma sum_single a i : sum a (i - 1) i = a i.
Proof.
  unfold sum_range. replace (i - (i - 1)) with 1 by lia.
  replace (i - 1 + 1) with i by lia. simpl.
  by rewrite (plus_comm zero), plus_zero.
Qed.

Lemma sum_added_out a i v lo hi :
  ¬ (lo < i ≤ hi) → sum (upd a i v) lo hi = sum a lo hi.
Proof.
  intros H. unfold sum_range. apply fold_left_ext_in.
  intros acc k Hk. apply elem_of_seqZ in Hk. unfold added.
  by destruct (decide (k = i)); [lia|].
Qed.

Lemma sum_added_in a i v lo hi :
  lo < i ≤ hi → sum (upd a i v) lo hi = plus (sum a lo hi) v.
Proof.
  intros H.
  rewrite (sum_split _ lo (i - 1) hi), (sum_split _ (i - 1) i hi) by lia.
  rewrite (sum_split a lo (i - 1) hi), (sum_split a (i - 1) i hi) by lia.
  rewrite !sum_single, !sum_added_out by lia.
  unfold added at 1. destruct (decide (i = i)); [|done].
  rewrite !plus_assoc. do 2 f_equal. apply plus_comm.
Qed.

(** ** BinaryIndexedTree: the loops *)

Lemma pow2_step (n : nat) : (n ≤ 30)%nat →
  2 * 2 ^ (31 - Z.of_nat (Datatypes.S n)) = 2 ^ (31 - Z.of_nat n).
Proof.
  intros H. rewrite <- Z.pow_succ_r by lia. f_equal. lia.
Qed.

Lemma BIT_Accumulate_loop_spec a (m_tree : list Value) :
  bit_of zero plus a m_tree → Z.of_nat (length m_tree) ≤ 2 ^ 30 →
  ∀ (n fuel : nat) key acc,
    (n < fuel)%nat → (n ≤ 31)%nat → 0 ≤ key < Z.of_nat (length m_tree) →
    key = 0 ∨ 2 ^ (31 - Z.of_nat n) ≤ last_bit key →
    BIT_Accumulate_loop plus fuel m_tree key acc
    = Some (plus acc (sum a 0 key)).
Proof.
  intros Hbit Hlen. induction n as [|n IH]; intros fuel key acc Hfuel Hn Hkey Hlb.
  - destruct fuel as [|fuel]; [lia|]. cbn [BIT_Accumulate_loop].
    assert (key = 0) as ->.
    { destruct Hlb as [?|Hlb]; [done|].
      destruct (decide (key = 0)); [done|].
      pose proof (last_bit_range key ltac:(lia)). simpl in Hlb. lia. }
    simpl. by rewrite sum_empty, plus_zero.
  - destruct fuel as [|fuel]; [lia|]. cbn [BIT_Accumulate_loop].
    destruct (Z.ltb_spec 0 key) as [Hpos|Hzero]; cycle 1.
    { assert (key = 0) as -> by lia. by rewrite sum_empty, plus_zero. }
    pose proof (last_bit_range key ltac:(lia)) as Hr.
    rewrite to_size_id by (unfold SIZE_MOD; lia).
    rewrite vec_get_lookup, Hbit by lia. cbn [mbind option_bind].
    rewrite to_int_id by lia.
    rewrite IH; [|lia|lia|lia|].
    + f_equal. rewrite (sum_split a 0 (key - last_bit key) key) by lia.
      rewrite !plus_assoc. f_equal. apply plus_comm.
    + destruct (last_bit_sub key ltac:(lia)) as [?|Hs]; [by left|right].
      destruct Hlb as [?|Hlb]; [lia|].
      rewrite <- pow2_step by lia. lia.
Qed.

Lemma BIT_Add_loop_spec a i val (N : nat) :
  Z.of_nat N ≤ 2 ^ 30 → 0 < i →
  ∀ (n fuel : nat) key (m_tree : list Value),
    (n < fuel)%nat → (n ≤ 31)%nat → i ≤ key < 2 ^ 31 → length m_tree = N →
    Z.of_nat N ≤ key
    ∨ (2 ^ (31 - Z.of_nat n) ≤ last_bit key ∧ key - last_bit key < i) →
    (∀ j, 1 ≤ j < key → j < Z.of_nat N →
          m_tree !! Z.to_nat j = Some (sum (upd a i val) (j - last_bit j) j)) →
    (∀ j, key ≤ j < Z.of_nat N →
          m_tree !! Z.to_nat j = Some (sum a (j - last_bit j) j)) →
    ∃ m_tree',
      BIT_Add_loop plus fuel m_tree key val = Some m_tree'
      ∧ length m_tree' = N
      ∧ m_tree' !! 0%nat = m_tree !! 0%nat
      ∧ bit_of zero plus (upd a i val) m_tree'.
Proof.
  intros HN Hi.
  assert (Hend : ∀ fuel key (m_tree : list Value),
            (0 < fuel)%nat → i ≤ key < 2 ^ 31 → length m_tree = N →
            Z.of_nat N ≤ key →
            (∀ j, 1 ≤ j < key → j < Z.of_nat N →
                  m_tree !! Z.to_nat j = Some (sum (upd a i val) (j - last_bit j) j)) →
            ∃ m_tree',
              BIT_Add_loop plus fuel m_tree key val = Some m_tree'
              ∧ length m_tree' = N
              ∧ m_tree' !! 0%nat = m_tree !! 0%nat
              ∧ bit_of zero plus (upd a i val) m_tree').
  { intros fuel key m_tree Hfuel Hik Hlen Hge Hlow.
    destruct fuel as [|fuel]; [lia|]. cbn [BIT_Add_loop].
    rewrite to_size_id by (unfold SIZE_MOD; lia).
    destruct (Z.ltb_spec key (Z.of_nat (length m_tree))); [lia|].
    exists m_tree. split_and!; try done. intros j Hj. apply Hlow; lia. }
  induction n as [|n IH];
    intros fuel key m_tree Hfuel Hn Hik Hlen Hcover Hlow Hhigh.
  - apply Hend; [lia|done|done| |done].
    destruct Hcover as [?|[Hlb _]]; [done|].
    destruct (decide (Z.of_nat N ≤ key)); [done|].
    pose proof (last_bit_range key ltac:(lia)). simpl in Hlb. lia.
  - destruct (decide (Z.of_nat N ≤ key)) as [Hge|Hlt];
      [apply Hend; [lia|done..]|].
    destruct Hcover as [?|[Hlb Hcov]]; [lia|].
    destruct fuel as [|fuel]; [lia|]. cbn [BIT_Add_loop].
    pose proof (last_bit_range key ltac:(lia)) as Hr.
    rewrite to_size_id by (unfold SIZE_MOD; lia).
    destruct (Z.ltb_spec key (Z.of_nat (length m_tree))); [|lia].
    rewrite vec_get_lookup, Hhigh by lia. cbn [mbind option_bind].
    rewrite vec_set_Some by lia. cbn [mbind option_bind].
    rewrite to_int_id by lia.
    pose proof (last_bit_add key ltac:(lia)) as Hadd.
    destruct (IH fuel (key + last_bit key)
                 (<[Z.to_nat key := plus (sum a (key - last_bit key) key) val]> m_tree))
      as (m_tree' & E & Hl' & H0' & Hbit'); [lia|lia|lia| | | | |].
    + by rewrite length_insert.
    + destruct (decide (Z.of_nat N ≤ key + last_bit key)); [by left|right].
      split; [rewrite <- pow2_step by lia; lia|lia].
    + intros j Hj HjN. destruct (decide (j = key)) as [->|Hne].
      * rewrite list_lookup_insert_eq by lia. f_equal.
        symmetry. apply sum_added_in. lia.
      * rewrite list_lookup_insert_ne by lia.
        destruct (decide (j < key)) as [Hjk|Hjk]; [apply Hlow; lia|].
        rewrite Hhigh by lia. f_equal. symmetry. apply sum_added_out.
        pose proof (last_bit_between key (j - key) ltac:(lia) ltac:(lia)) as Hb.
        replace (key + (j - key)) with j in Hb by lia. lia.
    + intros j Hj. rewrite list_lookup_insert_ne by lia. apply Hhigh. lia.
    + exists m_tree'. split_and!; try done.
      rewrite H0'. apply list_lookup_insert_ne. lia.
Qed.
End BinaryIndexedTreeFacts.

(** X23.  [last_bit] of a positive [int] is the largest power of two that
    divides it: it is a power of two, it divides the key, twice it does not,
    and so it lies between 1 and the key. *)
Theorem last_bit_largest_power_of_two (key : Z) :
  0 < key < 2 ^ 31 →
  ∃ v : nat,
    last_bit key = 2 ^ Z.of_nat v
    ∧ (last_bit key | key) ∧ ¬ (2 * last_bit key | key)
    ∧ 1 ≤ last_bit key ≤ key.
Proof.
  intros H. pose proof (last_bit_range key H) as Hr.
  rewrite last_bit_eq in * by done.
  destruct key as [|p|p]; try lia.
  destruct (lowbit_facts p) as (_ & (v & Ev & Hd & Hnd) & _).
  exists v. done.
Qed.

Lemma last_bit_largest_power_of_two_witness :
  ∃ v : nat, last_bit 40 = 2 ^ Z.of_nat v ∧ (last_bit 40 | 40).
Proof.
  destruct (last_bit_largest_power_of_two 40) as (v & E & Hd & _); [lia|].
  exists v. split; [exact E | exact Hd].
Defined.

Section BinaryIndexedTreeTheorems.
Context {Value : Type}.
Variable zero : Value.
Variable plus : Value → Value → Value.
Variable minus : Value → Value → Value.
Hypothesis plus_assoc : ∀ a b c, plus (plus a b) c = plus a (plus b c).
Hypothesis plus_comm : ∀ a b, plus a b = plus b a.
Hypothesis plus_zero : ∀ a, plus a zero = a.

Lemma sum_zero lo hi : sum_range zero plus (λ _, zero) lo hi = zero.
Proof.
  unfold sum_range. generalize (seqZ (lo + 1) (hi - lo)).
  intros l. induction l as [|i l IH]; simpl; [done|].
  by rewrite plus_zero.
Qed.

Lemma BinaryIndexedTree_new_bit_of size :
  0 ≤ size < 2 ^ 31 →
  bit_of zero plus (λ _, zero) (BinaryIndexedTree_new zero size).
Proof.
  intros H j Hj. unfold BinaryIndexedTree_new in *.
  rewrite length_replicate in Hj.
  rewrite sum_zero. apply lookup_replicate_2. lia.
Qed.

Lemma BIT_Accumulate_spec a (m_tree : list Value) fuel key :
  bit_of zero plus a m_tree → Z.of_nat (length m_tree) ≤ 2 ^ 30 →
  (32 ≤ fuel)%nat → 0 ≤ key < Z.of_nat (length m_tree) →
  BIT_Accumulate zero plus fuel m_tree key = Some (sum_range zero plus a 0 key).
Proof.
  intros Hbit Hlen Hfuel Hkey. unfold BIT_Accumulate.
  rewrite (BIT_Accumulate_loop_spec zero plus plus_assoc plus_comm plus_zero
             a m_tree Hbit Hlen 31 fuel key zero); [|lia|lia|done|].
  - by rewrite plus_comm, plus_zero.
  - destruct (decide (key = 0)); [by left|right].
    pose proof (last_bit_range key ltac:(lia)). simpl. lia.
Qed.

Lemma BIT_Add_spec a (m_tree : list Value) fuel key val :
  bit_of zero plus a m_tree → Z.of_nat (length m_tree) ≤ 2 ^ 30 →
  (32 ≤ fuel)%nat → 0 < key < 2 ^ 31 →
  ∃ m_tree',
    BIT_Add_loop plus fuel m_tree key val = Some m_tree'
    ∧ length m_tree' = length m_tree
    ∧ m_tree' !! 0%nat = m_tree !! 0%nat
    ∧ bit_of zero plus (added plus a key val) m_tree'.
Proof.
  intros Hbit Hlen Hfuel Hkey.
  apply (BIT_Add_loop_spec zero plus plus_assoc plus_comm plus_zero
           a key val (length m_tree) Hlen ltac:(lia) 31 fuel key m_tree);
    [lia|lia|lia|done| | |].
  - destruct (decide (Z.of_nat (length m_tree) ≤ key)); [by left|right].
    pose proof (last_bit_range key ltac:(lia)). simpl. lia.
  - intros j Hj HjN. rewrite Hbit by lia. f_equal.
    symmetry. apply sum_added_out. lia.
  - intros j Hj. apply Hbit. lia.
Qed.
End BinaryIndexedTreeTheorems.

Lemma BIT_Add_loop_zero {Value} (plus : Value → Value → Value) val fuel :
  ∀ m_tree : list Value,
    (0 < length m_tree)%nat → BIT_Add_loop plus fuel m_tree 0 val = None.
Proof.
  induction fuel as [|fuel IH]; intros m_tree Hlen; [done|].
  cbn [BIT_Add_loop]. change (to_size 0) with 0.
  destruct (Z.ltb_spec 0 (Z.of_nat (length m_tree))); [|lia].
  rewrite vec_get_lookup by lia.
  destruct (lookup_lt_is_Some_2 m_tree (Z.to_nat 0)) as [v ->]; [simpl; lia|].
  cbn [mbind option_bind]. rewrite vec_set_Some by lia.
  cbn [mbind option_bind]. change (to_int (0 + last_bit 0)) with 0.
  apply IH. rewrite length_insert. done.
Qed.


Lemma BIT_Get_spec {Value : Type} (zero : Value)
    (plus minus : Value → Value → Value) (a : Z → Value)
    (m_tree : list Value) (fuel : nat) (ndebug : bool) :
  (∀ a b c, plus (plus a b) c = plus a (plus b c)) →
  (∀ a b, plus a b = plus b a) → (∀ a, plus a zero = a) →
  (∀ x y, minus (plus x y) x = y) →
  bit_of zero plus a m_tree → Z.of_nat (length m_tree) ≤ 2 ^ 30 →
  (32 ≤ fuel)%nat →
  ∀ key, 0 < key < Z.of_nat (length m_tree) →
         BIT_Get zero plus minus ndebug fuel m_tree key = Returned (Some (a key)).
Proof.
  intros Hassoc Hcomm Hzero Hminus Hbit Hlen Hfuel key Hkey. unfold BIT_Get.
  rewrite assert_passes by (right; apply Z.ltb_lt; lia). cbn [bind].
  rewrite to_int_id by lia.
  rewrite !(BIT_Accumulate_spec zero plus Hassoc Hcomm Hzero a) by (done || lia).
  cbn [mbind option_bind]. do 2 f_equal.
  rewrite (sum_split zero plus Hassoc Hcomm Hzero a 0 (key - 1) key) by lia.
  rewrite (sum_single zero plus Hcomm Hzero). apply Hminus.
Qed.

(** X24.  [Accumulate] and [Get] on a tree that represents the values [a]
    (node [j] holds the sum of the [last_bit j] values ending with number
    [j]), for an addition that is associative and commutative with [0] as
    its identity, a vector of at most [2^30] nodes and fuel for 32 rounds:
    [Accumulate(key)] returns the sum of the values number 1 to [key];
    a key beyond the vector has no defined result, as the first round reads
    outside the vector.  When subtraction undoes addition, [Get(key)]
    returns the value number [key]; built with assertions it is stopped for
    a key that is not positive.  The tree that the constructor makes
    represents the values that are all [0]. *)
Theorem BIT_Accumulate_is_prefix_sum {Value : Type} (zero : Value)
    (plus minus : Value → Value → Value) (a : Z → Value)
    (m_tree : list Value) (fuel : nat) (ndebug : bool) :
  (∀ a b c, plus (plus a b) c = plus a (plus b c)) →
  (∀ a b, plus a b = plus b a) → (∀ a, plus a zero = a) →
  bit_of zero plus a m_tree → Z.of_nat (length m_tree) ≤ 2 ^ 30 →
  (32 ≤ fuel)%nat →
  (∀ key, 0 ≤ key < Z.of_nat (length m_tree) →
          BIT_Accumulate zero plus fuel m_tree key
          = Some (sum_range zero plus a 0 key))
  ∧ (∀ key, Z.of_nat (length m_tree) ≤ key < 2 ^ 31 → 0 < key →
            BIT_Accumulate zero plus fuel m_tree key = None)
  ∧ ((∀ x y, minus (plus x y) x = y) →
     ∀ key, 0 < key < Z.of_nat (length m_tree) →
            BIT_Get zero plus minus ndebug fuel m_tree key
            = Returned (Some (a key)))
  ∧ (∀ key, key ≤ 0 →
            BIT_Get zero plus minus false fuel m_tree key
            = Failed AssertionFailed)
  ∧ (∀ size, 0 ≤ size < 2 ^ 31 →
             bit_of zero plus (λ _, zero) (BinaryIndexedTree_new zero size)).
Proof.
  intros Hassoc Hcomm Hzero Hbit Hlen Hfuel.
  assert (Hacc : ∀ key, 0 ≤ key < Z.of_nat (length m_tree) →
            BIT_Accumulate zero plus fuel m_tree key
            = Some (sum_range zero plus a 0 key))
    by (intros; by apply BIT_Accumulate_spec).
  split; [done|]. split; [|split; [|split]].
  - intros key Hkey Hpos. unfold BIT_Accumulate.
    destruct fuel as [|fuel']; [done|]. cbn [BIT_Accumulate_loop].
    destruct (Z.ltb_spec 0 key); [|lia].
    rewrite to_size_id by (unfold SIZE_MOD; lia).
    rewrite vec_get_lookup by lia.
    rewrite lookup_ge_None_2 by lia. done.
  - intros Hminus key Hkey. by apply BIT_Get_spec.
  - intros key Hkey. unfold BIT_Get.
    rewrite assert_false_fails; [done|]. apply Z.ltb_ge. lia.
  - intros size Hsize. by apply BinaryIndexedTree_new_bit_of.
Qed.

Lemma BIT_Accumulate_is_prefix_sum_witness :
  BIT_Accumulate 0 Z.add 32 [0; 5; 7; 1] 3 = Some (5 + 2 + 1).
Proof.
  pose (a := λ i : Z, if decide (i = 1) then 5 else if decide (i = 2) then 2
                      else if decide (i = 3) then 1 else 0).
  destruct (BIT_Accumulate_is_prefix_sum 0 Z.add Z.sub a [0; 5; 7; 1] 32 false)
    as (Hacc & _);
    [intros; lia | intros; lia | intros; lia | | simpl; lia | lia | ].
  - intros j Hj. simpl in Hj.
    assert (j = 1 ∨ j = 2 ∨ j = 3) as [-> | [-> | ->]] by lia; reflexivity.
  - rewrite (Hacc 3) by (simpl; lia). reflexivity.
Defined.

(** X25.  [Add(key, val)] with a positive key on a tree that represents the
    values [a], under the same conditions: the call returns, the vector keeps
    its size, and the tree then represents the values with [val] added to
    the value number [key]; so [Accumulate(k)] afterwards is what it was
    before for [k < key] and has [val] added for [k >= key].  Built with
    assertions, a key that is not positive stops the call; with [NDEBUG] the
    key 0 makes the loop run for ever, whatever the fuel. *)
Theorem BIT_Add_adds_to_one_value {Value : Type} (zero : Value)
    (plus : Value → Value → Value) (a : Z → Value)
    (m_tree : list Value) (fuel : nat) (ndebug : bool) (key : Z) (val : Value) :
  (∀ a b c, plus (plus a b) c = plus a (plus b c)) →
  (∀ a b, plus a b = plus b a) → (∀ a, plus a zero = a) →
  bit_of zero plus a m_tree → Z.of_nat (length m_tree) ≤ 2 ^ 30 →
  (32 ≤ fuel)%nat →
  (0 < key < 2 ^ 31 →
   ∃ m_tree',
     BIT_Add plus ndebug fuel m_tree key val = Returned (Some m_tree')
     ∧ length m_tree' = length m_tree
     ∧ bit_of zero plus (added plus a key val) m_tree'
     ∧ ∀ k, 0 ≤ k < Z.of_nat (length m_tree) →
            BIT_Accumulate zero plus fuel m_tree' k
            = Some (if decide (key ≤ k)
                    then plus (sum_range zero plus a 0 k) val
                    else sum_range zero plus a 0 k))
  ∧ (key ≤ 0 → BIT_Add plus false fuel m_tree key val = Failed AssertionFailed)
  ∧ (key = 0 → (0 < length m_tree)%nat →
     ∀ fuel', BIT_Add plus true fuel' m_tree key val = Returned None).
Proof.
  intros Hassoc Hcomm Hzero Hbit Hlen Hfuel. split; [|split].
  - intros Hkey.
    destruct (BIT_Add_spec zero plus Hassoc Hcomm Hzero a m_tree fuel key val
                Hbit Hlen Hfuel Hkey) as (m_tree' & E & Hl & _ & Hbit').
    exists m_tree'. unfold BIT_Add.
    rewrite assert_passes by (right; apply Z.ltb_lt; lia). cbn [bind].
    rewrite E. split_and!; try done.
    intros k Hk.
    rewrite (BIT_Accumulate_spec zero plus Hassoc Hcomm Hzero
               (added plus a key val) m_tree' fuel k Hbit')
      by (rewrite ?Hl; lia).
    f_equal. destruct (decide (key ≤ k)).
    + apply (sum_added_in zero plus Hassoc Hcomm Hzero). lia.
    + apply sum_added_out. lia.
  - intros Hkey. unfold BIT_Add.
    rewrite assert_false_fails; [done|]. apply Z.ltb_ge. lia.
  - intros -> Hne fuel'. unfold BIT_Add. cbn [assert_ orb bind].
    by rewrite BIT_Add_loop_zero.
Qed.

Lemma BIT_Add_adds_to_one_value_witness :
  ∃ m_tree', BIT_Add Z.add false 32 [0; 0; 0; 0; 0] 3 7 = Returned (Some m_tree')
             ∧ BIT_Accumulate 0 Z.add 32 m_tree' 4 = Some 7
             ∧ BIT_Accumulate 0 Z.add 32 m_tree' 2 = Some 0.
Proof.
  destruct (BIT_Add_adds_to_one_value 0 Z.add (λ _, 0) [0; 0; 0; 0; 0] 32 false 3 7)
    as [H _];
    [intros; lia | intros; lia | intros; lia | | simpl; lia | lia | ].
  - intros j Hj. simpl in Hj. rewrite sum_zero by (intros; lia).
    assert (j = 1 ∨ j = 2 ∨ j = 3 ∨ j = 4) as [-> | [-> | [-> | ->]]] by lia;
      reflexivity.
  - destruct H as (m_tree' & E & _ & _ & Hacc); [lia|].
    exists m_tree'. split; [exact E|].
    split; [rewrite (Hacc 4) by (simpl; lia) | rewrite (Hacc 2) by (simpl; lia)];
      rewrite sum_zero by (intros; lia); reflexivity.
Defined.

(** X26.  [Set(key, val)] with a key inside the vector, for an addition and
    subtraction that undo each other: the call returns and afterwards
    [Get(key)] returns [val], while [Get] of every other key returns what it
    returned before. *)
Theorem BIT_Set_then_Get {Value : Type} (zero : Value)
    (plus minus : Value → Value → Value) (a : Z → Value)
    (m_tree : list Value) (fuel : nat) (ndebug : bool) (key : Z) (val : Value) :
  (∀ a b c, plus (plus a b) c = plus a (plus b c)) →
  (∀ a b, plus a b = plus b a) → (∀ a, plus a zero = a) →
  (∀ x y, minus (plus x y) x = y) → (∀ x y, plus x (minus y x) = y) →
  bit_of zero plus a m_tree → Z.of_nat (length m_tree) ≤ 2 ^ 30 →
  (32 ≤ fuel)%nat → 0 < key < Z.of_nat (length m_tree) →
  ∃ m_tree',
    BIT_Set zero plus minus ndebug fuel m_tree key val = Returned (Some m_tree')
    ∧ length m_tree' = length m_tree
    ∧ BIT_Get zero plus minus ndebug fuel m_tree' key = Returned (Some val)
    ∧ ∀ k, 0 < k < Z.of_nat (length m_tree) → k ≠ key →
           BIT_Get zero plus minus ndebug fuel m_tree' k
           = BIT_Get zero plus minus ndebug fuel m_tree k.
Proof.
  intros Hassoc Hcomm Hzero Hminus Hplus Hbit Hlen Hfuel Hkey.
  pose proof (BIT_Get_spec zero plus minus a m_tree fuel ndebug
                Hassoc Hcomm Hzero Hminus Hbit Hlen Hfuel) as Hget.
  destruct (BIT_Add_spec zero plus Hassoc Hcomm Hzero a m_tree fuel key
              (minus val (a key)) Hbit Hlen Hfuel ltac:(lia))
    as (m_tree' & E & Hl & _ & Hbit').
  exists m_tree'. unfold BIT_Set.
  rewrite assert_passes by (right; apply Z.ltb_lt; lia). cbn [bind].
  rewrite Hget by done. cbn [bind]. unfold BIT_Add.
  rewrite assert_passes by (right; apply Z.ltb_lt; lia). cbn [bind].
  rewrite E. split_and!; try done.
  - rewrite (BIT_Get_spec zero plus minus _ m_tree' fuel ndebug
               Hassoc Hcomm Hzero Hminus Hbit' ltac:(rewrite Hl; lia) Hfuel)
      by (rewrite Hl; lia).
    unfold added. destruct (decide (key = key)); [|done]. by rewrite Hplus.
  - intros k Hk Hne.
    rewrite (BIT_Get_spec zero plus minus _ m_tree' fuel ndebug
               Hassoc Hcomm Hzero Hminus Hbit' ltac:(rewrite Hl; lia) Hfuel)
      by (rewrite Hl; lia).
    rewrite Hget by done. unfold added. by destruct (decide (k = key)).
Qed.

Lemma BIT_Set_then_Get_witness :
  ∃ m_tree', BIT_Set 0 Z.add Z.sub false 32 [0; 0; 0; 0; 0] 2 9
             = Returned (Some m_tree')
             ∧ BIT_Get 0 Z.add Z.sub false 32 m_tree' 2 = Returned (Some 9).
Proof.
  destruct (BIT_Set_then_Get 0 Z.add Z.sub (λ _, 0) [0; 0; 0; 0; 0] 32 false 2 9)
    as (m_tree' & E & _ & Hget & _);
    [intros; lia | intros; lia | intros; lia | intros; lia | intros; lia
    | | simpl; lia | lia | simpl; lia | ].
  - intros j Hj. simpl in Hj. rewrite sum_zero by (intros; lia).
    assert (j = 1 ∨ j = 2 ∨ j = 3 ∨ j = 4) as [-> | [-> | [-> | ->]]] by lia;
      reflexivity.
  - exists m_tree'. split; [exact E | exact Hget].
Defined.

(** ** UFSet *)

Lemma root_of_range p i r :
  root_of p i r →
  0 ≤ i < Z.of_nat (length p) ∧ 0 ≤ r < Z.of_nat (length p)
  ∧ p !! Z.to_nat r = Some r.
Proof.
  induction 1 as [i Hi E|i j r Hi E Hne Hr IH].
  - apply lookup_lt_Some in E as Hlt. split_and!; [lia..|done].
  - apply lookup_lt_Some in E as Hlt. split_and!; [lia|lia|apply IH..].
Qed.

Lemma root_of_functional p i r r' : root_of p i r → root_of p i r' → r = r'.
Proof.
  intros H. revert r'. induction H as [i Hi E|i j r Hi E Hne Hr IH]; intros r' H'.
  - inversion H' as [? ? E'|? j' ? ? E' Hne' Hr']; subst; [done|].
    rewrite E in E'. by injection E' as <-.
  - inversion H' as [? ? E'|? j' ? ? E' Hne' Hr']; subst.
    + rewrite E in E'. by injection E' as ->.
    + rewrite E in E'. injection E' as <-. by apply IH.
Qed.

Section UFSetFacts.
Variable rank : Z → Z.
Variable B : Z.

Lemma root_of_total p :
  ranked p rank B →
  ∀ (k : nat) i, 0 ≤ i < Z.of_nat (length p) → B - rank i < Z.of_nat k →
    ∃ r, root_of p i r ∧ rank i ≤ rank r.
Proof.
  intros HR. induction k as [|k IH]; intros i Hi Hk.
  - destruct (HR i Hi) as (j & _ & _ & ? & _). lia.
  - destruct (HR i Hi) as (j & E & Hj & Hrk & [-> | Hlt]).
    + exists i. split; [apply root_of_self; [lia|done]|lia].
    + destruct (IH j Hj ltac:(lia)) as (r & Hr & ?).
      exists r. split; [|lia].
      apply (root_of_step p i j r); [lia|done|intros ->; lia|done].
Qed.

(** Ranks grow towards the root. *)
Lemma root_of_rank p i r :
  ranked p rank B → root_of p i r → i = r ∨ rank i < rank r.
Proof.
  intros HR. induction 1 as [i Hi E|i j r Hi E Hne Hr IH]; [by left|right].
  apply lookup_lt_Some in E as Hlt.
  destruct (HR i ltac:(lia)) as (j' & E' & _ & _ & [-> | Hlt']).
  - rewrite E in E'. by injection E' as ->.
  - rewrite E in E'. injection E' as <-. destruct IH as [-> | ?]; lia.
Qed.

(** Giving an element an ancestor of higher rank as its parent leaves every
    root as it was. *)
Lemma root_of_compress p y a :
  ranked p rank B →
  0 ≤ y < Z.of_nat (length p) → 0 ≤ a < Z.of_nat (length p) →
  rank y < rank a → (∀ ρ, root_of p y ρ → root_of p a ρ) →
  ∀ (k : nat) i ρ, B - rank i < Z.of_nat k →
    root_of p i ρ → root_of (<[Z.to_nat y := a]> p) i ρ.
Proof.
  intros HR Hy Ha Hrk Hanc. induction k as [|k IH]; intros i ρ Hk Hroot.
  - apply root_of_range in Hroot as (Hi & _).
    destruct (HR i Hi) as (j & _ & _ & ? & _). lia.
  - pose proof (root_of_range _ _ _ Hroot) as (Hi & _).
    destruct (HR i Hi) as (_ & _ & _ & Hri & _).
    destruct (decide (i = y)) as [->|Hne].
    + apply (root_of_step _ y a ρ); [lia| |intros ->; lia|].
      * apply list_lookup_insert_eq. lia.
      * apply IH; [lia|]. by apply Hanc.
    + inversion Hroot as [? ? E|? j ? ? E Hne' Hr']; subst.
      * apply root_of_self; [lia|]. by rewrite list_lookup_insert_ne by lia.
      * destruct (HR i Hi) as (j' & E' & _ & _ & [-> | Hlt]);
          rewrite E in E'; injection E' as <-; [done|].
        apply (root_of_step _ i j ρ); [lia| |done|].
        -- by rewrite list_lookup_insert_ne by lia.
        -- apply IH; [lia|done].
Qed.

Lemma ranked_compress p y a :
  ranked p rank B →
  0 ≤ y < Z.of_nat (length p) → 0 ≤ a < Z.of_nat (length p) →
  a = y ∨ rank y < rank a →
  ranked (<[Z.to_nat y := a]> p) rank B.
Proof.
  intros HR Hy Ha Hrk i Hi. rewrite length_insert in *.
  destruct (HR i Hi) as (j & E & Hj & Hri & Hpar).
  destruct (decide (i = y)) as [->|Hne].
  - exists a. rewrite list_lookup_insert_eq by lia. done.
  - exists j. rewrite list_lookup_insert_ne by lia. done.
Qed.

Lemma root_of_compress_iff p y a :
  ranked p rank B → 0 ≤ B →
  0 ≤ y < Z.of_nat (length p) → 0 ≤ a < Z.of_nat (length p) →
  rank y < rank a → (∀ ρ, root_of p y ρ → root_of p a ρ) →
  ∀ i ρ, root_of (<[Z.to_nat y := a]> p) i ρ ↔ root_of p i ρ.
Proof.
  intros HR HB Hy Ha Hrk Hanc i ρ.
  assert (Hfwd : ∀ i ρ, root_of p i ρ → root_of (<[Z.to_nat y := a]> p) i ρ).
  { intros i' ρ' H'. pose proof (root_of_range _ _ _ H') as (Hi' & _).
    destruct (HR i' Hi') as (_ & _ & _ & ? & _).
    apply (root_of_compress p y a HR Hy Ha Hrk Hanc (Z.to_nat (B + 1))); [lia|done]. }
  split; [|apply Hfwd].
  intros H'. pose proof (root_of_range _ _ _ H') as (Hi & _).
  rewrite length_insert in Hi.
  destruct (HR i Hi) as (_ & _ & _ & ? & _).
  destruct (root_of_total p HR (Z.to_nat (B + 1)) i Hi ltac:(lia)) as (r & Hr & _).
  by rewrite (root_of_functional _ _ _ _ H' (Hfwd _ _ Hr)).
Qed.

(** The loop of [Root]. *)
Lemma UFSet_Root_spec p :
  ranked p rank B → 0 ≤ B → Z.of_nat (length p) < 2 ^ 31 →
  ∀ (k fuel : nat) id,
    (k < fuel)%nat → 0 ≤ id < Z.of_nat (length p) → B - rank id < Z.of_nat k →
    ∃ root p',
      UFSet_Root fuel p id = Some (root, p')
      ∧ root_of p id root
      ∧ length p' = length p
      ∧ ranked p' rank B
      ∧ ∀ i ρ, root_of p' i ρ ↔ root_of p i ρ.
Proof.
  intros HR HB Hlen k. revert p HR Hlen.
  induction k as [|k IH]; intros p HR Hlen fuel id Hfuel Hid Hk.
  - destruct (HR id Hid) as (j & _ & _ & ? & _). lia.
  - destruct fuel as [|fuel]; [lia|]. cbn [UFSet_Root].
    destruct (HR id Hid) as (y & Ey & Hy & Hrid & Hpar).
    rewrite to_size_id by (unfold SIZE_MOD; lia).
    rewrite vec_get_lookup, Ey by lia. cbn [mbind option_bind].
    destruct (Z.eqb_spec id y) as [<-|Hne].
    { exists id, p. split_and!; try done. apply root_of_self; [lia|done]. }
    destruct Hpar as [->|Hlt]; [done|].
    destruct (HR y Hy) as (z & Ez & Hz & Hry & Hparz).
    destruct (HR z Hz) as (pp & Epp & Hpp & Hrz & Hparpp).
    rewrite !(to_size_id y) by (unfold SIZE_MOD; lia).
    rewrite vec_get_lookup, Ez by lia. cbn [mbind option_bind].
    rewrite (to_size_id z) by (unfold SIZE_MOD; lia).
    rewrite vec_get_lookup, Epp by lia. cbn [mbind option_bind].
    rewrite vec_set_Some by lia. cbn [mbind option_bind].
    set (p1 := <[Z.to_nat y := pp]> p).
    assert (HR1 : ranked p1 rank B).
    { apply ranked_compress; [done..|].
      destruct Hparz as [->|?]; [left; congruence|right].
      destruct Hparpp as [->|?]; lia. }
    assert (Hiff : ∀ i ρ, root_of p1 i ρ ↔ root_of p i ρ).
    { destruct (decide (pp = z)) as [->|Hppz].
      - destruct (decide (z = y)) as [->|Hzy].
        + subst p1. by rewrite list_insert_id by done.
        + (* the grandparent is a root: nothing changes *)
          subst p1. by rewrite list_insert_id by done.
      - destruct Hparpp as [->|Hlt2]; [done|].
        destruct Hparz as [->|Hlt1].
        + rewrite Ez in Epp. by injection Epp as ->.
        + apply root_of_compress_iff; [done|done|done|done|lia|].
          intros ρ Hρ.
          inversion Hρ as [? ? E'|? j' ? ? E' Hne' Hr']; subst;
            rewrite Ez in E'; injection E' as <-; [lia|].
          inversion Hr' as [? ? E''|? j'' ? ? E'' Hne'' Hr'']; subst;
            rewrite Epp in E''; injection E'' as <-; [done|done]. }
    destruct (IH p1 HR1 ltac:(subst p1; by rewrite length_insert) fuel z)
      as (root & p' & E & Hroot & Hl' & HR' & Hiff');
      [lia|subst p1; rewrite length_insert; lia|destruct Hparz as [->|?]; lia|].
    exists root, p'. split_and!; [done| |by rewrite Hl'; subst p1; rewrite length_insert|done|].
    + apply Hiff in Hroot.
      apply (root_of_step p id y root); [lia|done|done|].
      destruct (decide (z = y)) as [->|Hzy]; [done|].
      apply (root_of_step p y z root); [lia|done|done|done].
    + intros i ρ. by rewrite Hiff', Hiff.
Qed.
End UFSetFacts.

Lemma UFSet_new_spec size :
  0 ≤ size < 2 ^ 31 →
  length (UFSet_new size) = Z.to_nat size
  ∧ ∀ i, 0 ≤ i < size → UFSet_new size !! Z.to_nat i = Some i.
Proof.
  intros Hsize. unfold UFSet_new.
  apply (for_invariant
           (λ k s, length s = Z.to_nat size
                   ∧ ∀ i, 0 ≤ i < k → s !! Z.to_nat i = Some i)); [lia| |].
  - split; [by rewrite length_replicate|intros; lia].
  - intros k s Hk [Hl Hin]. rewrite length_insert.
    rewrite to_int_id, to_size_id by (unfold SIZE_MOD; lia).
    split; [done|]. intros i Hi.
    destruct (decide (i = k)) as [->|Hne].
    + apply list_lookup_insert_eq. lia.
    + rewrite list_lookup_insert_ne by lia. apply Hin. lia.
Qed.

(** Making the root [root2] a child of another root [root1]. *)
Lemma root_of_link p root1 root2 :
  p !! Z.to_nat root1 = Some root1 → p !! Z.to_nat root2 = Some root2 →
  0 ≤ root1 → 0 ≤ root2 → root1 ≠ root2 →
  ∀ i ρ, root_of p i ρ →
         root_of (<[Z.to_nat root2 := root1]> p) i
                 (if decide (ρ = root2) then root1 else ρ).
Proof.
  intros E1 E2 H1 H2 Hne i ρ Hroot.
  assert (Hr1 : root_of (<[Z.to_nat root2 := root1]> p) root1 root1).
  { apply root_of_self; [done|]. by rewrite list_lookup_insert_ne by lia. }
  induction Hroot as [i Hi E|i j r Hi E Hne' Hr IH].
  - destruct (decide (i = root2)) as [->|Hi2].
    + apply (root_of_step _ root2 root1 root1); [done| |done|done].
      apply list_lookup_insert_eq. by apply lookup_lt_Some in E.
    + apply root_of_self; [done|]. by rewrite list_lookup_insert_ne by lia.
  - apply (root_of_step _ i j); [done| |done|done].
    rewrite list_lookup_insert_ne; [done|].
    intros Heq. assert (i = root2) as -> by lia.
    rewrite E2 in E. by injection E as ->.
Qed.

Lemma ranked_link p rank B root1 root2 :
  ranked p rank B →
  p !! Z.to_nat root1 = Some root1 → p !! Z.to_nat root2 = Some root2 →
  0 ≤ root1 < Z.of_nat (length p) → 0 ≤ root2 → root1 ≠ root2 →
  ranked (<[Z.to_nat root2 := root1]> p)
         (λ i, if decide (i = root1) then Z.max (rank root1) (rank root2 + 1)
               else rank i)
         (B + 1).
Proof.
  intros HR E1 E2 H1 H2 Hne i Hi. rewrite length_insert in *.
  destruct (HR i Hi) as (j & E & Hj & Hri & Hpar).
  destruct (HR root1 H1) as (_ & _ & _ & Hr1 & _).
  assert (root2 < Z.of_nat (length p)) by (apply lookup_lt_Some in E2; lia).
  destruct (HR root2 ltac:(lia)) as (_ & _ & _ & Hr2 & _).
  destruct (decide (i = root2)) as [->|Hi2].
  - exists root1. rewrite list_lookup_insert_eq by lia.
    split; [done|]. split; [lia|]. split.
    + destruct (decide (root2 = root1)); lia.
    + right. destruct (decide (root2 = root1)); [done|].
      destruct (decide (root1 = root1)); [lia|done].
  - exists j. rewrite list_lookup_insert_ne by lia.
    split; [done|]. split; [done|]. split.
    + destruct (decide (i = root1)); lia.
    + destruct Hpar as [->|Hlt]; [by left|].
      destruct (decide (i = root1)) as [->|Hi1].
      * rewrite E1 in E. injection E as <-. by left.
      * right. destruct (decide (i = root1)); [done|].
        destruct (decide (j = root1)) as [->|]; lia.
Qed.

(** [Merge] on a forest. *)
Lemma UFSet_Merge_spec p rank B fuel id1 id2 :
  ranked p rank B → 0 ≤ B → Z.of_nat (length p) < 2 ^ 31 →
  (Z.to_nat B + 1 < fuel)%nat →
  0 ≤ id1 < Z.of_nat (length p) → 0 ≤ id2 < Z.of_nat (length p) →
  ∃ root1 root2 p' rank',
    UFSet_Merge fuel p id1 id2 = Some (negb (root1 =? root2), p')
    ∧ root_of p id1 root1 ∧ root_of p id2 root2
    ∧ length p' = length p
    ∧ ranked p' rank' (B + 1)
    ∧ ∀ i ρ, root_of p i ρ →
             root_of p' i (if decide (ρ = root2) then root1 else ρ).
Proof.
  intros HR HB Hlen Hfuel H1 H2. unfold UFSet_Merge.
  rewrite !to_int_id by lia.
  destruct (HR id1 H1) as (_ & _ & _ & Hr1 & _).
  destruct (UFSet_Root_spec rank B p HR HB Hlen (Z.to_nat (B + 1)) fuel id1)
    as (root1 & p1 & E1 & Hroot1 & Hl1 & HR1 & Hiff1); [lia|lia|lia|].
  rewrite E1. cbn [mbind option_bind fst snd].
  destruct (UFSet_Root_spec rank B p1 HR1 HB ltac:(lia) (Z.to_nat (B + 1)) fuel id2)
    as (root2 & p2 & E2 & Hroot2 & Hl2 & HR2 & Hiff2); [lia|lia| |].
  { destruct (HR id2 H2) as (_ & _ & _ & ? & _). lia. }
  rewrite E2. cbn [mbind option_bind fst snd].
  apply Hiff1 in Hroot2.
  pose proof (root_of_range _ _ _ Hroot1) as (_ & Hrt1 & _).
  pose proof (root_of_range _ _ _ Hroot2) as (_ & Hrt2 & _).
  assert (Hr1p2 : root_of p2 id1 root1) by (by apply Hiff2, Hiff1).
  pose proof (root_of_range _ _ _ Hr1p2) as (_ & _ & Eroot1).
  assert (Hr2p2 : root_of p2 id2 root2) by (by apply Hiff2, Hiff1).
  pose proof (root_of_range _ _ _ Hr2p2) as (_ & _ & Eroot2).
  rewrite to_size_id by (unfold SIZE_MOD; lia).
  rewrite vec_set_Some by lia. cbn [mbind option_bind].
  rewrite vec_set_Some by (rewrite length_insert; lia).
  cbn [mbind option_bind].
  set (p3 := <[Z.to_nat root2 := root1]> p2).
  (* the forest after the link, with its ranks *)
  assert (∃ rank3,
            ranked p3 rank3 (B + 1)
            ∧ (∀ i ρ, root_of p i ρ →
                      root_of p3 i (if decide (ρ = root2) then root1 else ρ))
            ∧ p3 !! Z.to_nat root1 = Some root1)
    as (rank3 & HR3 & Hmap3 & Eroot13).
  { destruct (decide (root1 = root2)) as [->|Hne].
    - exists rank. subst p3. rewrite list_insert_id by done. split_and!.
      + intros i Hi. destruct (HR2 i Hi) as (j & ? & ? & ? & ?).
        exists j. split; [done|]. split; [done|]. split; [lia|done].
      + intros i ρ Hρ. apply Hiff2, Hiff1.
        by destruct (decide (ρ = root2)) as [->|].
      + done.
    - eexists. split_and!.
      + apply ranked_link; [done|done|done|lia|lia|done].
      + intros i ρ Hρ. apply root_of_link; [done|done|lia|lia|done|].
        by apply Hiff2, Hiff1.
      + subst p3. by rewrite list_lookup_insert_ne by lia. }
  assert (Hl3 : length p3 = length p) by (subst p3; rewrite length_insert; lia).
  (* the parent of id1 becomes its root *)
  assert (Hr1p3 : root_of p3 id1 root1).
  { pose proof (Hmap3 id1 root1 Hroot1) as H'.
    by destruct (decide (root1 = root2)). }
  destruct (decide (id1 = root1)) as [->|Hne1].
  { exists root1, root2, p3, rank3. rewrite list_insert_id by done.
    split_and!; done. }
  destruct (root_of_rank rank3 (B + 1) p3 id1 root1 HR3 Hr1p3) as [?|Hlt]; [done|].
  exists root1, root2, (<[Z.to_nat id1 := root1]> p3), rank3.
  split_and!; [done|done|done|by rewrite length_insert| |].
  - apply ranked_compress; [done|lia|lia|by right].
  - intros i ρ Hρ.
    apply (root_of_compress_iff rank3 (B + 1) p3 id1 root1);
      [done|lia|lia|lia|done| |by apply Hmap3].
    intros ρ' Hρ'.
    rewrite (root_of_functional _ _ _ _ Hρ' Hr1p3).
    apply root_of_self; [lia|done].
Qed.

(** X27.  [UFSet(size)] for a size within [int]: the vector has [size]
    entries, every element is its own parent and so its own root, [Query]
    of an element returns the element itself and [Query] outside the vector
    has no defined result; the parents form a forest in which every rank
    is 0. *)
Theorem UFSet_new_all_singletons (size : Z) :
  0 ≤ size < 2 ^ 31 →
  Z.of_nat (length (UFSet_new size)) = size
  ∧ (∀ i, 0 ≤ i < size →
          UFSet_Query (UFSet_new size) i = Some i
          ∧ root_of (UFSet_new size) i i)
  ∧ (∀ i, size ≤ i → UFSet_Query (UFSet_new size) i = None)
  ∧ ranked (UFSet_new size) (λ _, 0) 0.
Proof.
  intros Hsize. destruct (UFSet_new_spec size Hsize) as [Hl Hin].
  split_and!.
  - lia.
  - intros i Hi. split.
    + unfold UFSet_Query. rewrite vec_get_lookup by lia. by apply Hin.
    + apply root_of_self; [lia|by apply Hin].
  - intros i Hi. unfold UFSet_Query. rewrite vec_get_lookup by lia.
    apply lookup_ge_None_2. lia.
  - intros i Hi. exists i. rewrite Hl in *.
    split; [apply Hin; lia|]. split; [lia|]. split; [lia|by left].
Qed.

Lemma UFSet_new_all_singletons_witness :
  UFSet_Query (UFSet_new 4) 2 = Some 2 ∧ root_of (UFSet_new 4) 2 2.
Proof.
  destruct (UFSet_new_all_singletons 4) as (_ & H & _); [lia|].
  apply (H 2). lia.
Defined.

(** X28.  [Root(id)] on a forest whose ranks are at most [B], with fuel for
    more than [B + 1] rounds and an element [id] of the vector: the call
    returns the root of [id], which is its own parent; the vector keeps its
    size and is still such a forest, and every element has the root
    afterwards that it had before, although parents on the path were
    replaced.  For an [id] beyond the vector there is no defined result: the
    first round reads outside the vector. *)
Theorem UFSet_Root_finds_root (m_parent : list Z) (rank : Z → Z) (B : Z)
    (fuel : nat) (id : Z) :
  ranked m_parent rank B → 0 ≤ B → Z.of_nat (length m_parent) < 2 ^ 31 →
  (Z.to_nat B + 1 < fuel)%nat →
  (0 ≤ id < Z.of_nat (length m_parent) →
   ∃ root m_parent',
     UFSet_Root fuel m_parent id = Some (root, m_parent')
     ∧ root_of m_parent id root
     ∧ m_parent' !! Z.to_nat root = Some root
     ∧ length m_parent' = length m_parent
     ∧ ranked m_parent' rank B
     ∧ ∀ i ρ, root_of m_parent' i ρ ↔ root_of m_parent i ρ)
  ∧ (Z.of_nat (length m_parent) ≤ id < 2 ^ 31 →
     UFSet_Root fuel m_parent id = None).
Proof.
  intros HR HB Hlen Hfuel. split.
  - intros Hid. destruct (HR id Hid) as (_ & _ & _ & Hrk & _).
    destruct (UFSet_Root_spec rank B m_parent HR HB Hlen
                (Z.to_nat (B + 1)) fuel id)
      as (root & p' & E & Hroot & Hl & HR' & Hiff); [lia|lia|lia|].
    exists root, p'. split_and!; try done.
    apply Hiff in Hroot. by apply root_of_range in Hroot as (_ & _ & ?).
  - intros Hid. destruct fuel as [|fuel']; [lia|]. cbn [UFSet_Root].
    rewrite to_size_id by (unfold SIZE_MOD; lia).
    rewrite vec_get_lookup by lia.
    rewrite lookup_ge_None_2 by lia. done.
Qed.

Lemma UFSet_Root_finds_root_witness :
  ∃ root m_parent',
    UFSet_Root 5 [0; 0; 1; 2] 3 = Some (root, m_parent')
    ∧ root_of [0; 0; 1; 2] 3 root.
Proof.
  destruct (UFSet_Root_finds_root [0; 0; 1; 2] (λ i, 3 - i) 3 5 3) as [H _].
  - intros i Hi. simpl in Hi.
    assert (i = 0 ∨ i = 1 ∨ i = 2 ∨ i = 3) as [-> | [-> | [-> | ->]]] by lia;
      eexists; (split; [reflexivity|]); simpl; lia.
  - lia.
  - simpl. lia.
  - simpl. lia.
  - destruct H as (root & p' & E & Hroot & _); [simpl; lia|].
    exists root, p'. split; [exact E | exact Hroot].
Defined.

(** X29.  [Merge(id1, id2)] on such a forest, for two elements of the
    vector: the call returns, and it returns [true] exactly when the two
    elements had different roots.  Afterwards every element whose root was
    the root of [id2] has the root of [id1] as its root, and every other
    element keeps its root; so two elements are in one set afterwards
    exactly when they were before or when one was in the set of [id1] and
    the other in the set of [id2].  The result is again a forest, with
    ranks of at most [B + 1]. *)
Theorem UFSet_Merge_unites (m_parent : list Z) (rank : Z → Z) (B : Z)
    (fuel : nat) (id1 id2 : Z) :
  ranked m_parent rank B → 0 ≤ B → Z.of_nat (length m_parent) < 2 ^ 31 →
  (Z.to_nat B + 1 < fuel)%nat →
  0 ≤ id1 < Z.of_nat (length m_parent) → 0 ≤ id2 < Z.of_nat (length m_parent) →
  ∃ root1 root2 m_parent' rank',
    UFSet_Merge fuel m_parent id1 id2 = Some (negb (root1 =? root2), m_parent')
    ∧ root_of m_parent id1 root1 ∧ root_of m_parent id2 root2
    ∧ root_of m_parent' id1 root1 ∧ root_of m_parent' id2 root1
    ∧ length m_parent' = length m_parent
    ∧ ranked m_parent' rank' (B + 1)
    ∧ (∀ i ρ, root_of m_parent i ρ →
              root_of m_parent' i (if decide (ρ = root2) then root1 else ρ))
    ∧ ∀ i j ρi ρj, root_of m_parent i ρi → root_of m_parent j ρj →
        ((∃ r, root_of m_parent' i r ∧ root_of m_parent' j r)
         ↔ ρi = ρj ∨ ((ρi = root1 ∨ ρi = root2) ∧ (ρj = root1 ∨ ρj = root2))).
Proof.
  intros HR HB Hlen Hfuel H1 H2.
  destruct (UFSet_Merge_spec m_parent rank B fuel id1 id2 HR HB Hlen Hfuel H1 H2)
    as (root1 & root2 & p' & rank' & E & Hr1 & Hr2 & Hl & HR' & Hmap).
  exists root1, root2, p', rank'. split_and!; try done.
  - pose proof (Hmap id1 root1 Hr1) as H. by destruct (decide (root1 = root2)).
  - pose proof (Hmap id2 root2 Hr2) as H. by destruct (decide (root2 = root2)).
  - intros i j ρi ρj Hi Hj.
    pose proof (Hmap i ρi Hi) as Hi'. pose proof (Hmap j ρj Hj) as Hj'.
    split.
    + intros (r & Hir & Hjr).
      pose proof (root_of_functional _ _ _ _ Hir Hi') as Ei.
      pose proof (root_of_functional _ _ _ _ Hjr Hj') as Ej.
      destruct (decide (ρi = root2)), (decide (ρj = root2)); subst; auto.
    + intros [-> | [Hi12 Hj12]].
      * eexists. split; [exact Hi'|exact Hj'].
      * exists root1. split.
        -- destruct (decide (ρi = root2)); [done|].
           destruct Hi12 as [->|?]; done.
        -- destruct (decide (ρj = root2)); [done|].
           destruct Hj12 as [->|?]; done.
Qed.

Lemma UFSet_Merge_unites_witness :
  ∃ root1 root2 m_parent',
    UFSet_Merge 3 (UFSet_new 4) 1 3 = Some (negb (root1 =? root2), m_parent')
    ∧ root_of m_parent' 1 root1 ∧ root_of m_parent' 3 root1.
Proof.
  destruct (UFSet_new_spec 4) as [Hl Hin]; [lia|].
  destruct (UFSet_Merge_unites (UFSet_new 4) (λ _, 0) 0 3 1 3)
    as (root1 & root2 & p' & _ & E & _ & _ & H1 & H3 & _).
  - intros i Hi. rewrite Hl in *. exists i.
    split; [apply Hin; lia|]. split; [lia|]. split; [lia|by left].
  - lia.
  - rewrite Hl. simpl. lia.
  - simpl. lia.
  - rewrite Hl. simpl. lia.
  - rewrite Hl. simpl. lia.
  - exists root1, root2, p'. split; [exact E|]. split; [exact H1 | exact H3].
Defined.

(** ** UFSet: Reduce *)

Lemma for_opt_loop_invariant {S} (I : Z → S → Prop) (body : Z → S → option S) n :
  ∀ i s, I i s →
    (∀ j s, i ≤ j < i + Z.of_nat n → I j s →
            ∃ s', body j s = Some s' ∧ I (j + 1) s') →
    ∃ s', for_opt_loop n i body s = Some s' ∧ I (i + Z.of_nat n) s'.
Proof.
  induction n as [|n IH]; intros i s Hi Hstep.
  - exists s. split; [done|]. by rewrite Z.add_0_r.
  - cbn [for_opt_loop]. destruct (Hstep i s) as (s1 & E & H1); [lia|done|].
    rewrite E. cbn [mbind option_bind].
    destruct (IH (i + 1) s1 H1) as (s' & E' & H'); [intros; apply Hstep; [lia|done]|].
    exists s'. split; [done|].
    replace (i + Z.of_nat (Datatypes.S n)) with (i + 1 + Z.of_nat n) by lia. done.
Qed.

Lemma for_opt_invariant {S} (I : Z → S → Prop) (body : Z → S → option S) lo hi s :
  lo ≤ hi → I lo s →
  (∀ j s, lo ≤ j < hi → I j s → ∃ s', body j s = Some s' ∧ I (j + 1) s') →
  ∃ s', for_opt lo hi body s = Some s' ∧ I hi s'.
Proof.
  intros Hle H0 Hstep. unfold for_opt.
  destruct (for_opt_loop_invariant I body (Z.to_nat (hi - lo)) lo s H0)
    as (s' & E & H'); [intros; apply Hstep; [lia|done]|].
  exists s'. split; [done|].
  replace (lo + Z.of_nat (Z.to_nat (hi - lo))) with hi in H' by lia. done.
Qed.

(** [Root] leaves the entries as they are that already point to a root. *)
Lemma UFSet_Root_keeps rank B :
  ∀ (fuel : nat) p id root p',
    ranked p rank B → Z.of_nat (length p) < 2 ^ 31 →
    0 ≤ id < Z.of_nat (length p) →
    UFSet_Root fuel p id = Some (root, p') →
    ∀ i ρ, 0 ≤ i → 0 ≤ ρ →
           p !! Z.to_nat i = Some ρ → p !! Z.to_nat ρ = Some ρ →
           p' !! Z.to_nat i = Some ρ.
Proof.
  induction fuel as [|fuel IH]; intros p id root p' HR Hlen Hid E i ρ Hi Hρ Ei Eρ;
    [done|].
  cbn [UFSet_Root] in E.
  destruct (HR id Hid) as (y & Ey & Hy & Hrid & Hpar).
  rewrite to_size_id in E by (unfold SIZE_MOD; lia).
  rewrite vec_get_lookup, Ey in E by lia. cbn [mbind option_bind] in E.
  revert E. destruct (Z.eqb_spec id y) as [<-|Hne]; intros E.
  { injection E as <- <-. done. }
  destruct (HR y Hy) as (z & Ez & Hz & Hry & Hparz).
  destruct (HR z Hz) as (pp & Epp & Hpp & Hrz & Hparpp).
  rewrite !(to_size_id y) in E by (unfold SIZE_MOD; lia).
  rewrite vec_get_lookup, Ez in E by lia. cbn [mbind option_bind] in E.
  rewrite (to_size_id z) in E by (unfold SIZE_MOD; lia).
  rewrite vec_get_lookup, Epp in E by lia. cbn [mbind option_bind] in E.
  rewrite vec_set_Some in E by lia. cbn [mbind option_bind] in E.
  assert (Hkeep : ∀ i ρ, 0 ≤ i → 0 ≤ ρ →
            p !! Z.to_nat i = Some ρ → p !! Z.to_nat ρ = Some ρ →
            <[Z.to_nat y := pp]> p !! Z.to_nat i = Some ρ).
  { intros i' ρ' Hi' Hρ' Ei' Eρ'.
    destruct (decide (i' = y)) as [->|Hiy].
    - rewrite Ez in Ei'. injection Ei' as ->.
      rewrite Epp in Eρ'. injection Eρ' as ->.
      apply list_lookup_insert_eq. lia.
    - by rewrite list_lookup_insert_ne by lia. }
  apply (IH (<[Z.to_nat y := pp]> p) z root p'); [| | |done|done|done| |].
  - apply ranked_compress; [done..|].
    destruct Hparz as [->|?]; [left; congruence|right].
    destruct Hparpp as [->|?]; lia.
  - by rewrite length_insert.
  - rewrite length_insert. lia.
  - by apply Hkeep.
  - by apply Hkeep.
Qed.

Section UFSetReduce.
Variable rank : Z → Z.
Variable B : Z.
Variable p : list Z.
Variable fuel : nat.
Hypothesis p_ranked : ranked p rank B.
Hypothesis B_nonneg : 0 ≤ B.
Hypothesis p_small : Z.of_nat (length p) < 2 ^ 31.
Hypothesis fuel_enough : (Z.to_nat B + 1 < fuel)%nat.

Local Abbreviation first_loop := (Reduce_first_loop rank B p).

Lemma first_loop_step k st :
  0 ≤ k < Z.of_nat (length p) → first_loop k st →
  ∃ st',
    (rt ← UFSet_Root fuel (fst st) (to_int k);
     m_parent ← vec_set (snd rt) (to_size (to_int k)) (fst rt);
     Some (m_parent,
           match snd st !! to_size (fst rt) with
           | Some _ => snd st
           | None => <[to_size (fst rt) := Z.of_nat (size (snd st))]> (snd st)
           end)) = Some st'
    ∧ first_loop (k + 1) st'.
Proof.
  intros Hk Hst. destruct st as [q M]. unfold Reduce_first_loop in Hst.
  destruct Hst as (Hl & HR & Hiff & Hdone & Hdom & Hval & Hinj & Hsur & Hsize).
  cbn [fst snd] in *.
  rewrite to_int_id by lia. rewrite to_size_id by (unfold SIZE_MOD; lia).
  destruct (HR k ltac:(lia)) as (_ & _ & _ & Hrk & _).
  destruct (UFSet_Root_spec rank B q HR B_nonneg ltac:(lia)
              (Z.to_nat (B + 1)) fuel k)
    as (root & q1 & E & Hroot & Hl1 & HR1 & Hiff1); [lia|lia|lia|].
  rewrite E. cbn [mbind option_bind fst snd].
  rewrite vec_set_Some by lia. cbn [mbind option_bind].
  pose proof (proj2 (Hiff1 _ _) Hroot) as Hroot1.
  pose proof (root_of_range _ _ _ Hroot1) as (_ & Hrt & Eroot).
  rewrite to_size_id by (unfold SIZE_MOD; lia).
  set (q2 := <[Z.to_nat k := root]> q1).
  assert (Hl2 : length q2 = length p) by (subst q2; rewrite length_insert; lia).
  assert (HR2 : ranked q2 rank B).
  { apply ranked_compress; [done|lia|lia|].
    destruct (root_of_rank rank B q1 k root HR1 Hroot1) as [->|?]; auto. }
  assert (Hiff2 : ∀ i ρ, root_of q2 i ρ ↔ root_of p i ρ).
  { intros i ρ. rewrite <- Hiff, <- Hiff1.
    destruct (root_of_rank rank B q1 k root HR1 Hroot1) as [Heq|Hlt].
    - subst q2. rewrite <- Heq in *. by rewrite list_insert_id by done.
    - apply root_of_compress_iff with (rank := rank) (B := B);
        [done|done|lia|lia|done|].
      intros ρ' Hρ'. rewrite (root_of_functional _ _ _ _ Hρ' Hroot1).
      apply root_of_self; [lia|done]. }
  assert (Hrootp : root_of p k root) by (by apply Hiff).
  assert (Hdone2 : ∀ i, 0 ≤ i < k + 1 →
            ∃ ρ, q2 !! Z.to_nat i = Some ρ ∧ root_of p i ρ).
  { intros i Hi. destruct (decide (i = k)) as [->|Hne].
    - exists root. split; [|done]. subst q2. apply list_lookup_insert_eq. lia.
    - destruct (Hdone i ltac:(lia)) as (ρ & Eρ & Hρ). exists ρ. split; [|done].
      subst q2. rewrite list_lookup_insert_ne by lia.
      pose proof (proj2 (Hiff _ _) Hρ) as Hρq.
      pose proof (root_of_range _ _ _ Hρq) as (_ & Hρr & Eρρ).
      apply (UFSet_Root_keeps rank B fuel q k root q1); [done|lia|lia|done|lia|lia|done|done]. }
  destruct (M !! root) as [lab|] eqn:EM.
  - eexists. split; [reflexivity|]. unfold Reduce_first_loop. cbn [fst snd].
    split; [done|]. split; [done|]. split; [done|]. split; [done|].
    split; [|split; [done|split; [done|split; [done|lia]]]].
    intros ρ. rewrite Hdom. split.
    + intros (i & Hi & Hρ). exists i. split; [lia|done].
    + intros (i & Hi & Hρ). destruct (decide (i = k)) as [->|Hne].
      * rewrite (root_of_functional _ _ _ _ Hρ Hrootp).
        apply Hdom. by rewrite EM.
      * exists i. split; [lia|done].
  - eexists. split; [reflexivity|]. unfold Reduce_first_loop. cbn [fst snd].
    rewrite map_size_insert_None by done.
    split; [done|]. split; [done|]. split; [done|]. split; [done|].
    split; [|split; [|split; [|split; [|lia]]]].
    + intros ρ. destruct (decide (ρ = root)) as [->|Hne].
      * rewrite lookup_insert_eq. split; [|done]. intros _. exists k. split; [lia|done].
      * rewrite lookup_insert_ne by done. rewrite Hdom. split.
        -- intros (i & Hi & Hρ). exists i. split; [lia|done].
        -- intros (i & Hi & Hρ). destruct (decide (i = k)) as [->|Hik].
           ++ by rewrite (root_of_functional _ _ _ _ Hρ Hrootp) in Hne.
           ++ exists i. split; [lia|done].
    + intros ρ l. destruct (decide (ρ = root)) as [->|Hne].
      * rewrite lookup_insert_eq. intros [= <-]. lia.
      * rewrite lookup_insert_ne by done. intros Hρ.
        apply Hval in Hρ. lia.
    + intros ρ ρ' l.
      destruct (decide (ρ = root)) as [->|Hne], (decide (ρ' = root)) as [->|Hne'];
        rewrite ?lookup_insert_eq, ?lookup_insert_ne by done.
      * done.
      * intros [= <-] Hρ'. apply Hval in Hρ'. lia.
      * intros Hρ [= <-]. apply Hval in Hρ. lia.
      * apply Hinj.
    + intros l Hlab. destruct (decide (l = Z.of_nat (size M))) as [->|Hne].
      * exists root. apply lookup_insert_eq.
      * destruct (Hsur l ltac:(lia)) as (ρ & Hρ). exists ρ.
        rewrite lookup_insert_ne; [done|]. intros <-. by rewrite EM in Hρ.
Qed.

(** [Reduce] on a forest. *)
Lemma UFSet_Reduce_spec :
  ∃ count labels,
    UFSet_Reduce fuel p = Some (count, labels)
    ∧ length labels = length p
    ∧ 0 ≤ count ≤ Z.of_nat (length p)
    ∧ (∀ i, 0 ≤ i < Z.of_nat (length p) →
            ∃ lab, labels !! Z.to_nat i = Some lab ∧ 0 ≤ lab < count)
    ∧ (∀ i j ρi ρj, root_of p i ρi → root_of p j ρj →
         (labels !! Z.to_nat i = labels !! Z.to_nat j ↔ ρi = ρj))
    ∧ (∀ lab, 0 ≤ lab < count →
              ∃ i, 0 ≤ i < Z.of_nat (length p) ∧ labels !! Z.to_nat i = Some lab).
Proof.
  unfold UFSet_Reduce.
  destruct (for_opt_invariant first_loop
              (λ i (st : list Z * gmap Z Z),
                 rt ← UFSet_Root fuel (fst st) (to_int i);
                 m_parent ← vec_set (snd rt) (to_size (to_int i)) (fst rt);
                 Some (m_parent,
                       match snd st !! to_size (fst rt) with
                       | Some _ => snd st
                       | None => <[to_size (fst rt) := Z.of_nat (size (snd st))]>
                                   (snd st)
                       end))
              0 (Z.of_nat (length p)) (p, ∅))
    as ([q M] & E1 & Hl & HR & Hiff & Hdone & Hdom & Hval & Hinj & Hsur & Hsize).
  { lia. }
  { unfold Reduce_first_loop. cbn [fst snd]. rewrite map_size_empty.
    split; [done|]. split; [done|]. split; [done|]. split; [intros; lia|].
    split; [|split; [|split; [|split; [|lia]]]].
    - intros ρ. rewrite lookup_empty. split; [by intros []|intros (? & ? & _); lia].
    - intros ρ l. by rewrite lookup_empty.
    - intros ρ ρ' l. by rewrite lookup_empty.
    - intros l Hlab. simpl in Hlab. lia. }
  { intros j st Hj Hst. by apply first_loop_step. }
  cbn [fst snd] in *. cbv zeta. rewrite E1. cbn [mbind option_bind].
  (* the second loop *)
  destruct (for_opt_invariant
              (λ k (st : list Z * gmap Z Z),
                 snd st = M ∧ length (fst st) = length p
                 ∧ (∀ i, 0 ≤ i < k →
                         ∃ ρ lab, root_of p i ρ ∧ M !! ρ = Some lab
                                  ∧ fst st !! Z.to_nat i = Some lab)
                 ∧ (∀ i, k ≤ i < Z.of_nat (length p) →
                         fst st !! Z.to_nat i = q !! Z.to_nat i))
              (λ i (st : list Z * gmap Z Z),
                 key ← vec_get (fst st) (to_size (to_int i));
                 let root_to_rid :=
                   match snd st !! to_size key with
                   | Some _ => snd st
                   | None => <[to_size key := 0]> (snd st)
                   end in
                 rid ← root_to_rid !! to_size key;
                 m_parent ← vec_set (fst st) (to_size (to_int i)) (to_int rid);
                 Some (m_parent, root_to_rid))
              0 (Z.of_nat (length p)) (q, M))
    as ([labels M'] & E2 & HM' & Hl2 & Hlab & _).
  { lia. }
  { cbn [fst snd]. split; [done|]. split; [done|]. split; [intros; lia|done]. }
  { intros k [l M2] Hk (HM2 & Hl2 & Hlab & Hrest). cbn [fst snd] in *. subst M2.
    rewrite to_int_id by lia. rewrite to_size_id by (unfold SIZE_MOD; lia).
    rewrite vec_get_lookup, Hrest by lia.
    destruct (Hdone k Hk) as (ρ & Eρ & Hρ). rewrite Eρ. cbn [mbind option_bind].
    pose proof (root_of_range _ _ _ Hρ) as (_ & Hρr & _).
    rewrite to_size_id by (unfold SIZE_MOD; lia).
    destruct (proj2 (Hdom ρ) (ex_intro _ k (conj Hk Hρ))) as [lab EM].
    cbv zeta. rewrite EM. cbv beta iota. rewrite EM. cbn [mbind option_bind].
    pose proof (Hval _ _ EM) as Hlabr.
    rewrite vec_set_Some by lia. cbn [mbind option_bind].
    rewrite to_int_id by lia.
    eexists. split; [reflexivity|]. cbn [fst snd]. rewrite length_insert.
    split; [done|]. split; [done|]. split.
    - intros i Hi. destruct (decide (i = k)) as [->|Hne].
      + exists ρ, lab. rewrite list_lookup_insert_eq by lia. done.
      + destruct (Hlab i ltac:(lia)) as (ρ' & lab' & ? & ? & ?).
        exists ρ', lab'. rewrite list_lookup_insert_ne by lia. done.
    - intros i Hi. rewrite list_lookup_insert_ne by lia. apply Hrest. lia. }
  cbn [fst snd] in *. subst M'. rewrite E2. cbn [mbind option_bind fst snd].
  rewrite to_int_id by lia.
  eexists _, _. split; [reflexivity|].
  split; [done|]. split; [lia|]. split; [|split].
  - intros i Hi. destruct (Hlab i Hi) as (ρ & lab & Hρ & EM & El).
    exists lab. split; [done|]. by apply (Hval ρ).
  - intros i j ρi ρj Hi Hj.
    pose proof (root_of_range _ _ _ Hi) as (Hir & _).
    pose proof (root_of_range _ _ _ Hj) as (Hjr & _).
    destruct (Hlab i Hir) as (ρi' & li & Hρi & EMi & Eli).
    destruct (Hlab j Hjr) as (ρj' & lj & Hρj & EMj & Elj).
    rewrite (root_of_functional _ _ _ _ Hρi Hi) in EMi.
    rewrite (root_of_functional _ _ _ _ Hρj Hj) in EMj.
    rewrite Eli, Elj. split.
    + intros [= ->]. by apply (Hinj ρi ρj lj).
    + intros ->. rewrite EMi in EMj. by injection EMj as ->.
  - intros lab Hlabr. destruct (Hsur lab Hlabr) as (ρ & EM).
    destruct (proj1 (Hdom ρ) ltac:(by rewrite EM)) as (i & Hi & Hρ).
    exists i. split; [done|].
    destruct (Hlab i Hi) as (ρ' & lab' & Hρ' & EM' & El).
    rewrite (root_of_functional _ _ _ _ Hρ' Hρ) in EM'.
    rewrite EM in EM'. by injection EM' as <-.
Qed.
End UFSetReduce.

(** X30.  [Reduce()] on a forest of fewer than [2 ^ 31] elements whose ranks
    are at most [B], given more than [B + 1] rounds for each search of a
    root: the call returns.  It leaves in the vector one label for every
    element; the labels are the numbers from 0 up to, and without, the
    number returned, every one of them is the label of some element, and two
    elements have the same label exactly when they had the same root. *)
Theorem UFSet_Reduce_labels_sets (m_parent : list Z) (rank : Z → Z) (B : Z)
    (fuel : nat) :
  ranked m_parent rank B → 0 ≤ B → Z.of_nat (length m_parent) < 2 ^ 31 →
  (Z.to_nat B + 1 < fuel)%nat →
  ∃ count labels,
    UFSet_Reduce fuel m_parent = Some (count, labels)
    ∧ length labels = length m_parent
    ∧ 0 ≤ count ≤ Z.of_nat (length m_parent)
    ∧ (∀ i, 0 ≤ i < Z.of_nat (length m_parent) →
            ∃ lab, labels !! Z.to_nat i = Some lab ∧ 0 ≤ lab < count)
    ∧ (∀ i j ρi ρj, root_of m_parent i ρi → root_of m_parent j ρj →
         (labels !! Z.to_nat i = labels !! Z.to_nat j ↔ ρi = ρj))
    ∧ (∀ lab, 0 ≤ lab < count →
              ∃ i, 0 ≤ i < Z.of_nat (length m_parent)
                   ∧ labels !! Z.to_nat i = Some lab).
Proof.
  intros HR HB Hlen Hfuel.
  exact (UFSet_Reduce_spec rank B m_parent fuel HR HB Hlen Hfuel).
Qed.

Lemma UFSet_Reduce_labels_sets_witness :
  ∃ count labels,
    UFSet_Reduce 5 [0; 0; 1; 3] = Some (count, labels)
    ∧ length labels = 4%nat
    ∧ 0 ≤ count ≤ 4.
Proof.
  destruct (UFSet_Reduce_labels_sets [0; 0; 1; 3] (λ i, 3 - i) 3 5)
    as (count & labels & E & Hl & Hc & _).
  - intros i Hi. simpl in Hi.
    assert (Hi' : i = 0 ∨ i = 1 ∨ i = 2 ∨ i = 3) by lia.
    destruct Hi' as [-> | [-> | [-> | ->]]]; eexists;
      (split; [reflexivity|]); simpl; lia.
  - lia.
  - simpl. lia.
  - simpl. lia.
  - exists count, labels. split; [exact E|]. split; [exact Hl | exact Hc].
Defined.

End his.
